(** * The mapper configuration core of sqlalchemy.orm.mapper

    A shallow embedding of [lib/sqlalchemy/orm/mapper.py]: the structural
    construction of a [Mapper] (inheritance resolution, class binding,
    primary-key derivation), the identity-key constructors, the
    single-table criterion and the two-phase configuration pass.

    Python objects live in heaps indexed by their identity; every
    function that mutates an object is a computation over the whole
    store, and a raised exception leaves the store as the statements
    executed so far made it. *)

From stdpp Require Import gmap strings list fin_maps sorting.

Open Scope string_scope.
Open Scope list_scope.
Open Scope nat_scope.

(** ** Object identities *)

Abbreviation class_id := nat (only parsing).
Abbreviation mapper_id := nat (only parsing).
Abbreviation prop_id := nat (only parsing).
Abbreviation pmap_id := nat (only parsing).
Abbreviation registry_id := nat (only parsing).
(** Selectables, columns and SQL clauses are objects of the SQL layer,
    compared by identity. *)
Abbreviation selectable := nat (only parsing).
Abbreviation column := nat (only parsing).
Abbreviation clause := nat (only parsing).

(** ** Exceptions and log entries *)

Inductive exc_class : Type :=
| ArgumentError
| InvalidRequestError
| NoForeignKeysError
| AmbiguousForeignKeysError
| UnmappedColumnError
| AttributeError
| TypeError
| AssertionError
| NoSuchColumnError
| OtherError (name : string).

(** An exception carries its class, the message template as it is
    written in the source with the values formatted into it, the
    exception it was raised [from], and the [_configure_failed]
    attribute ([None] when the attribute is absent). *)
Local Unset Elimination Schemes.
Inductive exn : Type :=
| Exn (cls : exc_class) (template : string) (args : list fmt_arg)
      (cause : option exn) (configure_failed : option exn)
with fmt_arg : Type :=
| FmtStr (s : string)
| FmtMapper (m : mapper_id)
| FmtClass (c : class_id)
| FmtExn (e : exn).
Local Set Elimination Schemes.

Definition exn_class (e : exn) : exc_class :=
  match e with Exn c _ _ _ _ => c end.
Definition exn_template (e : exn) : string :=
  match e with Exn _ t _ _ _ => t end.
Definition exn_args (e : exn) : list fmt_arg :=
  match e with Exn _ _ a _ _ => a end.
Definition exn_cause (e : exn) : option exn :=
  match e with Exn _ _ _ c _ => c end.
Definition exn_configure_failed (e : exn) : option exn :=
  match e with Exn _ _ _ _ f => f end.

Definition new_exn (c : exc_class) (template : string) (args : list fmt_arg) : exn :=
  Exn c template args None None.

(** What the code makes observable besides its results: warnings and the
    calls of event hooks. *)
Inductive event : Type :=
| Warn (template : string) (args : list fmt_arg)
| WarnDeprecated (template : string)
| EvInstrumentClass (m : mapper_id)
| EvBeforeConfigured
| EvAfterConfigured
| EvBeforeMapperConfigured (m : mapper_id) (hook : nat)
| EvPropInit (m : mapper_id) (key : string)
| EvPostInstrumentClass (m : mapper_id) (key : string)
| EvMapperConfigured (m : mapper_id).

(** The values of result rows and primary keys. *)
Inductive pyvalue : Type :=
| PyNone
| PyInt (z : Z)
| PyStr (s : string).

(** ** External collaborators *)

(** The selectable and column model of [sqlalchemy.sql], consumed through
    the calls the mapper makes. *)
Class SqlLayer : Type := {
  (** [sql.join(left, right, onclause)] *)
  sql_join : selectable → selectable → clause → selectable;
  (** the candidate join conditions the foreign keys between two
      selectables give *)
  fk_join_candidates : selectable → selectable → list clause;
  (** [sql_util.criterion_as_pairs(onclause, consider_as_foreign_keys)] *)
  criterion_as_pairs : clause → list column → list (column * column);
  (** [sql_util.find_tables(selectable)] *)
  find_tables : selectable → list selectable;
  (** [selectable.primary_key], in its own order *)
  sel_primary_key : selectable → list column;
  (** [selectable.c] *)
  sel_columns : selectable → list column;
  (** [selectable.corresponding_column(column)] *)
  corresponding_column : selectable → column → option column;
  (** [isinstance(selectable, schema.Table)] *)
  is_schema_table : selectable → bool;
  (** [selectable.description] *)
  description : selectable → string;
  (** [column.proxy_set] *)
  col_proxy_set : column → list column;
  (** [column.primary_key] *)
  col_primary_key : column → bool;
  (** [column.table]; [None] when the attribute is absent *)
  col_table : column → option selectable;
  (** [column.description] *)
  col_description : column → string;
  (** [sql_util.reduce_columns(columns, ignore_nonexistent_tables=True)] *)
  reduce_columns : list (option column) → list column;
}.

(** The Python class runtime. *)
Class ClassRuntime : Type := {
  issubclass : class_id → class_id → bool;
  class_name : class_id → string;
  (** the names under [__sa_validators__] of the methods of a class, in
      the order [util.iterate_attributes] meets them *)
  sa_validators : class_id → list string;
}.

(** ** Records with functional update *)

(** [make_setter proj eta] builds the function that replaces the field
    [proj] in the eta-expansion [eta] of a record. *)
Ltac make_setter proj eta :=
  let body := eval cbv delta [eta] in eta in
  lazymatch eval pattern proj in body with
  | ?ctx _ =>
      let t := eval cbv beta in (fun f => ctx (fun r => f (proj r))) in
      exact t
  end.

(** ** The data model *)

(** A [before_mapper_configured] hook, by what its call does. *)
Inductive hook_fn : Type :=
| HookReturns (ext_skip : bool)
| HookRaises (e : exn).

(** The normalised [with_polymorphic] specification. *)
Inductive wp_entity : Type :=
| WPClass (c : class_id)
| WPMapper (m : mapper_id).

Inductive wp_spec : Type :=
| WPStar
| WPTuple (entities : list wp_entity)
| WPList (entities : list wp_entity).

Record MapperProperty : Type := Build_MapperProperty {
  parent : mapper_id;
  _configure_started : bool;
  _configure_finished : bool;
  (** what [do_init()] does: [Some e] when it raises [e] *)
  do_init : option exn;
}.

Definition MapperProperty_eta (p : MapperProperty) : MapperProperty :=
  Build_MapperProperty (parent p) (_configure_started p)
    (_configure_finished p) (do_init p).

Definition set__configure_started :
  (bool → bool) → MapperProperty → MapperProperty :=
  ltac:(make_setter _configure_started MapperProperty_eta).
Definition set__configure_finished :
  (bool → bool) → MapperProperty → MapperProperty :=
  ltac:(make_setter _configure_finished MapperProperty_eta).

Record Mapper : Type := Build_Mapper {
  (* set from the constructor's arguments *)
  class_ : class_id;
  _primary_key_argument : option (list column);
  non_primary : bool;
  version_id_col : option column;
  concrete : bool;
  single : bool;
  inherits : option mapper_id;
  local_table : option selectable;
  inherit_condition : option clause;
  inherit_foreign_keys : list column;
  batch : bool;
  polymorphic_on : option column;
  passive_updates : bool;
  passive_deletes : bool;
  _requires_row_aliasing : bool;
  _inherits_equated_pairs : option (list (column * column));
  with_polymorphic : option (wp_spec * option selectable);
  polymorphic_load : option string;
  polymorphic_identity : option string;
  polymorphic_map : pmap_id;
  (* dispatch *)
  before_mapper_configured : list hook_fn;
  mapper_configured : list (option exn);
  (* set while the mapper is constructed *)
  _inheriting_mappers : list mapper_id;
  persist_selectable : option selectable;
  _identity_class : option class_id;
  base_mapper : option mapper_id;
  class_manager : option class_id;
  registry : option registry_id;
  validators : list string;
  _props : list (string * prop_id);
  _columntoproperty : list (column * prop_id);
  tables : list selectable;
  _pks_by_table : gmap selectable (list column);
  _cols_by_table : gmap selectable (list column);
  primary_key : option (list column);
  _readonly_props : list prop_id;
  (* configuration state *)
  configured : bool;
  _ready_for_configure : bool;
  _configure_failed : option exn;
}.

Definition Mapper_eta (m : Mapper) : Mapper :=
  Build_Mapper (class_ m) (_primary_key_argument m) (non_primary m)
    (version_id_col m) (concrete m) (single m) (inherits m) (local_table m)
    (inherit_condition m) (inherit_foreign_keys m) (batch m)
    (polymorphic_on m) (passive_updates m) (passive_deletes m)
    (_requires_row_aliasing m) (_inherits_equated_pairs m)
    (with_polymorphic m) (polymorphic_load m) (polymorphic_identity m)
    (polymorphic_map m) (before_mapper_configured m) (mapper_configured m)
    (_inheriting_mappers m) (persist_selectable m) (_identity_class m)
    (base_mapper m) (class_manager m) (registry m) (validators m)
    (_props m) (_columntoproperty m) (tables m) (_pks_by_table m)
    (_cols_by_table m) (primary_key m) (_readonly_props m) (configured m)
    (_ready_for_configure m) (_configure_failed m).

Definition set_version_id_col : (option column → option column) → Mapper → Mapper :=
  ltac:(make_setter version_id_col Mapper_eta).
Definition set_single : (bool → bool) → Mapper → Mapper :=
  ltac:(make_setter single Mapper_eta).
Definition set_local_table : (option selectable → option selectable) → Mapper → Mapper :=
  ltac:(make_setter local_table Mapper_eta).
Definition set_inherit_condition : (option clause → option clause) → Mapper → Mapper :=
  ltac:(make_setter inherit_condition Mapper_eta).
Definition set_batch : (bool → bool) → Mapper → Mapper :=
  ltac:(make_setter batch Mapper_eta).
Definition set_polymorphic_on : (option column → option column) → Mapper → Mapper :=
  ltac:(make_setter polymorphic_on Mapper_eta).
Definition set_passive_updates : (bool → bool) → Mapper → Mapper :=
  ltac:(make_setter passive_updates Mapper_eta).
Definition set_passive_deletes : (bool → bool) → Mapper → Mapper :=
  ltac:(make_setter passive_deletes Mapper_eta).
Definition set__requires_row_aliasing : (bool → bool) → Mapper → Mapper :=
  ltac:(make_setter _requires_row_aliasing Mapper_eta).
Definition set__inherits_equated_pairs :
  (option (list (column * column)) → option (list (column * column))) → Mapper → Mapper :=
  ltac:(make_setter _inherits_equated_pairs Mapper_eta).
Definition set_with_polymorphic :
  (option (wp_spec * option selectable) → option (wp_spec * option selectable)) → Mapper → Mapper :=
  ltac:(make_setter with_polymorphic Mapper_eta).
Definition set_polymorphic_map : (pmap_id → pmap_id) → Mapper → Mapper :=
  ltac:(make_setter polymorphic_map Mapper_eta).
Definition set_before_mapper_configured : (list hook_fn → list hook_fn) → Mapper → Mapper :=
  ltac:(make_setter before_mapper_configured Mapper_eta).
Definition set_mapper_configured : (list (option exn) → list (option exn)) → Mapper → Mapper :=
  ltac:(make_setter mapper_configured Mapper_eta).
Definition set__inheriting_mappers : (list mapper_id → list mapper_id) → Mapper → Mapper :=
  ltac:(make_setter _inheriting_mappers Mapper_eta).
Definition set_persist_selectable : (option selectable → option selectable) → Mapper → Mapper :=
  ltac:(make_setter persist_selectable Mapper_eta).
Definition set__identity_class : (option class_id → option class_id) → Mapper → Mapper :=
  ltac:(make_setter _identity_class Mapper_eta).
Definition set_base_mapper : (option mapper_id → option mapper_id) → Mapper → Mapper :=
  ltac:(make_setter base_mapper Mapper_eta).
Definition set_class_manager : (option class_id → option class_id) → Mapper → Mapper :=
  ltac:(make_setter class_manager Mapper_eta).
Definition set_registry : (option registry_id → option registry_id) → Mapper → Mapper :=
  ltac:(make_setter registry Mapper_eta).
Definition set_validators : (list string → list string) → Mapper → Mapper :=
  ltac:(make_setter validators Mapper_eta).
Definition set__props : (list (string * prop_id) → list (string * prop_id)) → Mapper → Mapper :=
  ltac:(make_setter _props Mapper_eta).
Definition set__columntoproperty :
  (list (column * prop_id) → list (column * prop_id)) → Mapper → Mapper :=
  ltac:(make_setter _columntoproperty Mapper_eta).
Definition set_tables : (list selectable → list selectable) → Mapper → Mapper :=
  ltac:(make_setter tables Mapper_eta).
Definition set__pks_by_table :
  (gmap selectable (list column) → gmap selectable (list column)) → Mapper → Mapper :=
  ltac:(make_setter _pks_by_table Mapper_eta).
Definition set__cols_by_table :
  (gmap selectable (list column) → gmap selectable (list column)) → Mapper → Mapper :=
  ltac:(make_setter _cols_by_table Mapper_eta).
Definition set_primary_key : (option (list column) → option (list column)) → Mapper → Mapper :=
  ltac:(make_setter primary_key Mapper_eta).
Definition set__readonly_props : (list prop_id → list prop_id) → Mapper → Mapper :=
  ltac:(make_setter _readonly_props Mapper_eta).
Definition set_configured : (bool → bool) → Mapper → Mapper :=
  ltac:(make_setter configured Mapper_eta).
Definition set__ready_for_configure : (bool → bool) → Mapper → Mapper :=
  ltac:(make_setter _ready_for_configure Mapper_eta).
Definition set__configure_failed : (option exn → option exn) → Mapper → Mapper :=
  ltac:(make_setter _configure_failed Mapper_eta).

(** The class manager of a mapped class: [manager.mapper] (the class
    [is_mapped] when it is set) and [manager.registry]. *)
Record ClassManager : Type := Build_ClassManager {
  mgr_mapper : option mapper_id;
  mgr_registry : option registry_id;
}.

Definition is_mapped (mg : ClassManager) : bool :=
  bool_decide (mgr_mapper mg ≠ None).

Record Registry : Type := Build_Registry {
  _new_mappers : bool;
  _managers : list class_id;
  _non_primary_mappers : list mapper_id;
  _dependencies : list registry_id;
}.

Definition Registry_eta (r : Registry) : Registry :=
  Build_Registry (_new_mappers r) (_managers r) (_non_primary_mappers r)
    (_dependencies r).

Definition set__new_mappers : (bool → bool) → Registry → Registry :=
  ltac:(make_setter _new_mappers Registry_eta).
Definition set__managers : (list class_id → list class_id) → Registry → Registry :=
  ltac:(make_setter _managers Registry_eta).
Definition set__non_primary_mappers :
  (list mapper_id → list mapper_id) → Registry → Registry :=
  ltac:(make_setter _non_primary_mappers Registry_eta).

(** The store: the heaps of mapper, property, polymorphic-map and
    registry objects, the class managers, the module globals
    [_legacy_registry] and [_already_compiling], and the log. *)
Record St : Type := Build_St {
  mappers : list Mapper;
  properties : list MapperProperty;
  polymorphic_maps : list (gmap string mapper_id);
  managers : gmap class_id ClassManager;
  registries : list Registry;
  _legacy_registry : option registry_id;
  _already_compiling : bool;
  log : list event;
}.

Definition St_eta (s : St) : St :=
  Build_St (mappers s) (properties s) (polymorphic_maps s) (managers s)
    (registries s) (_legacy_registry s) (_already_compiling s) (log s).

Definition set_mappers : (list Mapper → list Mapper) → St → St :=
  ltac:(make_setter mappers St_eta).
Definition set_properties : (list MapperProperty → list MapperProperty) → St → St :=
  ltac:(make_setter properties St_eta).
Definition set_polymorphic_maps :
  (list (gmap string mapper_id) → list (gmap string mapper_id)) → St → St :=
  ltac:(make_setter polymorphic_maps St_eta).
Definition set_managers :
  (gmap class_id ClassManager → gmap class_id ClassManager) → St → St :=
  ltac:(make_setter managers St_eta).
Definition set_registries : (list Registry → list Registry) → St → St :=
  ltac:(make_setter registries St_eta).
Definition set__already_compiling : (bool → bool) → St → St :=
  ltac:(make_setter _already_compiling St_eta).
Definition set_log : (list event → list event) → St → St :=
  ltac:(make_setter log St_eta).

(** ** Computations over the store *)

(** A call returns, raises, or does not come back. *)
Inductive outcome (A : Type) : Type :=
| Returns (a : A)
| Raises (e : exn)
| Diverges.
Arguments Returns {A} a.
Arguments Raises {A} e.
Arguments Diverges {A}.

Definition M (A : Type) : Type := St → outcome A * St.

Definition ret {A} (a : A) : M A := λ s, (Returns a, s).

Definition bind {A B} (c : M A) (k : A → M B) : M B :=
  λ s, match c s with
       | (Returns a, s') => k a s'
       | (Raises e, s') => (Raises e, s')
       | (Diverges, s') => (Diverges, s')
       end.

Declare Scope py_scope.
Delimit Scope py_scope with py.
Bind Scope py_scope with M.
Notation "x <- c ;; k" := (bind c (λ x, k))
  (at level 100, c at next level, right associativity,
   format "'[v' x  <-  c  ;;  '/' k ']'") : py_scope.
Notation "c ;; k" := (bind c (λ _, k))
  (at level 100, right associativity,
   format "'[v' c  ;;  '/' k ']'") : py_scope.
Open Scope py_scope.

Definition raise {A} (e : exn) : M A := λ s, (Raises e, s).
Definition diverge {A} : M A := λ s, (Diverges, s).
Definition gets {A} (f : St → A) : M A := λ s, (Returns (f s), s).
Definition modify (f : St → St) : M unit := λ s, (Returns tt, f s).

Definition when (b : bool) (c : M unit) : M unit := if b then c else ret tt.

(** [try: c except Exception as e: handler e] *)
Definition try_except {A} (c : M A) (handler : exn → M A) : M A :=
  λ s, match c s with
       | (Raises e, s') => handler e s'
       | r => r
       end.

(** [try: c finally: fin] *)
Definition try_finally {A} (c : M A) (fin : M unit) : M A :=
  λ s, match c s with
       | (Returns a, s') => (fin ;; ret a) s'
       | (Raises e, s') => (fin ;; raise e) s'
       | (Diverges, s') => (Diverges, s')
       end.

Fixpoint for_each {A} (l : list A) (body : A → M unit) : M unit :=
  match l with
  | [] => ret tt
  | x :: l' => body x ;; for_each l' body
  end.

Definition emit (ev : event) : M unit := modify (set_log (λ l, l ++ [ev])).

Definition warn (template : string) (args : list fmt_arg) : M unit :=
  emit (Warn template args).

(** Attribute access through a reference that holds no object of the
    expected kind. *)
Definition no_attribute {A} (what : string) : M A :=
  raise (new_exn AttributeError "object has no attribute %s" [FmtStr what]).

Definition from_option {A} (what : string) (o : option A) : M A :=
  match o with
  | Some a => ret a
  | None => no_attribute what
  end.

Definition get_mapper (m : mapper_id) : M Mapper :=
  o <- gets (λ s, mappers s !! m) ;; from_option "mapper" o.

Definition modify_mapper (m : mapper_id) (f : Mapper → Mapper) : M unit :=
  modify (set_mappers (alter f m)).

Definition get_property (p : prop_id) : M MapperProperty :=
  o <- gets (λ s, properties s !! p) ;; from_option "property" o.

Definition modify_property (p : prop_id) (f : MapperProperty → MapperProperty) : M unit :=
  modify (set_properties (alter f p)).

Definition get_registry (r : registry_id) : M Registry :=
  o <- gets (λ s, registries s !! r) ;; from_option "registry" o.

Definition modify_registry (r : registry_id) (f : Registry → Registry) : M unit :=
  modify (set_registries (alter f r)).

Definition get_polymorphic_map (d : pmap_id) : M (gmap string mapper_id) :=
  o <- gets (λ s, polymorphic_maps s !! d) ;; from_option "polymorphic_map" o.

Definition modify_polymorphic_map (d : pmap_id)
    (f : gmap string mapper_id → gmap string mapper_id) : M unit :=
  modify (set_polymorphic_maps (alter f d)).

(** ** The arguments of the constructor *)

(** Property configuration ([_configure_properties], [_configure_property]
    and what they call) is not embedded; a construction is given what
    it leaves behind.  A property of the mapper is one taken over from
    an ancestor, by reference, or a new one with this mapper as parent. *)
Inductive prop_source : Type :=
| InheritedProp (p : prop_id)
| NewProp (init : option exn).

(** [_props] in insertion order, and [_columntoproperty] with each column
    pointing at a position of [_props]. *)
Record PropertiesOutcome : Type := Build_PropertiesOutcome {
  po_props : list (string * prop_source);
  po_columntoproperty : list (column * nat);
}.

(** The discriminator as [_configure_polymorphic_setter] resolves it when
    [polymorphic_on] was given, with the column property it configures
    when the discriminator was not mapped yet: key, [do_init] and
    columns. *)
Record SetterOutcome : Type := Build_SetterOutcome {
  so_polymorphic_on : column;
  so_new_property : option (string * option exn * list column);
}.

(** [inherits] is taken as a mapper and [polymorphic_on] as a column; the
    other forms the constructor accepts (a class, an attribute name) are
    resolved to these by code outside this file. *)
Record MapperArgs : Type := Build_MapperArgs {
  a_class_ : class_id;
  a_local_table : option selectable;
  a_primary_key : option (list column);
  a_non_primary : bool;
  a_inherits : option mapper_id;
  a_inherit_condition : option clause;
  a_inherit_foreign_keys : list column;
  a_version_id_col : option column;
  a_polymorphic_on : option column;
  a__polymorphic_map : option pmap_id;
  a_polymorphic_identity : option string;
  a_concrete : bool;
  a_with_polymorphic : option (wp_spec * option selectable);
  a_polymorphic_load : option string;
  a_batch : bool;
  a_passive_updates : bool;
  a_passive_deletes : bool;
  (** the listeners established for the class *)
  a_before_mapper_configured : list hook_fn;
  a_mapper_configured : list (option exn);
  (** the outcome of the steps that are not embedded *)
  a_properties : exn + PropertiesOutcome;
  a_polymorphic_setter : exn + SetterOutcome;
}.

Definition lift_outcome {A} (o : outcome A) : M A := λ s, (o, s).

Section mapper.
Context `{!SqlLayer, !ClassRuntime}.

(** ** Walking the inheritance chain *)

(** [Mapper.iterate_to_root]: [m = self; while m: yield m; m = m.inherits].
    The loop is run on a budget of steps; a chain of a heap of [n]
    mappers that does not end within [n + 1] steps is cyclic, and the
    Python loop never ends on it. *)
Fixpoint iterate_to_root_loop (fuel : nat) (ms : list Mapper)
    (m : option mapper_id) : outcome (list mapper_id) :=
  match m with
  | None => Returns []
  | Some i =>
      match fuel with
      | 0 => Diverges
      | S fuel' =>
          match ms !! i with
          | None =>
              Raises (new_exn AttributeError "object has no attribute %s"
                        [FmtStr "inherits"])
          | Some mp =>
              match iterate_to_root_loop fuel' ms (inherits mp) with
              | Returns l => Returns (i :: l)
              | r => r
              end
          end
      end
  end.

Definition iterate_to_root (self : mapper_id) : M (list mapper_id) :=
  ms <- gets mappers ;;
  lift_outcome (iterate_to_root_loop (S (length ms)) ms (Some self)).

(** [Mapper._expire_memoizations].  Memoized attributes are computed
    from the store on every use here, so the reset itself changes
    nothing; the walk to the root remains. *)
Definition _expire_memoizations (self : mapper_id) : M unit :=
  chain <- iterate_to_root self ;;
  for_each chain (λ _, ret tt).

(** ** Inheritance resolution: [Mapper._configure_inheritance] *)

(** [coercions.expect(roles.FromClauseRole, x)] on an attribute that may
    hold [None]. *)
Definition expect_selectable (o : option selectable) : M selectable :=
  match o with
  | Some t => ret t
  | None => raise (new_exn ArgumentError "FROM expression expected, got %r" [FmtStr "None"])
  end.

(** Modelled from the spec: [sql_util.join_condition] is not part of the
    sources at hand.  The selectable layer infers a join condition from
    the foreign keys between two selectables, producing zero, one or
    many candidate conditions; none is a [NoForeignKeysError], more than
    one an [AmbiguousForeignKeysError]. *)
Definition join_condition (a b : selectable) : M clause :=
  match fk_join_candidates a b with
  | [] =>
      raise (new_exn NoForeignKeysError
               "Can't find any foreign key relationships between '%s' and '%s'."
               [FmtStr (description a); FmtStr (description b)])
  | [c] => ret c
  | _ :: _ :: _ =>
      raise (new_exn AmbiguousForeignKeysError
               "Can't determine join between '%s' and '%s'; tables have more than one foreign key constraint relationship between them."
               [FmtStr (description a); FmtStr (description b)])
  end.

(** The [except] clauses around the inference of the inherit
    condition. *)
Definition reraise_inherit_condition (parent_local local : selectable)
    (e : exn) : M clause :=
  match exn_class e with
  | NoForeignKeysError =>
      raise (Exn NoForeignKeysError
               "Can't determine the inherit condition between inherited table '%s' and inheriting table '%s'; tables have no foreign key relationships established.  Please ensure the inheriting table has a foreign key relationship to the inherited table, or provide an 'on clause' using the 'inherit_condition' mapper argument."
               [FmtStr (description parent_local); FmtStr (description local)]
               (Some e) None)
  | AmbiguousForeignKeysError =>
      raise (Exn AmbiguousForeignKeysError
               "Can't determine the inherit condition between inherited table '%s' and inheriting table '%s'; tables have more than one foreign key relationship established.  Please specify the 'on clause' using the 'inherit_condition' mapper argument."
               [FmtStr (description parent_local); FmtStr (description local)]
               (Some e) None)
  | _ => raise e
  end.

(** The inherit condition of a joined-table mapper: the explicit one, or
    the one inferred between the parent's local table and ours. *)
Definition resolve_inherit_condition (self : mapper_id) (par : Mapper)
    (local : selectable) : M clause :=
  me <- get_mapper self ;;
  match inherit_condition me with
  | Some c => ret c
  | None =>
      c <- try_except
             (parent_local <- expect_selectable (local_table par) ;;
              join_condition parent_local local)
             (λ e, match local_table par with
                   | Some parent_local => reraise_inherit_condition parent_local local e
                   | None => raise e
                   end) ;;
      modify_mapper self (set_inherit_condition (λ _, Some c)) ;;
      ret c
  end.

(** The three inheritance modes: single-table, concrete, joined; and the
    parent's own table mapped again. *)
Definition configure_inherited_selectable (self p : mapper_id) : M unit :=
  me <- get_mapper self ;;
  par <- get_mapper p ;;
  match local_table me with
  | None =>
      modify_mapper self (set_local_table (λ _, local_table par)) ;;
      modify_mapper self (set_persist_selectable (λ _, persist_selectable par)) ;;
      modify_mapper self (set_single (λ _, true))
  | Some local =>
      if bool_decide (local_table par ≠ Some local) then
        if concrete me then
          modify_mapper self (set_persist_selectable (λ _, Some local)) ;;
          chain <- iterate_to_root self ;;
          for_each chain (λ m,
            mp <- get_mapper m ;;
            when (bool_decide (polymorphic_on mp ≠ None))
              (modify_mapper m (set__requires_row_aliasing (λ _, true))))
        else
          cond <- resolve_inherit_condition self par local ;;
          parent_persist <- expect_selectable (persist_selectable par) ;;
          modify_mapper self
            (set_persist_selectable (λ _, Some (sql_join parent_persist local cond))) ;;
          modify_mapper self
            (set__inherits_equated_pairs
               (λ _, Some (criterion_as_pairs cond (inherit_foreign_keys me))))
      else
        modify_mapper self (set_persist_selectable (λ _, Some local))
  end.

Definition configure_identity_class (self p : mapper_id) : M unit :=
  me <- get_mapper self ;;
  par <- get_mapper p ;;
  if bool_decide (polymorphic_identity me ≠ None) && negb (concrete me) then
    ic <- from_option "_identity_class" (_identity_class par) ;;
    modify_mapper self (set__identity_class (λ _, Some ic))
  else
    modify_mapper self (set__identity_class (λ _, Some (class_ me))).

Definition configure_version_id_col (self p : mapper_id) : M unit :=
  me <- get_mapper self ;;
  par <- get_mapper p ;;
  match version_id_col me, version_id_col par with
  | None, _ => modify_mapper self (set_version_id_col (λ _, version_id_col par))
  | Some c, Some pc =>
      when (bool_decide (c ≠ pc))
        (warn "Inheriting version_id_col '%s' does not match inherited version_id_col '%s' and will not automatically populate the inherited versioning column. version_id_col should only be specified on the base-most mapper that includes versioning."
           [FmtStr (col_description c); FmtStr (col_description pc)])
  | Some _, None => ret tt
  end.

(** What a mapper takes over from the mapper it inherits from. *)
Definition propagate_from_parent (self p : mapper_id) : M unit :=
  par <- get_mapper p ;;
  modify_mapper self (set_polymorphic_map (λ _, polymorphic_map par)) ;;
  modify_mapper self (set_batch (λ _, batch par)) ;;
  modify_mapper p (set__inheriting_mappers (λ l, l ++ [self])) ;;
  modify_mapper self (set_base_mapper (λ _, base_mapper par)) ;;
  modify_mapper self (set_passive_updates (λ _, passive_updates par)) ;;
  modify_mapper self (set_passive_deletes (λ pd, passive_deletes par || pd)).

(** The entry of an inheriting mapper in the polymorphic map it shares
    with its parent. *)
Definition register_polymorphic_identity (self : mapper_id) : M unit :=
  me <- get_mapper self ;;
  match polymorphic_identity me with
  | None => ret tt
  | Some ident =>
      pm <- get_polymorphic_map (polymorphic_map me) ;;
      match pm !! ident with
      | Some old =>
          warn "Reassigning polymorphic association for identity %r from %r to %r: Check for duplicate use of %r as value for polymorphic_identity."
            [FmtStr ident; FmtMapper old; FmtMapper self; FmtStr ident]
      | None => ret tt
      end ;;
      modify_polymorphic_map (polymorphic_map me) (<[ident := self]>)
  end.

(** [Mapper._set_with_polymorphic] at the two calls
    [_add_with_polymorphic_subclass] makes: the argument is a tuple. *)
Definition _set_with_polymorphic (self : mapper_id)
    (wp : wp_spec * option selectable) : M unit :=
  modify_mapper self (set_with_polymorphic (λ _, Some wp)) ;;
  me <- get_mapper self ;;
  when (configured me) (_expire_memoizations self).

Definition _add_with_polymorphic_subclass (self mapper : mapper_id) : M unit :=
  sub <- get_mapper mapper ;;
  me <- get_mapper self ;;
  match with_polymorphic me with
  | None => _set_with_polymorphic self (WPTuple [WPClass (class_ sub)], None)
  | Some (WPStar, _) => ret tt
  | Some (WPTuple l, sel) =>
      _set_with_polymorphic self (WPTuple (l ++ [WPClass (class_ sub)]), sel)
  | Some (WPList _, _) =>
      raise (new_exn TypeError "can only concatenate list (not %s) to list" [FmtStr "tuple"])
  end.

Definition check_polymorphic_load (self p : mapper_id) : M unit :=
  me <- get_mapper self ;;
  when (bool_decide (polymorphic_load me ≠ None ∧ polymorphic_load me ≠ Some EmptyString)
        && concrete me)
    (raise (new_exn ArgumentError
              "polymorphic_load is not currently supported with concrete table inheritance" [])) ;;
  match polymorphic_load me with
  | None => ret tt
  | Some load =>
      if bool_decide (load = "inline") then _add_with_polymorphic_subclass p self
      else if bool_decide (load = "selectin") then ret tt
      else raise (new_exn ArgumentError "unknown argument for polymorphic_load: %r" [FmtStr load])
  end.

(** The checks that open the branch [if self.inherits:]. *)
Definition check_inheritance (self p : mapper_id) : M unit :=
  me <- get_mapper self ;;
  par <- get_mapper p ;;
  when (negb (issubclass (class_ me) (class_ par)))
    (raise (new_exn ArgumentError "Class '%s' does not inherit from '%s'"
              [FmtStr (class_name (class_ me)); FmtStr (class_name (class_ par))])) ;;
  (* self.dispatch._update(self.inherits.dispatch) *)
  modify_mapper self (set_before_mapper_configured (λ l, l ++ before_mapper_configured par)) ;;
  modify_mapper self (set_mapper_configured (λ l, l ++ mapper_configured par)) ;;
  when (negb (bool_decide (non_primary me = non_primary par)))
    (let np := if negb (non_primary me) then "primary" else "non-primary" in
     raise (new_exn ArgumentError
              "Inheritance of %s mapper for class '%s' is only allowed from a %s mapper"
              [FmtStr np; FmtStr (class_name (class_ me)); FmtStr np])).

(** The branch [if self.inherits:]. *)
Definition configure_inheriting (self p : mapper_id) : M unit :=
  check_inheritance self p ;;
  configure_inherited_selectable self p ;;
  configure_identity_class self p ;;
  configure_version_id_col self p ;;
  propagate_from_parent self p ;;
  register_polymorphic_identity self ;;
  check_polymorphic_load self p.

(** The branch [else:], of a mapper that inherits from none. *)
Definition configure_base (self : mapper_id) : M unit :=
  me <- get_mapper self ;;
  modify_mapper self (set_base_mapper (λ _, Some self)) ;;
  modify_mapper self (set_persist_selectable (λ _, local_table me)) ;;
  match polymorphic_identity me with
  | Some ident => modify_polymorphic_map (polymorphic_map me) (<[ident := self]>)
  | None => ret tt
  end ;;
  modify_mapper self (set__identity_class (λ _, Some (class_ me))).

Definition require_persist_selectable (self : mapper_id) : M unit :=
  me <- get_mapper self ;;
  when (bool_decide (persist_selectable me = None))
    (raise (new_exn ArgumentError "Mapper '%s' does not have a persist_selectable specified."
              [FmtMapper self])).

Definition _configure_inheritance (self : mapper_id) : M unit :=
  modify_mapper self (set__inheriting_mappers (λ _, [])) ;;
  me <- get_mapper self ;;
  match inherits me with
  | Some p => configure_inheriting self p
  | None => configure_base self
  end ;;
  require_persist_selectable self.

(** ** Class binding: [Mapper._configure_class_instrumentation] *)

(** Modelled from the spec: [registry._add_non_primary_mapper] is not
    part of the sources at hand.  A registry is a collection of
    descriptors; a secondary descriptor joins the collection of the
    registry of its class. *)
Definition _add_non_primary_mapper (r : registry_id) (np_mapper : mapper_id) : M unit :=
  modify_registry r
    (set__non_primary_mappers
       (λ l, if bool_decide (np_mapper ∈ l) then l else l ++ [np_mapper])).

(** Modelled from the spec: [registry._add_manager] is not part of the
    sources at hand.  The registry maps bound classes to their primary
    descriptor; the class joins the registry and its manager refers to
    it. *)
Definition _add_manager (r : registry_id) (cls : class_id) : M unit :=
  modify_registry r
    (set__managers (λ l, if bool_decide (cls ∈ l) then l else l ++ [cls])) ;;
  modify (set_managers
            (alter (λ mg, Build_ClassManager (mgr_mapper mg) (Some r)) cls)).

(** Modelled from the spec: [instrumentation.register_class] is not part
    of the sources at hand.  It associates the bound class with the
    descriptor as its primary mapper, creating the class manager when
    the class has none. *)
Definition register_class (cls : class_id) (mapper : mapper_id) : M ClassManager :=
  old <- gets (λ s, managers s !! cls) ;;
  let mg := Build_ClassManager (Some mapper) (old ≫= mgr_registry) in
  modify (set_managers (<[cls := mg]>)) ;;
  ret mg.

(** The loop over the attributes of the class that collects the
    [validates] methods. *)
Definition collect_validators (self : mapper_id) : M unit :=
  me <- get_mapper self ;;
  for_each (sa_validators (class_ me)) (λ name,
    cur <- get_mapper self ;;
    if bool_decide (name ∈ validators cur) then
      raise (new_exn InvalidRequestError
               "A validation function for mapped attribute %r on mapper %s already exists."
               [FmtStr name; FmtMapper self])
    else modify_mapper self (set_validators (λ l, l ++ [name]))).

Definition no_primary_mapper (cls : class_id) : exn :=
  new_exn InvalidRequestError
    "Class %s has no primary mapper configured.  Configure a primary mapper first before setting up a non primary Mapper."
    [FmtClass cls].

(** The branch [if self.non_primary:]. *)
Definition instrument_non_primary (self : mapper_id) (me : Mapper)
    (manager : option ClassManager) : M unit :=
  match manager with
  | Some mg =>
      match mgr_mapper mg with
      | Some primary =>
          modify_mapper self (set_class_manager (λ _, Some (class_ me))) ;;
          modify_mapper self (set_registry (λ _, mgr_registry mg)) ;;
          pm <- get_mapper primary ;;
          ic <- from_option "_identity_class" (_identity_class pm) ;;
          modify_mapper self (set__identity_class (λ _, Some ic)) ;;
          r <- from_option "_add_non_primary_mapper" (mgr_registry mg) ;;
          _add_non_primary_mapper r self
      | None => raise (no_primary_mapper (class_ me))
      end
  | None => raise (no_primary_mapper (class_ me))
  end.

(** The binding of the class to its primary mapper. *)
Definition instrument_primary (self : mapper_id) (me : Mapper)
    (manager : option ClassManager) : M unit :=
  match manager with
  | Some mg =>
      when (is_mapped mg)
        (raise (new_exn ArgumentError "Class '%s' already has a primary mapper defined. "
                  [FmtClass (class_ me)]))
  | None => ret tt
  end ;;
  emit (EvInstrumentClass self) ;;
  mg <- register_class (class_ me) self ;;
  r <- match mgr_registry mg with
       | Some r => ret r
       | None =>
           emit (WarnDeprecated "Calling the mapper() function directly outside of a declarative registry is deprecated. Please use the sqlalchemy.orm.registry.map_imperatively() function for a classical mapping.") ;;
           legacy <- gets _legacy_registry ;;
           match legacy with
           | Some r => _add_manager r (class_ me) ;; ret r
           | None => raise (new_exn AssertionError EmptyString [])
           end
       end ;;
  modify_mapper self (set_class_manager (λ _, Some (class_ me))) ;;
  modify_mapper self (set_registry (λ _, Some r)) ;;
  collect_validators self.

Definition _configure_class_instrumentation (self : mapper_id) : M unit :=
  me <- get_mapper self ;;
  manager <- gets (λ s, managers s !! class_ me) ;;
  if non_primary me then instrument_non_primary self me manager
  else instrument_primary self me manager.

(** ** Property configuration, by its outcome *)

Definition new_property (self : mapper_id) (init : option exn) : M prop_id :=
  p <- gets (λ s, length (properties s)) ;;
  modify (set_properties (λ ps, ps ++ [Build_MapperProperty self false false init])) ;;
  ret p.

Fixpoint install_props (self : mapper_id) (l : list (string * prop_source))
    : M (list (string * prop_id)) :=
  match l with
  | [] => ret []
  | (key, src) :: l' =>
      p <- match src with
           | InheritedProp p => ret p
           | NewProp init => new_property self init
           end ;;
      rest <- install_props self l' ;;
      ret ((key, p) :: rest)
  end.

Definition _configure_properties (self : mapper_id)
    (outcome : exn + PropertiesOutcome) : M unit :=
  modify_mapper self (set__props (λ _, [])) ;;
  modify_mapper self (set__columntoproperty (λ _, [])) ;;
  match outcome with
  | inl e => raise e
  | inr po =>
      props <- install_props self (po_props po) ;;
      modify_mapper self (set__props (λ _, props)) ;;
      modify_mapper self
        (set__columntoproperty
           (λ _, omap (λ '(c, i), (λ kp, (c, kp.2)) <$> props !! i)
                   (po_columntoproperty po)))
  end.

(** ** The discriminator: [Mapper._configure_polymorphic_setter] *)

(** The loop [for mapper in self.iterate_to_root()] that ends at the
    first mapper with a discriminator. *)
Fixpoint find_polymorphic_on (fuel : nat) (ms : list Mapper)
    (m : option mapper_id) : outcome (option Mapper) :=
  match m with
  | None => Returns None
  | Some i =>
      match fuel with
      | 0 => Diverges
      | S fuel' =>
          match ms !! i with
          | None =>
              Raises (new_exn AttributeError "object has no attribute %s"
                        [FmtStr "polymorphic_on"])
          | Some mp =>
              if bool_decide (polymorphic_on mp ≠ None) then Returns (Some mp)
              else find_polymorphic_on fuel' ms (inherits mp)
          end
      end
  end.

Definition assoc_set {B} (k : nat) (v : B) (l : list (nat * B)) : list (nat * B) :=
  if bool_decide (k ∈ l.*1)
  then (λ e, if bool_decide (e.1 = k) then (k, v) else e) <$> l
  else l ++ [(k, v)].

Definition _configure_polymorphic_setter (self : mapper_id)
    (outcome : exn + SetterOutcome) : M unit :=
  me <- get_mapper self ;;
  match polymorphic_on me with
  | Some _ =>
      match outcome with
      | inl e => raise e
      | inr so =>
          match so_new_property so with
          | Some (key, init, cols) =>
              p <- new_property self init ;;
              modify_mapper self (set__props (λ l, l ++ [(key, p)])) ;;
              modify_mapper self
                (set__columntoproperty (λ l, foldl (λ l c, assoc_set c p l) l cols))
          | None => ret tt
          end ;;
          modify_mapper self (set_polymorphic_on (λ _, Some (so_polymorphic_on so)))
      end
  | None =>
      ms <- gets mappers ;;
      found <- lift_outcome (find_polymorphic_on (S (length ms)) ms (Some self)) ;;
      match found with
      | Some mp =>
          if bool_decide (persist_selectable me = persist_selectable mp) then
            modify_mapper self (set_polymorphic_on (λ _, polymorphic_on mp))
          else
            ps <- from_option "corresponding_column" (persist_selectable me) ;;
            modify_mapper self
              (set_polymorphic_on (λ _, polymorphic_on mp ≫= corresponding_column ps))
      | None => ret tt
      end
  end.

(** ** Primary-key derivation: [Mapper._configure_pks] *)

Definition assoc_lookup {B} (k : nat) (l : list (nat * B)) : option B :=
  (λ r, r.2.2) <$> list_find (λ e, e.1 = k) l.

(** [self._columntoproperty[column]], with [_ColumnMapping.__missing__]. *)
Definition columntoproperty_get (self : mapper_id) (me : Mapper) (c : column) : M prop_id :=
  match assoc_lookup c (_columntoproperty me) with
  | Some p => ret p
  | None =>
      raise (new_exn UnmappedColumnError "No column %s is configured on mapper %s..."
               [FmtStr (col_description c); FmtMapper self])
  end.

Fixpoint map_M {A B} (f : A → M B) (l : list A) : M (list B) :=
  match l with
  | [] => ret []
  | x :: l' => y <- f x ;; ys <- map_M f l' ;; ret (y :: ys)
  end.

(** [Mapper._identity_key_props] *)
Definition _identity_key_props (self : mapper_id) : M (list prop_id) :=
  me <- get_mapper self ;;
  match primary_key me with
  | None => raise (new_exn TypeError "'NoneType' object is not iterable" [])
  | Some pk => map_M (columntoproperty_get self me) pk
  end.

(** The primary-key and column sets recorded for one table. *)
Definition record_table (self : mapper_id) (all_cols pk_cols : list column)
    (t : selectable) : M unit :=
  when (bool_decide (sel_primary_key t ≠ [])
        && forallb (λ c, bool_decide (c ∈ pk_cols)) (sel_primary_key t))
    (modify_mapper self
       (set__pks_by_table (<[t := filter (λ c, c ∈ pk_cols) (sel_primary_key t)]>))) ;;
  modify_mapper self
    (set__cols_by_table (<[t := filter (λ c, c ∈ all_cols) (sel_columns t)]>)).

Definition add_primary_key_argument (self : mapper_id) (k : column) : M unit :=
  t <- from_option "table" (col_table k) ;;
  modify_mapper self
    (set__pks_by_table
       (λ d, let old := default [] (d !! t) in
             <[t := if bool_decide (k ∈ old) then old else old ++ [k]]> d)).

(** Python's truth value of [self._primary_key_argument]. *)
Definition has_primary_key_argument (me : Mapper) : bool :=
  match _primary_key_argument me with
  | Some (_ :: _) => true
  | _ => false
  end.

Definition could_not_assemble (self : mapper_id) (ps : selectable) : exn :=
  new_exn ArgumentError
    "Mapper %s could not assemble any primary key columns for mapped table '%s'"
    [FmtMapper self; FmtStr (description ps)].

(** [not hasattr(col, "table") or col.table not in self._cols_by_table] *)
Definition outside_tables (me : Mapper) (c : column) : bool :=
  match col_table c with
  | None => true
  | Some t => bool_decide (_cols_by_table me !! t = None)
  end.

(** The columns the mapper maps, with the columns they proxy, and the
    primary-key columns among them. *)
Definition mapped_columns (me : Mapper) : list column :=
  mjoin (col_proxy_set <$> (_columntoproperty me).*1).

Definition mapped_pk_columns (me : Mapper) : list column :=
  filter (λ c, col_primary_key c = true) (mapped_columns me).

(** Whether the loop below records a primary key for the table [t]: the
    table has one, and the mapper maps all of it. *)
Definition records_primary_key (me : Mapper) (t : selectable) : bool :=
  bool_decide (sel_primary_key t ≠ [])
  && forallb (λ c, bool_decide (c ∈ mapped_pk_columns me)) (sel_primary_key t).

(** The primary-key columns recorded for the table [t]. *)
Definition recorded_primary_key (me : Mapper) (t : selectable) : list column :=
  if records_primary_key me t
  then filter (λ c, c ∈ mapped_pk_columns me) (sel_primary_key t)
  else [].

(** [self.tables], and the loop that fills [_pks_by_table] and
    [_cols_by_table]. *)
Definition record_tables (self : mapper_id) (me : Mapper) (ps : selectable) : M unit :=
  modify_mapper self (set_tables (λ _, find_tables ps)) ;;
  modify_mapper self (set__pks_by_table (λ _, ∅)) ;;
  modify_mapper self (set__cols_by_table (λ _, ∅)) ;;
  for_each (find_tables ps ++ [ps])
    (record_table self (mapped_columns me) (mapped_pk_columns me)).

(** The explicit primary key, or the check that the mapped table got a
    primary key. *)
Definition check_primary_key (self : mapper_id) (me : Mapper) (ps : selectable) : M unit :=
  if has_primary_key_argument me then
    for_each (default [] (_primary_key_argument me)) (add_primary_key_argument self)
  else
    cur <- get_mapper self ;;
    match _pks_by_table cur !! ps with
    | None | Some [] => raise (could_not_assemble self ps)
    | Some (_ :: _) =>
        match local_table cur with
        | Some lt =>
            when (bool_decide (_pks_by_table cur !! lt = None) && is_schema_table lt)
              (warn "Could not assemble any primary keys for locally mapped table '%s' - no rows will be persisted in this Table."
                 [FmtStr (description lt)])
        | None => ret tt
        end
    end.

(** The primary key reduced from the argument or from the keys recorded
    for the persist selectable. *)
Definition reduce_primary_key (self : mapper_id) (cur : Mapper) (ps : selectable) : M unit :=
  let pk :=
    if has_primary_key_argument cur then
      reduce_columns (corresponding_column ps <$> default [] (_primary_key_argument cur))
    else
      reduce_columns (Some <$> default [] (_pks_by_table cur !! ps)) in
  when (bool_decide (pk = [])) (raise (could_not_assemble self ps)) ;;
  modify_mapper self (set_primary_key (λ _, Some pk)).

Definition assign_primary_key (self : mapper_id) (ps : selectable) : M unit :=
  cur <- get_mapper self ;;
  match inherits cur with
  | Some p =>
      if negb (concrete cur) && negb (has_primary_key_argument cur) then
        par <- get_mapper p ;;
        modify_mapper self (set_primary_key (λ _, primary_key par))
      else reduce_primary_key self cur ps
  | None => reduce_primary_key self cur ps
  end.

Definition assign_readonly_props (self : mapper_id) : M unit :=
  cur <- get_mapper self ;;
  match _columntoproperty cur with
  | [] => modify_mapper self (set__readonly_props (λ _, []))
  | _ :: _ =>
      ikp <- _identity_key_props self ;;
      modify_mapper self
        (set__readonly_props
           (λ _, (filter (λ e, (e.2 ∉ ikp) ∧ (outside_tables cur e.1 = true))
                    (_columntoproperty cur)).*2))
  end.

Definition _configure_pks (self : mapper_id) : M unit :=
  me <- get_mapper self ;;
  ps <- from_option "persist_selectable" (persist_selectable me) ;;
  record_tables self me ps ;;
  check_primary_key self me ps ;;
  assign_primary_key self ps ;;
  assign_readonly_props self.

(** ** The registry *)

(** Modelled from the spec: [registry._flag_new_mapper] is not part of
    the sources at hand.  Step 6 of the construction flags the
    descriptor pending in its registry: the descriptor becomes ready for
    configuration and the registry has new mappers. *)
Definition _flag_new_mapper (r : registry_id) (mapper : mapper_id) : M unit :=
  modify_mapper mapper (set__ready_for_configure (λ _, true)) ;;
  modify_registry r (set__new_mappers (λ _, true)).

(** ** The constructor: [Mapper.__init__] *)

Definition initial_mapper (a : MapperArgs) (pm : pmap_id) : Mapper :=
  {| class_ := a_class_ a;
     _primary_key_argument := a_primary_key a;
     non_primary := a_non_primary a;
     version_id_col := a_version_id_col a;
     concrete := a_concrete a;
     single := false;
     inherits := a_inherits a;
     local_table := a_local_table a;
     inherit_condition := a_inherit_condition a;
     inherit_foreign_keys := a_inherit_foreign_keys a;
     batch := a_batch a;
     polymorphic_on := a_polymorphic_on a;
     passive_updates := a_passive_updates a;
     passive_deletes := a_passive_deletes a;
     _requires_row_aliasing := false;
     _inherits_equated_pairs := None;
     with_polymorphic := a_with_polymorphic a;
     polymorphic_load := a_polymorphic_load a;
     polymorphic_identity := a_polymorphic_identity a;
     polymorphic_map := pm;
     before_mapper_configured := a_before_mapper_configured a;
     mapper_configured := a_mapper_configured a;
     _inheriting_mappers := [];
     persist_selectable := None;
     _identity_class := None;
     base_mapper := None;
     class_manager := None;
     registry := None;
     validators := [];
     _props := [];
     _columntoproperty := [];
     tables := [];
     _pks_by_table := ∅;
     _cols_by_table := ∅;
     primary_key := None;
     _readonly_props := [];
     configured := false;
     _ready_for_configure := false;
     _configure_failed := None |}.

(** The new mapper object takes the next identity of the heap; without
    [_polymorphic_map] it gets a polymorphic map of its own. *)
Definition allocate_mapper (a : MapperArgs) : M mapper_id :=
  self <- gets (λ s, length (mappers s)) ;;
  pm <- match a__polymorphic_map a with
        | Some d => ret d
        | None =>
            d <- gets (λ s, length (polymorphic_maps s)) ;;
            modify (set_polymorphic_maps (λ l, l ++ [∅])) ;;
            ret d
        end ;;
  modify (set_mappers (λ ms, ms ++ [initial_mapper a pm])) ;;
  ret self.

(** The steps under [with _CONFIGURE_MUTEX:]. *)
Definition configure_new_mapper (self : mapper_id) (a : MapperArgs) : M unit :=
  _configure_inheritance self ;;
  _configure_class_instrumentation self ;;
  _configure_properties self (a_properties a) ;;
  _configure_polymorphic_setter self (a_polymorphic_setter a) ;;
  _configure_pks self ;;
  me <- get_mapper self ;;
  r <- from_option "registry" (registry me) ;;
  _flag_new_mapper r self ;;
  _expire_memoizations self.

Definition Mapper__init__ (a : MapperArgs) : M mapper_id :=
  self <- allocate_mapper a ;;
  configure_new_mapper self a ;;
  ret self.

(** ** Identity keys *)

(** The triple [(identity class, primary-key values, identity token)]. *)
Definition identity_key : Type := class_id * list pyvalue * option pyvalue.

Fixpoint row_values (row : gmap column pyvalue) (cols : list column)
    : outcome (list pyvalue) :=
  match cols with
  | [] => Returns []
  | c :: cols' =>
      match row !! c with
      | None =>
          Raises (new_exn NoSuchColumnError "Could not locate column in row for column '%s'"
                    [FmtStr (col_description c)])
      | Some v =>
          match row_values row cols' with
          | Returns vs => Returns (v :: vs)
          | r => r
          end
      end
  end.

Definition not_iterable {A} : outcome A :=
  Raises (new_exn TypeError "'NoneType' object is not iterable" []).

Definition no_identity_class {A} : outcome A :=
  Raises (new_exn AttributeError "object has no attribute %s" [FmtStr "_identity_class"]).

(** [if adapter: pk_cols = [adapter.columns[c] for c in pk_cols]] *)
Definition adapt_columns (adapter : option (column → column))
    (pk_cols : option (list column)) : outcome (option (list column)) :=
  match adapter with
  | None => Returns pk_cols
  | Some columns =>
      match pk_cols with
      | None => not_iterable
      | Some cols => Returns (Some (map columns cols))
      end
  end.

(** [Mapper.identity_key_from_row]; the adapter, when given, translates
    the primary-key columns through [adapter.columns]. *)
Definition identity_key_from_row (me : Mapper) (row : gmap column pyvalue)
    (identity_token : option pyvalue) (adapter : option (column → column))
    : outcome identity_key :=
  match adapt_columns adapter (primary_key me) with
  | Returns pk_cols =>
      match _identity_class me with
      | None => no_identity_class
      | Some ic =>
          match pk_cols with
          | None => not_iterable
          | Some cols =>
              match row_values row cols with
              | Returns vs => Returns (ic, vs, identity_token)
              | Raises e => Raises e
              | Diverges => Diverges
              end
          end
      end
  | Raises e => Raises e
  | Diverges => Diverges
  end.

(** [Mapper.identity_key_from_primary_key] *)
Definition identity_key_from_primary_key (me : Mapper) (primary_key : list pyvalue)
    (identity_token : option pyvalue) : outcome identity_key :=
  match _identity_class me with
  | None => no_identity_class
  | Some ic => Returns (ic, primary_key, identity_token)
  end.

(** ** The mapper and its descendants *)

(** [Mapper.self_and_descendants]: the loop over the deque
    [stack = deque([self])], one step of the budget for every
    [stack.popleft()]. *)
Fixpoint self_and_descendants_loop (fuel : nat) (ms : list Mapper)
    (stack descendants : list mapper_id) : outcome (list mapper_id) :=
  match stack with
  | [] => Returns descendants
  | item :: stack' =>
      match fuel with
      | 0 => Diverges
      | S fuel' =>
          match ms !! item with
          | None =>
              Raises (new_exn AttributeError "object has no attribute %s"
                        [FmtStr "_inheriting_mappers"])
          | Some mp =>
              self_and_descendants_loop fuel' ms
                (stack' ++ _inheriting_mappers mp) (descendants ++ [item])
          end
      end
  end.

(** The number of mappers met by walking down the [_inheriting_mappers]
    lists from [m], to the given depth.  On a hierarchy in which every
    mapper was created after the mapper it inherits from, depth
    [length ms] reaches every descendant, and the walk above pops that
    many items. *)
Fixpoint hierarchy_size (depth : nat) (ms : list Mapper) (m : mapper_id) : nat :=
  match depth with
  | 0 => 0
  | S depth' =>
      match ms !! m with
      | None => 1
      | Some mp => S (sum_list (hierarchy_size depth' ms <$> _inheriting_mappers mp))
      end
  end.

Definition self_and_descendants (ms : list Mapper) (self : mapper_id)
    : outcome (list mapper_id) :=
  self_and_descendants_loop (hierarchy_size (S (length ms)) ms self) ms [self] [].

(** A mapper of the hierarchy below [m]: [m] itself, or a mapper in the
    [_inheriting_mappers] of one. *)
Inductive descends (ms : list Mapper) : mapper_id → mapper_id → Prop :=
| descends_self m : descends ms m m
| descends_step m mp c d :
    ms !! m = Some mp →
    c ∈ _inheriting_mappers mp →
    descends ms c d →
    descends ms m d.

(** Every mapper was appended to the [_inheriting_mappers] of a mapper
    that existed before it. *)
Definition wf_hierarchy (ms : list Mapper) : Prop :=
  ∀ m mp, ms !! m = Some mp →
    Forall (λ c, m < c < length ms) (_inheriting_mappers mp).

(** ** The single-table criterion *)




(** ** The configuration pass *)

(** Modelled from the spec: [MapperProperty.init] and
    [post_instrument_class] are not part of the sources at hand.  A
    property is initialized in phase 2 exactly once: the initialization
    is marked as started, the property does its own initialization, and
    is marked as finished when that returns. *)
Definition prop_init (self : mapper_id) (key : string) (p : prop_id) : M unit :=
  emit (EvPropInit self key) ;;
  modify_property p (set__configure_started (λ _, true)) ;;
  pr <- get_property p ;;
  match do_init pr with
  | Some e => raise e
  | None => modify_property p (set__configure_finished (λ _, true))
  end.

(** [Mapper._post_configure_properties] *)
Definition _post_configure_properties (self : mapper_id) : M unit :=
  me <- get_mapper self ;;
  for_each (_props me) (λ kp,
    pr <- get_property kp.2 ;;
    when (bool_decide (parent pr = self) && negb (_configure_started pr))
      (prop_init self kp.1 kp.2) ;;
    pr <- get_property kp.2 ;;
    when (_configure_finished pr) (emit (EvPostInstrumentClass self kp.1))) ;;
  modify_mapper self (set_configured (λ _, true)).

(** The loop over [mapper.dispatch.before_mapper_configured]; the result
    tells whether [run_configure is EXT_SKIP]. *)
Fixpoint run_before_mapper_configured (mapper : mapper_id) (i : nat)
    (hooks : list hook_fn) : M bool :=
  match hooks with
  | [] => ret false
  | fn :: hooks' =>
      emit (EvBeforeMapperConfigured mapper i) ;;
      match fn with
      | HookRaises e => raise e
      | HookReturns true => ret true
      | HookReturns false => run_before_mapper_configured mapper (S i) hooks'
      end
  end.

(** [mapper.dispatch.mapper_configured(mapper, mapper.class_)] *)
Definition dispatch_mapper_configured (mapper : mapper_id) : M unit :=
  mp <- get_mapper mapper ;;
  emit (EvMapperConfigured mapper) ;;
  for_each (mapper_configured mp) (λ listener,
    match listener with
    | Some e => raise e
    | None => ret tt
    end).

Definition failed_to_initialize (mapper : mapper_id) (original : exn) : exn :=
  Exn InvalidRequestError
    "One or more mappers failed to initialize - can't proceed with initialization of other mappers. Triggering mapper: '%s'. Original exception was: %s"
    [FmtMapper mapper; FmtExn original] None (Some original).

(** The body of the [try] in [_do_configure_registries]. *)
Definition finish_initialization (mapper : mapper_id) : M unit :=
  _post_configure_properties mapper ;;
  _expire_memoizations mapper ;;
  dispatch_mapper_configured mapper.

(** Its [except Exception] clause. *)
Definition mark_failed (mapper : mapper_id) (exc : exn) : M unit :=
  when (bool_decide (exn_configure_failed exc = None))
    (modify_mapper mapper (set__configure_failed (λ _, Some exc))) ;;
  raise exc.

(** The body of the loop over the mappers of a registry in
    [_do_configure_registries]; the result is [True] when a hook asked
    to skip the mapper. *)
Definition configure_mapper (mapper : mapper_id) : M bool :=
  mp <- get_mapper mapper ;;
  skip <- run_before_mapper_configured mapper 0 (before_mapper_configured mp) ;;
  if skip : bool then ret true
  else
    mp <- get_mapper mapper ;;
    match _configure_failed mp with
    | Some original => raise (failed_to_initialize mapper original)
    | None =>
        when (negb (configured mp))
          (try_except (finish_initialization mapper) (mark_failed mapper)) ;;
        ret false
    end.

(** Modelled from the spec: the filter of [registry._mappers_to_configure],
    which is not part of the sources at hand.  A descriptor is pending
    when it was flagged ready and is not configured yet. *)
Definition is_pending (mapper : mapper_id) : M bool :=
  mp <- get_mapper mapper ;;
  ret (negb (configured mp) && _ready_for_configure mp).

(** The loop [for mapper in reg._mappers_to_configure():], over the
    mappers that are pending when the loop reaches them. *)
Fixpoint configure_pending (mappers_of_registry : list mapper_id) (has_skip : bool)
    : M bool :=
  match mappers_of_registry with
  | [] => ret has_skip
  | mapper :: rest =>
      pending <- is_pending mapper ;;
      if pending : bool then
        skip <- configure_mapper mapper ;;
        configure_pending rest (has_skip || skip)
      else configure_pending rest has_skip
  end.

(** Modelled from the spec: [registry._mappers_to_configure] is not part
    of the sources at hand.  The registry enumerates its descriptors:
    the primary mapper of each of its classes, then its secondary
    mappers. *)
Definition _mappers_to_configure (reg : registry_id) : M (list mapper_id) :=
  r <- get_registry reg ;;
  mgrs <- gets managers ;;
  ret (omap (λ c, mgrs !! c ≫= mgr_mapper) (_managers r) ++ _non_primary_mappers r).

(** Modelled from the spec: [registry._recurse_with_dependencies] is not
    part of the sources at hand.  The registries are taken in
    dependency order, a registry after the registries it depends on;
    a registry on a dependency cycle is taken once. *)
Fixpoint visit_registry (fuel : nat) (rs : list Registry) (r : registry_id)
    (st : list registry_id * list registry_id) : list registry_id * list registry_id :=
  if bool_decide (r ∈ st.1) then st
  else
    match fuel with
    | 0 => (r :: st.1, st.2 ++ [r])
    | S fuel' =>
        let deps := default [] (_dependencies <$> rs !! r) in
        let st' := foldl (λ st d, visit_registry fuel' rs d st) (r :: st.1, st.2) deps in
        (st'.1, st'.2 ++ [r])
    end.

Definition _recurse_with_dependencies (rs : list Registry)
    (registries : list registry_id) : list registry_id :=
  (foldl (λ st r, visit_registry (S (length rs)) rs r st) ([], []) registries).2.

(** The body of the loop over the registries in
    [_do_configure_registries]. *)
Definition configure_registry (orig : list registry_id) (cascade : bool)
    (reg : registry_id) : M unit :=
  pending <- _mappers_to_configure reg ;;
  has_skip <- configure_pending pending false ;;
  when (negb has_skip) (modify_registry reg (set__new_mappers (λ _, false))) ;;
  r <- get_registry reg ;;
  when (negb cascade && bool_decide (Exists (λ d, d ∉ orig) (_dependencies r)))
    (raise (new_exn InvalidRequestError
              "configure was called with cascade=False but additional registries remain" [])).

Definition registry_heap : M (list Registry) := gets registries.

Definition _do_configure_registries (registries : list registry_id)
    (cascade : bool) : M unit :=
  rs <- registry_heap ;;
  for_each (_recurse_with_dependencies rs registries)
    (configure_registry registries cascade).

(** [for reg in registries: if reg._new_mappers: break] *)
Fixpoint any_new_mappers (registries : list registry_id) : M bool :=
  match registries with
  | [] => ret false
  | reg :: rest =>
      r <- get_registry reg ;;
      if _new_mappers r then ret true else any_new_mappers rest
  end.

(** [_configure_registries]; the body of the [try] tells whether it ran
    to its end or returned from the second check. *)
Definition _configure_registries (registries : list registry_id)
    (cascade : bool) : M unit :=
  found <- any_new_mappers registries ;;
  if negb found then ret tt
  else
    (* with _CONFIGURE_MUTEX: *)
    compiling <- gets _already_compiling ;;
    if compiling : bool then ret tt
    else
      modify (set__already_compiling (λ _, true)) ;;
      completed <- try_finally
        (found <- any_new_mappers registries ;;
         if negb found then ret false
         else
           emit EvBeforeConfigured ;;
           _do_configure_registries registries cascade ;;
           ret true)
        (modify (set__already_compiling (λ _, false))) ;;
      when completed (emit EvAfterConfigured).


(** [Mapper._check_configure] *)
Definition _check_configure (self : mapper_id) : M unit :=
  me <- get_mapper self ;;
  reg <- from_option "registry" (registry me) ;;
  r <- get_registry reg ;;
  when (_new_mappers r) (_configure_registries [reg] true).


(** ** Relations between mappers *)

(** [Mapper.isa]: [m = self; while m and m is not other: m = m.inherits;
    return bool(m)], on the budget of [iterate_to_root]. *)
Fixpoint isa_loop (fuel : nat) (ms : list Mapper) (m : option mapper_id)
    (other : mapper_id) : outcome bool :=
  match m with
  | None => Returns false
  | Some i =>
      if bool_decide (i = other) then Returns true
      else
        match fuel with
        | 0 => Diverges
        | S fuel' =>
            match ms !! i with
            | None =>
                Raises (new_exn AttributeError "object has no attribute %s"
                          [FmtStr "inherits"])
            | Some mp => isa_loop fuel' ms (inherits mp) other
            end
        end
  end.

Definition isa (ms : list Mapper) (self other : mapper_id) : outcome bool :=
  isa_loop (S (length ms)) ms (Some self) other.

(** [Mapper.common_parent]: [self.base_mapper is other.base_mapper] *)
Definition common_parent (ms : list Mapper) (self other : mapper_id) : outcome bool :=
  match ms !! self, ms !! other with
  | Some me, Some mo => Returns (bool_decide (base_mapper me = base_mapper mo))
  | _, _ =>
      Raises (new_exn AttributeError "object has no attribute %s" [FmtStr "base_mapper"])
  end.

(** [Mapper.is_sibling]: [self.base_mapper is other.base_mapper and not
    self.isa(other) and not other.isa(self)] *)
Definition is_sibling (ms : list Mapper) (self other : mapper_id) : outcome bool :=
  match common_parent ms self other with
  | Returns true =>
      match isa ms self other with
      | Returns false =>
          match isa ms other self with
          | Returns b => Returns (negb b)
          | r => r
          end
      | Returns true => Returns false
      | r => r
      end
  | r => r
  end.

(** [Mapper.primary_mapper]: [self.class_manager.mapper] *)
Definition primary_mapper (self : mapper_id) : M mapper_id :=
  me <- get_mapper self ;;
  cls <- from_option "class_manager" (class_manager me) ;;
  mgrs <- gets managers ;;
  mg <- from_option "mapper" (mgrs !! cls) ;;
  from_option "mapper" (mgr_mapper mg).

(** [Mapper.primary_base_mapper]: [self.class_manager.mapper.base_mapper] *)
Definition primary_base_mapper (self : mapper_id) : M (option mapper_id) :=
  primary <- primary_mapper self ;;
  pm <- get_mapper primary ;;
  ret (base_mapper pm).

(** [Mapper._canload], for the mapper of the state: [s =
    self.primary_mapper()], then [isa(s)] when the mapper is polymorphic
    or subtypes are allowed, and identity with [s] otherwise. *)
Definition _canload (self state_mapper : mapper_id) (allow_subtypes : bool) : M bool :=
  s <- primary_mapper self ;;
  me <- get_mapper self ;;
  if bool_decide (polymorphic_on me ≠ None) || allow_subtypes then
    ms <- gets mappers ;;
    lift_outcome (isa ms state_mapper s)
  else ret (bool_decide (state_mapper = s)).

(** The loop of [Mapper._result_has_identity_key]:
    [for col in pk_cols: if col not in rk: return False] and its [else:
    return True]. *)
Fixpoint all_in_keys (rk : gset column) (pk_cols : list column) : bool :=
  match pk_cols with
  | [] => true
  | col :: pk_cols' =>
      if bool_decide (col ∉ rk) then false else all_in_keys rk pk_cols'
  end.

(** [Mapper._result_has_identity_key]; [rk] is [result.keys()]. *)
Definition _result_has_identity_key (me : Mapper) (rk : gset column)
    (adapter : option (column → column)) : outcome bool :=
  match adapt_columns adapter (primary_key me) with
  | Returns (Some pk_cols) => Returns (all_in_keys rk pk_cols)
  | Returns None => not_iterable
  | Raises e => Raises e
  | Diverges => Diverges
  end.

(** [Mapper.has_property]: [key in self._props] *)
Definition has_property (me : Mapper) (key : string) : bool :=
  bool_decide (key ∈ (_props me).*1).

(** [Mapper.get_property]: the configuration pass when asked for, then
    [self._props[key]] with its [KeyError] turned into an
    [InvalidRequestError]. *)
Definition Mapper_get_property (self : mapper_id) (key : string)
    (_configure_mappers : bool) : M prop_id :=
  when _configure_mappers (_check_configure self) ;;
  me <- get_mapper self ;;
  match list_find (λ kp, kp.1 = key) (_props me) with
  | Some (_, kp) => ret kp.2
  | None =>
      raise (Exn InvalidRequestError "Mapper '%s' has no property '%s'"
               [FmtMapper self; FmtStr key]
               (Some (new_exn (OtherError "KeyError") "%r" [FmtStr key])) None)
  end.

(** [Mapper.get_property_by_column]: [self._columntoproperty[column]] *)
Definition get_property_by_column (self : mapper_id) (c : column) : M prop_id :=
  me <- get_mapper self ;;
  columntoproperty_get self me c.

(** [Mapper._acceptable_polymorphic_identities]: the walk of
    [self_and_descendants] that goes below the mappers on the
    selectable of [self] only; the identities are collected in a set. *)
Fixpoint acceptable_identities_loop (fuel : nat) (ms : list Mapper)
    (ps : option selectable) (stack : list mapper_id)
    (identities : list (option string)) : outcome (list (option string)) :=
  match stack with
  | [] => Returns identities
  | item :: stack' =>
      match fuel with
      | 0 => Diverges
      | S fuel' =>
          match ms !! item with
          | None =>
              Raises (new_exn AttributeError "object has no attribute %s"
                        [FmtStr "persist_selectable"])
          | Some mp =>
              if bool_decide (persist_selectable mp = ps) then
                acceptable_identities_loop fuel' ms ps
                  (stack' ++ _inheriting_mappers mp)
                  (if bool_decide (polymorphic_identity mp ∈ identities)
                   then identities else identities ++ [polymorphic_identity mp])
              else acceptable_identities_loop fuel' ms ps stack' identities
          end
      end
  end.

Definition _acceptable_polymorphic_identities (ms : list Mapper) (self : mapper_id)
    : outcome (list (option string)) :=
  match ms !! self with
  | None =>
      Raises (new_exn AttributeError "object has no attribute %s"
                [FmtStr "persist_selectable"])
  | Some me =>
      acceptable_identities_loop (hierarchy_size (S (length ms)) ms self) ms
        (persist_selectable me) [self] []
  end.

End mapper.

(** ** Predicates on the store

    The invariants and events the statements below are phrased with. *)

(** An invariant of the store that a computation keeps, however it
    ends. *)
Definition preserves {A} (I : St → Prop) (c : M A) : Prop :=
  ∀ s, I s → I (c s).2.

(** The field [proj] of the mapper [j] holds [v]. *)
Definition field_is {T} (proj : Mapper → T) (j : mapper_id) (v : T) (s : St) : Prop :=
  proj <$> mappers s !! j = Some v.

(** The flag [_new_mappers] of the registry [reg], when there is such a
    registry. *)
Definition new_mappers_flag (s : St) (reg : registry_id) : option bool :=
  _new_mappers <$> registries s !! reg.

(** The warning of the inheriting branch of [_configure_inheritance]
    when the identity is taken already. *)
Definition reassigning (ident : string) (old new : mapper_id) : event :=
  Warn "Reassigning polymorphic association for identity %r from %r to %r: Check for duplicate use of %r as value for polymorphic_identity."
    [FmtStr ident; FmtMapper old; FmtMapper new; FmtStr ident].

(** The traversal of the registries: every registry that was entered
    is in the output or satisfies [P]; and a traversal only grows what
    it was given. *)
Definition visited_inv (P : registry_id → Prop)
    (st : list registry_id * list registry_id) : Prop :=
  ∀ x, x ∈ st.1 → x ∈ st.2 ∨ P x.

Definition visited_le (st st' : list registry_id * list registry_id) : Prop :=
  (∀ x, x ∈ st.1 → x ∈ st'.1) ∧ (∀ x, x ∈ st.2 → x ∈ st'.2).

(** No [before_mapper_configured] hook of the store returns
    [EXT_SKIP]. *)
Definition never_skips (s : St) : Prop :=
  Forall (Forall (λ h, h ≠ HookReturns true)) (before_mapper_configured <$> mappers s).

(** Every mapper inherits from a mapper that was created before it. *)
Definition wf_inherits (ms : list Mapper) : Prop :=
  ∀ m mp p, ms !! m = Some mp → inherits mp = Some p → p < m.

(** A mapper listed in the [_inheriting_mappers] of another inherits
    from it. *)
Definition children_inherit (ms : list Mapper) : Prop :=
  ∀ p mp c, ms !! p = Some mp → c ∈ _inheriting_mappers mp →
    ∃ mc, ms !! c = Some mc ∧ inherits mc = Some p.

(** [m] is [o] or inherits from it, through any number of mappers. *)
Inductive inherits_from (ms : list Mapper) : mapper_id → mapper_id → Prop :=
| inherits_from_self m : inherits_from ms m m
| inherits_from_step m mp p o :
    ms !! m = Some mp →
    inherits mp = Some p →
    inherits_from ms p o →
    inherits_from ms m o.

(** The two conditions above, on the links alone: for every mapper the
    mapper it inherits from and the list of its inheriting mappers. *)
Definition wf_links (l : list (option mapper_id * list mapper_id)) : Prop :=
  (∀ m e p, l !! m = Some e → e.1 = Some p → p < m)
  ∧ (∀ p e c, l !! p = Some e → c ∈ e.2 → ∃ ec, l !! c = Some ec ∧ ec.1 = Some p).

(** A mapper of the hierarchy below [m] that is reached through mappers
    on the selectable [ps] only, itself included. *)
Inductive descends_on (ms : list Mapper) (ps : option selectable)
    : mapper_id → mapper_id → Prop :=
| descends_on_self m mp :
    ms !! m = Some mp →
    persist_selectable mp = ps →
    descends_on ms ps m m
| descends_on_step m mp c d :
    ms !! m = Some mp →
    persist_selectable mp = ps →
    c ∈ _inheriting_mappers mp →
    descends_on ms ps c d →
    descends_on ms ps m d.

(** ** A small schema and class hierarchy

    The employee/manager mapping used for the examples: the tables
    [employee(id, discriminator)], [manager(id -> employee.id, name)],
    [badge(id)] without a foreign key, [assistant(id, a -> employee.id,
    b -> employee.id)] with two, and [audit(entry)] without a primary
    key; the classes [Employee], [Manager] and [Assistant] below it, and
    the unrelated [Badge]. *)

Module Schema.

Definition employee : selectable := 0.
Definition manager : selectable := 1.
Definition badge : selectable := 2.
Definition assistant : selectable := 3.
Definition audit : selectable := 4.

Definition employee_id : column := 0.
Definition employee_discriminator : column := 1.
Definition manager_id : column := 10.
Definition manager_name : column := 11.
Definition badge_id : column := 20.
Definition assistant_id : column := 30.
Definition audit_entry : column := 40.

(** the on-clauses the foreign keys give *)
Definition manager_fk : clause := 7.
Definition assistant_fk_a : clause := 8.
Definition assistant_fk_b : clause := 9.

Definition join_of (l r : selectable) (on : clause) : selectable :=
  1000 + 100 * l + 10 * r + on.

Definition employee_manager : selectable := join_of employee manager manager_fk.

Definition sql : SqlLayer := {|
  sql_join := join_of;
  fk_join_candidates a b :=
    if bool_decide (a = employee ∧ b = manager) then [manager_fk]
    else if bool_decide (a = employee ∧ b = assistant)
         then [assistant_fk_a; assistant_fk_b]
         else [];
  criterion_as_pairs on _ :=
    if bool_decide (on = manager_fk) then [(employee_id, manager_id)] else [];
  find_tables t :=
    if bool_decide (t = employee_manager) then [employee; manager] else [t];
  sel_primary_key t :=
    if bool_decide (t = employee) then [employee_id]
    else if bool_decide (t = manager) then [manager_id]
    else if bool_decide (t = badge) then [badge_id]
    else if bool_decide (t = assistant) then [assistant_id]
    else if bool_decide (t = employee_manager) then [employee_id]
    else [];
  sel_columns t :=
    if bool_decide (t = employee) then [employee_id; employee_discriminator]
    else if bool_decide (t = manager) then [manager_id; manager_name]
    else if bool_decide (t = badge) then [badge_id]
    else if bool_decide (t = assistant) then [assistant_id]
    else if bool_decide (t = audit) then [audit_entry]
    else if bool_decide (t = employee_manager)
         then [employee_id; employee_discriminator; manager_id; manager_name]
         else [];
  corresponding_column t c := if bool_decide (c `div` 10 = t) then Some c else None;
  is_schema_table t := bool_decide (t < 1000);
  description t :=
    if bool_decide (t = employee) then "employee"
    else if bool_decide (t = manager) then "manager"
    else if bool_decide (t = badge) then "badge"
    else if bool_decide (t = assistant) then "assistant"
    else if bool_decide (t = audit) then "audit"
    else "join";
  col_proxy_set c := [c];
  col_primary_key c := bool_decide (c `mod` 10 = 0 ∧ c ≠ audit_entry);
  col_table c := Some (c `div` 10);
  col_description c := "column";
  reduce_columns l := omap id l;
|}.

Definition Employee : class_id := 0.
Definition Manager : class_id := 1.
Definition Badge : class_id := 2.
Definition Assistant : class_id := 3.

Definition runtime : ClassRuntime := {|
  issubclass c d :=
    bool_decide (c = d) || (bool_decide (d = Employee)
                            && (bool_decide (c = Manager) || bool_decide (c = Assistant)));
  class_name c :=
    if bool_decide (c = Employee) then "Employee"
    else if bool_decide (c = Manager) then "Manager"
    else if bool_decide (c = Badge) then "Badge"
    else "Assistant";
  sa_validators _ := [];
|}.

(** One registry; the four classes have their managers in it, as the
    declarative layer leaves them, and nothing is mapped yet. *)
Definition unmapped : ClassManager := Build_ClassManager None (Some 0).

Definition empty_store : St := {|
  mappers := [];
  properties := [];
  polymorphic_maps := [];
  managers := <[Employee := unmapped]> (<[Manager := unmapped]>
                (<[Badge := unmapped]> (<[Assistant := unmapped]> ∅)));
  registries := [Build_Registry false [Employee; Manager; Badge; Assistant] [] []];
  _legacy_registry := None;
  _already_compiling := false;
  log := [];
|}.

(** A construction with the defaults of [Mapper.__init__]. *)
Definition mapper_args (cls : class_id) (table : option selectable)
    (cols : list (string * column)) : MapperArgs := {|
  a_class_ := cls;
  a_local_table := table;
  a_primary_key := None;
  a_non_primary := false;
  a_inherits := None;
  a_inherit_condition := None;
  a_inherit_foreign_keys := [];
  a_version_id_col := None;
  a_polymorphic_on := None;
  a__polymorphic_map := None;
  a_polymorphic_identity := None;
  a_concrete := false;
  a_with_polymorphic := None;
  a_polymorphic_load := None;
  a_batch := true;
  a_passive_updates := true;
  a_passive_deletes := false;
  a_before_mapper_configured := [];
  a_mapper_configured := [];
  a_properties :=
    inr (Build_PropertiesOutcome
           ((λ kc, (kc.1, NewProp None)) <$> cols)
           (imap (λ i kc, (kc.2, i)) cols));
  a_polymorphic_setter := inl (new_exn AssertionError EmptyString []);
|}.


Definition MapperArgs_eta (a : MapperArgs) : MapperArgs :=
  Build_MapperArgs (a_class_ a) (a_local_table a) (a_primary_key a)
    (a_non_primary a) (a_inherits a) (a_inherit_condition a)
    (a_inherit_foreign_keys a) (a_version_id_col a) (a_polymorphic_on a)
    (a__polymorphic_map a) (a_polymorphic_identity a) (a_concrete a)
    (a_with_polymorphic a) (a_polymorphic_load a) (a_batch a)
    (a_passive_updates a) (a_passive_deletes a) (a_before_mapper_configured a)
    (a_mapper_configured a) (a_properties a) (a_polymorphic_setter a).

Definition with_non_primary : (bool → bool) → MapperArgs → MapperArgs :=
  ltac:(make_setter a_non_primary MapperArgs_eta).
Definition with_inherits : (option mapper_id → option mapper_id) → MapperArgs → MapperArgs :=
  ltac:(make_setter a_inherits MapperArgs_eta).
Definition with_polymorphic_on : (option column → option column) → MapperArgs → MapperArgs :=
  ltac:(make_setter a_polymorphic_on MapperArgs_eta).
Definition with__polymorphic_map : (option pmap_id → option pmap_id) → MapperArgs → MapperArgs :=
  ltac:(make_setter a__polymorphic_map MapperArgs_eta).
Definition with_polymorphic_identity : (option string → option string) → MapperArgs → MapperArgs :=
  ltac:(make_setter a_polymorphic_identity MapperArgs_eta).
Definition with_before_mapper_configured :
  (list hook_fn → list hook_fn) → MapperArgs → MapperArgs :=
  ltac:(make_setter a_before_mapper_configured MapperArgs_eta).
Definition with_properties :
  (exn + PropertiesOutcome → exn + PropertiesOutcome) → MapperArgs → MapperArgs :=
  ltac:(make_setter a_properties MapperArgs_eta).
Definition with_polymorphic_setter :
  (exn + SetterOutcome → exn + SetterOutcome) → MapperArgs → MapperArgs :=
  ltac:(make_setter a_polymorphic_setter MapperArgs_eta).

#[local] Existing Instance sql.
#[local] Existing Instance runtime.

Definition construct (a : MapperArgs) (s : St) : outcome mapper_id * St :=
  Mapper__init__ a s.

(** [Employee] on [employee], with the discriminator and the identity
    ["employee"]: mapper 0. *)
Definition employee_args : MapperArgs :=
  with_polymorphic_setter
    (λ _, inr (Build_SetterOutcome employee_discriminator None))
    (with_polymorphic_on (λ _, Some employee_discriminator)
       (with_polymorphic_identity (λ _, Some "employee")
          (mapper_args Employee (Some employee)
             [("id", employee_id); ("discriminator", employee_discriminator)]))).

Definition with_employee : St := (construct employee_args empty_store).2.

(** The properties a mapper below [Employee] takes over from it. *)
Definition inherited_properties (own : list (string * prop_source))
    (cols : list (column * nat)) : exn + PropertiesOutcome :=
  inr (Build_PropertiesOutcome
         ([("id", InheritedProp 0); ("discriminator", InheritedProp 1)] ++ own)
         ([(employee_id, 0); (employee_discriminator, 1)] ++ cols)).

(** [Manager] below mapper 0 with the identity ["manager"]: on its own
    table (joined-table inheritance), or without a table (single-table
    inheritance). *)
Definition manager_joined_args : MapperArgs :=
  with_properties
    (λ _, inherited_properties [("name", NewProp None)]
            [(manager_id, 0); (manager_name, 2)])
    (with_inherits (λ _, Some 0)
       (with_polymorphic_identity (λ _, Some "manager")
          (mapper_args Manager (Some manager) []))).

Definition manager_single_args : MapperArgs :=
  with_properties (λ _, inherited_properties [] [])
    (with_inherits (λ _, Some 0)
       (with_polymorphic_identity (λ _, Some "manager")
          (mapper_args Manager None []))).

(** [Manager] below mapper 0 on a table without a foreign key to
    [employee], and [Assistant] on the table with two. *)
Definition manager_on_badge_args : MapperArgs :=
  with_inherits (λ _, Some 0) (mapper_args Manager (Some badge) [("id", badge_id)]).

Definition assistant_args : MapperArgs :=
  with_inherits (λ _, Some 0)
    (mapper_args Assistant (Some assistant) [("id", assistant_id)]).

(** [Badge] on its table, and on the table without a primary key. *)
Definition badge_args : MapperArgs :=
  mapper_args Badge (Some badge) [("id", badge_id)].

Definition badge_on_audit_args : MapperArgs :=
  mapper_args Badge (Some audit) [("entry", audit_entry)].


Definition with_manager_joined : St := (construct manager_joined_args with_employee).2.
Definition with_manager_single : St := (construct manager_single_args with_employee).2.

(** A second mapper below mapper 0 that takes the identity ["manager"]
    again, for [Assistant] and without a table. *)
Definition second_manager_args : MapperArgs :=
  with_properties (λ _, inherited_properties [] [])
    (with_inherits (λ _, Some 0)
       (with_polymorphic_identity (λ _, Some "manager")
          (mapper_args Assistant None []))).

(** A mapper without a parent that is handed the polymorphic map of
    mapper 0 and takes the identity ["employee"] again. *)
Definition badge_sharing_map_args : MapperArgs :=
  with__polymorphic_map (λ _, Some 0)
    (with_polymorphic_identity (λ _, Some "employee") badge_args).




(** The store after a configuration pass over [with_employee]. *)
Definition employee_configured : St := (_configure_registries [0] true with_employee).2.

(** [Manager] mapped on its own, without a parent (mapper 1); then
    secondary mappers for [Employee] (mapper 2) and, below it, for
    [Manager] with the identity ["manager"] (mapper 3). *)
Definition manager_alone_args : MapperArgs :=
  mapper_args Manager (Some manager) [("id", manager_id); ("name", manager_name)].

Definition secondary_employee_args : MapperArgs :=
  with_non_primary (λ _, true) employee_args.

Definition secondary_manager_args : MapperArgs :=
  with_non_primary (λ _, true)
    (with_properties
       (λ _, inr (Build_PropertiesOutcome
                    [("id", InheritedProp 4); ("discriminator", InheritedProp 5)]
                    [(employee_id, 0); (employee_discriminator, 1)]))
       (with_inherits (λ _, Some 2)
          (with_polymorphic_identity (λ _, Some "manager")
             (mapper_args Manager None [])))).

Definition with_secondary_employee : St :=
  (construct secondary_employee_args
     (construct manager_alone_args with_employee).2).2.

(** The store in which [_configure_pks] runs for [Badge] on the table
    without a primary key (mapper 1). *)
Definition before_configure_pks : St :=
  let a := badge_on_audit_args in
  let s0 := (allocate_mapper a with_employee).2 in
  let s1 := (_configure_inheritance 1 s0).2 in
  let s2 := (_configure_class_instrumentation 1 s1).2 in
  let s3 := (_configure_properties 1 (a_properties a) s2).2 in
  (_configure_polymorphic_setter 1 (a_polymorphic_setter a) s3).2.

(** The mapper a store holds under an identity. *)
Definition mapper_at (s : St) (m : mapper_id) : Mapper :=
  default (initial_mapper badge_args 0) (mappers s !! m).


Definition with_concrete : (bool → bool) → MapperArgs → MapperArgs :=
  ltac:(make_setter a_concrete MapperArgs_eta).
Definition with_inherit_condition : (option clause → option clause) → MapperArgs → MapperArgs :=
  ltac:(make_setter a_inherit_condition MapperArgs_eta).
Definition with_polymorphic_load : (option string → option string) → MapperArgs → MapperArgs :=
  ltac:(make_setter a_polymorphic_load MapperArgs_eta).

(** Mappers 1 and 2 below mapper 0, both without a table. *)
Definition with_two_children : St := (construct second_manager_args with_manager_single).2.

(** [Badge] is no subclass of [Employee]. *)
Definition badge_inheriting_args : MapperArgs :=
  with_inherits (λ _, Some 0) badge_args.

(** A secondary mapper for [Manager] below the primary mapper 0, and a
    secondary mapper for the unmapped [Badge]. *)
Definition secondary_below_primary_args : MapperArgs :=
  with_non_primary (λ _, true) manager_single_args.

Definition secondary_badge_args : MapperArgs :=
  with_non_primary (λ _, true) badge_args.


(** [Badge] with a hook that returns normally and one that asks to skip
    the mapper. *)
Definition badge_deferred_args : MapperArgs :=
  with_before_mapper_configured (λ _, [HookReturns false; HookReturns true]) badge_args.

Definition with_deferred_badge : St := (construct badge_deferred_args with_employee).2.

(** [Manager] below mapper 0 on its own table: as a concrete mapper, with
    the inherit condition given, and on the parent's table with
    ["inline"] loading. *)
Definition manager_concrete_args : MapperArgs :=
  with_concrete (λ _, true)
    (with_inherits (λ _, Some 0)
       (with_polymorphic_identity (λ _, Some "manager")
          (mapper_args Manager (Some manager)
             [("id", manager_id); ("name", manager_name)]))).

Definition manager_explicit_args : MapperArgs :=
  with_inherit_condition (λ _, Some manager_fk) manager_joined_args.

Definition manager_inline_args : MapperArgs :=
  with_polymorphic_load (λ _, Some "inline") manager_single_args.

(** A store in which a pass is under way. *)
Definition pass_under_way : St := set__already_compiling (λ _, true) with_employee.

End Schema.

(** * Properties *)

Section proofs.
Context `{!SqlLayer, !ClassRuntime}.

(** ** Identity keys *)

Lemma identity_key_from_row_returns (me : Mapper) row token adapter cols vals ic :
  adapt_columns adapter (primary_key me) = Returns (Some cols) →
  row_values row cols = Returns vals →
  _identity_class me = Some ic →
  identity_key_from_row me row token adapter = Returns (ic, vals, token).
Proof.
  intros Hcols Hvals Hic. unfold identity_key_from_row.
  by rewrite Hcols, Hic, Hvals.
Qed.

(** C6.  For every mapper and identity token, [identity_key_from_row] on
    a row that holds the (adapted) primary-key columns and
    [identity_key_from_primary_key] on the values the row holds at these
    columns give the same result: the same identity-key triple when the
    mapper has its identity class, which it has once
    [_configure_inheritance] has run, and the same [AttributeError]
    otherwise. *)
Theorem identity_key_round_trip (me : Mapper) (row : gmap column pyvalue)
    (token : option pyvalue) (adapter : option (column → column))
    (cols : list column) (vals : list pyvalue) :
  adapt_columns adapter (primary_key me) = Returns (Some cols) →
  row_values row cols = Returns vals →
  identity_key_from_row me row token adapter
    = identity_key_from_primary_key me vals token
  ∧ (∀ ic, _identity_class me = Some ic →
       identity_key_from_row me row token adapter = Returns (ic, vals, token)).
Proof.
  intros Hcols Hvals. split.
  - unfold identity_key_from_row, identity_key_from_primary_key.
    rewrite Hcols. destruct (_identity_class me); [|done]. by rewrite Hvals.
  - intros ic Hic. by eapply identity_key_from_row_returns.
Qed.


(** ** The mapper and its descendants *)

Lemma sum_list_cons (x : nat) (l : list nat) : sum_list (x :: l) = x + sum_list l.
Proof. reflexivity. Qed.

Lemma hierarchy_size_S depth ms m :
  hierarchy_size (S depth) ms m
  = match ms !! m with
    | None => 1
    | Some mp => S (sum_list (hierarchy_size depth ms <$> _inheriting_mappers mp))
    end.
Proof. reflexivity. Qed.

Lemma hierarchy_size_pos depth ms m : 0 < hierarchy_size (S depth) ms m.
Proof. rewrite hierarchy_size_S. destruct (ms !! m); lia. Qed.

(** Below a mapper [m] of a well-formed heap there are at most
    [length ms - m] levels: more depth does not find more mappers. *)
Lemma hierarchy_size_stable ms :
  wf_hierarchy ms →
  ∀ depth m, m < length ms → length ms - m ≤ depth →
    hierarchy_size (S depth) ms m = hierarchy_size depth ms m.
Proof.
  intros Hwf. induction depth as [|depth IH]; intros m Hm Hdepth; [lia|].
  rewrite (hierarchy_size_S (S depth)), (hierarchy_size_S depth).
  destruct (ms !! m) as [mp|] eqn:Hmp; [|done].
  do 2 f_equal. apply Forall_fmap_ext.
  eapply Forall_impl; [exact (Hwf m mp Hmp)|].
  intros c [Hlt Hc]. apply IH; lia.
Qed.

Lemma hierarchy_size_children ms m mp :
  wf_hierarchy ms → ms !! m = Some mp →
  hierarchy_size (S (length ms)) ms m
  = S (sum_list (hierarchy_size (S (length ms)) ms <$> _inheriting_mappers mp)).
Proof.
  intros Hwf Hmp. rewrite hierarchy_size_S, Hmp. do 2 f_equal.
  apply Forall_fmap_ext. eapply Forall_impl; [exact (Hwf m mp Hmp)|].
  intros c [_ Hc]. symmetry. apply hierarchy_size_stable; [done|done|lia].
Qed.

(** The walk ends when its budget covers the hierarchies below the
    mappers on the stack. *)
Lemma self_and_descendants_loop_returns ms :
  wf_hierarchy ms →
  ∀ fuel stack descendants,
    Forall (λ x, x < length ms) stack →
    sum_list (hierarchy_size (S (length ms)) ms <$> stack) ≤ fuel →
    ∃ out, self_and_descendants_loop fuel ms stack descendants = Returns out.
Proof.
  intros Hwf. induction fuel as [|fuel IH]; intros stack acc Hvalid Hsum.
  - destruct stack as [|x stack]; [by eexists|].
    rewrite fmap_cons, sum_list_cons in Hsum.
    pose proof (hierarchy_size_pos (length ms) ms x). lia.
  - destruct stack as [|x stack]; [by eexists|].
    apply Forall_cons in Hvalid as [Hx Hvalid].
    destruct (lookup_lt_is_Some_2 ms x Hx) as [mp Hmp].
    simpl. rewrite Hmp. apply IH.
    + apply Forall_app. split; [done|].
      eapply Forall_impl; [exact (Hwf x mp Hmp)|]. intros c; simpl; lia.
    + rewrite fmap_cons, sum_list_cons in Hsum.
      rewrite (hierarchy_size_children ms x mp Hwf Hmp) in Hsum.
      rewrite fmap_app, sum_list_with_app. lia.
Qed.

(** What the walk collects: the mappers it had collected already and
    the hierarchies below the mappers on the stack. *)
Lemma self_and_descendants_loop_elem ms :
  ∀ fuel stack descendants out,
    self_and_descendants_loop fuel ms stack descendants = Returns out →
    ∀ d, d ∈ out ↔ d ∈ descendants ∨ ∃ x, x ∈ stack ∧ descends ms x d.
Proof.
  induction fuel as [|fuel IH]; intros stack acc out Hrun d.
  - destruct stack; simplify_eq/=. split; [by left|].
    intros [?|(x & Hx & _)]; [done|]. by apply elem_of_nil in Hx.
  - destruct stack as [|x stack]; simplify_eq/=.
    { split; [by left|]. intros [?|(y & Hy & _)]; [done|]. by apply elem_of_nil in Hy. }
    destruct (ms !! x) as [mp|] eqn:Hmp; [|done].
    rewrite (IH _ _ _ Hrun d). split.
    + intros [Hd|(y & Hy & Hdesc)].
      * apply elem_of_app in Hd as [Hd|Hd]; [by left|].
        apply list_elem_of_singleton in Hd as ->.
        right. exists x. split; [left|constructor].
      * apply elem_of_app in Hy as [Hy|Hy].
        -- right. exists y. split; [by right|done].
        -- right. exists x. split; [left|]. by eapply descends_step.
    + intros [Hd|(y & Hy & Hdesc)].
      * left. apply elem_of_app. by left.
      * apply elem_of_cons in Hy as [->|Hy].
        -- inversion Hdesc as [|? mp' c ? Hmp' Hc Hrest]; subst.
           ++ left. apply elem_of_app. right. by apply list_elem_of_singleton.
           ++ rewrite Hmp in Hmp'. injection Hmp' as <-.
              right. exists c. split; [|done]. apply elem_of_app. by right.
        -- right. exists y. split; [|done]. apply elem_of_app. by left.
Qed.

Lemma self_and_descendants_loop_valid ms :
  ∀ fuel stack descendants out,
    self_and_descendants_loop fuel ms stack descendants = Returns out →
    Forall (λ x, x < length ms) descendants →
    Forall (λ x, x < length ms) out.
Proof.
  induction fuel as [|fuel IH]; intros stack acc out Hrun Hacc.
  - destruct stack; by simplify_eq/=.
  - destruct stack as [|x stack]; simplify_eq/=; [done|].
    destruct (ms !! x) as [mp|] eqn:Hmp; [|done].
    eapply IH; [done|]. apply Forall_app. split; [done|].
    apply Forall_singleton. by eapply lookup_lt_Some.
Qed.

Lemma self_and_descendants_spec ms self :
  wf_hierarchy ms → self < length ms →
  ∃ ds, self_and_descendants ms self = Returns ds
        ∧ Forall (λ d, d < length ms) ds
        ∧ ∀ d, d ∈ ds ↔ descends ms self d.
Proof.
  intros Hwf Hself. unfold self_and_descendants.
  destruct (self_and_descendants_loop_returns ms Hwf
              (hierarchy_size (S (length ms)) ms self) [self] [])
    as [ds Hds].
  { by apply Forall_singleton. }
  { rewrite fmap_cons, sum_list_cons. simpl. lia. }
  exists ds. split; [done|]. split.
  - by eapply self_and_descendants_loop_valid.
  - intros d. rewrite (self_and_descendants_loop_elem _ _ _ _ _ Hds d). split.
    + intros [Hd|(x & Hx & Hdesc)]; [by apply elem_of_nil in Hd|].
      by apply list_elem_of_singleton in Hx as ->.
    + intros Hdesc. right. exists self. split; [|done].
      by apply list_elem_of_singleton.
Qed.




(** ** Reasoning about computations *)

Lemma bind_returns {A B} (c : M A) (k : A → M B) s a s1 :
  c s = (Returns a, s1) → (x <- c ;; k x) s = k a s1.
Proof. unfold bind. by intros ->. Qed.

Lemma bind_raises {A B} (c : M A) (k : A → M B) s e s1 :
  c s = (Raises e, s1) → (x <- c ;; k x) s = (Raises e, s1).
Proof. unfold bind. by intros ->. Qed.

Lemma bind_returns_inv {A B} (c : M A) (k : A → M B) s b s' :
  (x <- c ;; k x) s = (Returns b, s') →
  ∃ a s1, c s = (Returns a, s1) ∧ k a s1 = (Returns b, s').
Proof.
  unfold bind. destruct (c s) as [[a|e|] s1]; intros Hk; simplify_eq; eauto.
Qed.

Lemma get_mapper_returns m x s :
  mappers s !! m = Some x → get_mapper m s = (Returns x, s).
Proof. unfold get_mapper, bind, gets. by intros ->. Qed.

Lemma get_mapper_returns_inv m x s s' :
  get_mapper m s = (Returns x, s') → s' = s ∧ mappers s !! m = Some x.
Proof.
  unfold get_mapper, bind, gets, from_option, no_attribute, ret, raise.
  destruct (mappers s !! m); intros; by simplify_eq.
Qed.

Lemma from_option_returns_inv {A} what (o : option A) x s s' :
  from_option what o s = (Returns x, s') → s' = s ∧ o = Some x.
Proof.
  unfold from_option, no_attribute, ret, raise. destruct o; intros; by simplify_eq.
Qed.

Lemma preserves_run {A} I (c : M A) s r s' :
  preserves I c → c s = (r, s') → I s → I s'.
Proof. intros Hc Hrun HI. specialize (Hc s HI). by rewrite Hrun in Hc. Qed.

Lemma preserves_ret {A} I (a : A) : preserves I (ret a).
Proof. by intros s. Qed.

Lemma preserves_raise {A} I e : preserves I (@raise A e).
Proof. by intros s. Qed.

Lemma preserves_diverge {A} I : preserves I (@diverge A).
Proof. by intros s. Qed.

Lemma preserves_gets {A} I (f : St → A) : preserves I (gets f).
Proof. by intros s. Qed.

Lemma preserves_lift_outcome {A} I (o : outcome A) : preserves I (lift_outcome o).
Proof. by intros s. Qed.

Lemma preserves_modify I f : (∀ s, I s → I (f s)) → preserves I (modify f).
Proof. intros Hf s. apply Hf. Qed.

Lemma preserves_bind {A B} I (c : M A) (k : A → M B) :
  preserves I c → (∀ a, preserves I (k a)) → preserves I (x <- c ;; k x).
Proof.
  intros Hc Hk s HI. unfold bind. specialize (Hc s HI).
  destruct (c s) as [[a|e|] s1]; simpl in *; [by apply Hk|done|done].
Qed.

Lemma preserves_when I b c : preserves I c → preserves I (when b c).
Proof. destruct b; [done|]. intros _. apply preserves_ret. Qed.

Lemma preserves_for_each {A} I (l : list A) body :
  (∀ x, preserves I (body x)) → preserves I (for_each l body).
Proof.
  intros Hbody. induction l as [|x l IH]; simpl; [apply preserves_ret|].
  by apply preserves_bind.
Qed.

Lemma preserves_map_M {A B} I (f : A → M B) (l : list A) :
  (∀ x, preserves I (f x)) → preserves I (map_M f l).
Proof.
  intros Hf. induction l as [|x l IH]; simpl; [apply preserves_ret|].
  apply preserves_bind; [done|]. intros y.
  apply preserves_bind; [done|]. intros ys. apply preserves_ret.
Qed.

Lemma preserves_try_except {A} I (c : M A) handler :
  preserves I c → (∀ e, preserves I (handler e)) → preserves I (try_except c handler).
Proof.
  intros Hc Hh s HI. unfold try_except. specialize (Hc s HI).
  destruct (c s) as [[a|e|] s1]; simpl in *; [done|by apply Hh|done].
Qed.

Lemma preserves_try_finally {A} I (c : M A) fin :
  preserves I c → preserves I fin → preserves I (try_finally c fin).
Proof.
  intros Hc Hfin s HI. unfold try_finally. specialize (Hc s HI).
  destruct (c s) as [[a|e|] s1]; simpl in *; [| |done].
  - apply (preserves_bind I fin (λ _, ret a)); [done| |done].
    intros _. apply preserves_ret.
  - apply (preserves_bind I fin (λ _, raise e)); [done| |done].
    intros _. apply preserves_raise.
Qed.

Lemma preserves_install_props I self l :
  (∀ x s, I s → I (set_properties (λ ps, ps ++ [x]) s)) →
  preserves I (install_props self l).
Proof.
  intros Hnew. induction l as [|[key src] l IH]; simpl; [apply preserves_ret|].
  apply preserves_bind.
  - destruct src; [apply preserves_ret|]. unfold new_property.
    apply preserves_bind; [apply preserves_gets|]. intros p.
    apply preserves_bind; [|intros; apply preserves_ret].
    apply preserves_modify. intros s. apply Hnew.
  - intros p. apply preserves_bind; [done|]. intros. apply preserves_ret.
Qed.

Lemma preserves_run_before_mapper_configured I mapper i hooks :
  (∀ ev s, I s → I (set_log (λ l, l ++ [ev]) s)) →
  preserves I (run_before_mapper_configured mapper i hooks).
Proof.
  intros Hlog. revert i. induction hooks as [|fn hooks IH]; intros i; simpl.
  - apply preserves_ret.
  - apply preserves_bind.
    + apply preserves_modify. intros s. apply Hlog.
    + intros _. destruct fn as [[|]|e];
        [apply preserves_ret|apply IH|apply preserves_raise].
Qed.

Lemma preserves_any_new_mappers I registries : preserves I (any_new_mappers registries).
Proof.
  induction registries as [|reg rest IH]; simpl; [apply preserves_ret|].
  apply preserves_bind.
  - unfold get_registry. apply preserves_bind; [apply preserves_gets|].
    intros [r|]; [apply preserves_ret|apply preserves_raise].
  - intros r. destruct (_new_mappers r); [apply preserves_ret|done].
Qed.

Lemma preserves_configure_pending I l has_skip :
  (∀ m, preserves I (configure_mapper m)) →
  preserves I (configure_pending l has_skip).
Proof.
  intros Hm. revert has_skip. induction l as [|m l IH]; intros has_skip; simpl.
  - apply preserves_ret.
  - apply preserves_bind.
    + unfold is_pending, get_mapper. apply preserves_bind.
      * apply preserves_bind; [apply preserves_gets|].
        intros [x|]; [apply preserves_ret|apply preserves_raise].
      * intros mp. apply preserves_ret.
    + intros [|]; [|apply IH]. apply preserves_bind; [apply Hm|]. intros skip. apply IH.
Qed.

Lemma fmap_lookup_alter_keeps {T} (proj : Mapper → T) f m j (l : list Mapper) :
  (∀ x, proj (f x) = proj x) →
  proj <$> alter f m l !! j = proj <$> l !! j.
Proof.
  intros Hf. destruct (decide (m = j)) as [->|Hne].
  - rewrite list_lookup_alter_eq. destruct (l !! j); simpl; [f_equal; apply Hf|done].
  - by rewrite list_lookup_alter_ne.
Qed.

Lemma fmap_lookup_snoc {T} (proj : Mapper → T) (l : list Mapper) x j v :
  proj <$> l !! j = Some v → proj <$> (l ++ [x]) !! j = Some v.
Proof.
  intros Hj. destruct (l !! j) as [y|] eqn:Hy; [|done].
  by rewrite (lookup_app_l_Some _ _ _ _ Hy).
Qed.

Lemma list_fmap_alter_keeps {T} (proj : Mapper → T) f m (l : list Mapper) :
  (∀ x, proj (f x) = proj x) → proj <$> alter f m l = proj <$> l.
Proof.
  intros Hf. apply list_eq. intros j. rewrite !list_lookup_fmap.
  by apply fmap_lookup_alter_keeps.
Qed.

Lemma flag_alter_clear (l : list Registry) m j :
  _new_mappers <$> l !! j = Some false →
  _new_mappers <$> alter (set__new_mappers (λ _, false)) m l !! j = Some false.
Proof.
  intros Hj. destruct (decide (m = j)) as [->|Hne].
  - rewrite list_lookup_alter_eq. by destruct (l !! j).
  - by rewrite list_lookup_alter_ne.
Qed.

(** Discharges [I s → I (f s)] for the updates of the store that leave
    what [I] speaks of alone. *)
Ltac frame_solver :=
  intros; unfold field_is, new_mappers_flag in *; cbv beta in *; simpl in *;
  repeat match goal with
         | H : _ ∧ _ |- _ => destruct H
         | |- _ ∧ _ => split
         end;
  first
    [ assumption
    | rewrite fmap_lookup_alter_keeps by (intros ?; reflexivity); assumption
    | by apply fmap_lookup_snoc
    | apply elem_of_app; left; assumption
    | rewrite list_fmap_alter_keeps by (intros ?; reflexivity); assumption
    | by apply flag_alter_clear ].

Ltac head_of t :=
  lazymatch t with
  | ?f _ => head_of f
  | _ => t
  end.

(** Walks through a computation, leaving the updates of the store to
    [frame_solver]. *)
Ltac preserves_step :=
  lazymatch goal with
  | |- preserves _ (bind _ _) => apply preserves_bind; [|intros ?]
  | |- preserves _ (ret _) => apply preserves_ret
  | |- preserves _ (raise _) => apply preserves_raise
  | |- preserves _ diverge => apply preserves_diverge
  | |- preserves _ (gets _) => apply preserves_gets
  | |- preserves _ (lift_outcome _) => apply preserves_lift_outcome
  | |- preserves _ (modify _) => apply preserves_modify; frame_solver
  | |- preserves _ (when _ _) => apply preserves_when
  | |- preserves _ (for_each _ _) => apply preserves_for_each; intros ?
  | |- preserves _ (map_M _ _) => apply preserves_map_M; intros ?
  | |- preserves _ (try_except _ _) => apply preserves_try_except; [|intros ?]
  | |- preserves _ (try_finally _ _) => apply preserves_try_finally
  | |- preserves _ (install_props _ _) => apply preserves_install_props; frame_solver
  | |- preserves _ (run_before_mapper_configured _ _ _) =>
      apply preserves_run_before_mapper_configured; frame_solver
  | |- preserves _ (any_new_mappers _) => apply preserves_any_new_mappers
  | |- preserves _ (configure_pending _ _) => apply preserves_configure_pending; intros ?
  | |- preserves _ (match ?x with _ => _ end) => destruct x
  | |- preserves _ (let _ := _ in _) => cbv zeta
  | |- preserves _ ?c => let h := head_of c in unfold h
  end.

Ltac preserves_tac := repeat preserves_step.



(** ** Primary-key derivation *)

Lemma record_table_run self me t s m :
  mappers s !! self = Some m →
  ∃ s' m',
    record_table self (mapped_columns me) (mapped_pk_columns me) t s = (Returns tt, s')
    ∧ mappers s' !! self = Some m'
    ∧ _pks_by_table m'
      = if records_primary_key me t
        then <[t := filter (λ c, c ∈ mapped_pk_columns me) (sel_primary_key t)]>
               (_pks_by_table m)
        else _pks_by_table m.
Proof.
  intros Hm. unfold record_table, records_primary_key.
  destruct (bool_decide _ && forallb _ _); simpl;
    unfold bind, modify_mapper, modify, ret; simpl;
    eexists _, _; (split; [reflexivity|]); simpl;
    rewrite ?list_lookup_alter_eq, Hm; simpl; (split; [reflexivity|done]).
Qed.

Lemma record_table_loop self me l :
  ∀ s m, mappers s !! self = Some m →
    ∃ s' m',
      for_each l (record_table self (mapped_columns me) (mapped_pk_columns me)) s
        = (Returns tt, s')
      ∧ mappers s' !! self = Some m'
      ∧ _pks_by_table m'
        = foldl (λ d t, if records_primary_key me t
                        then <[t := filter (λ c, c ∈ mapped_pk_columns me)
                                      (sel_primary_key t)]> d
                        else d)
            (_pks_by_table m) l.
Proof.
  induction l as [|t l IH]; intros s m Hm; simpl.
  - by eexists _, _.
  - destruct (record_table_run self me t s m Hm) as (s1 & m1 & Hrun & Hm1 & Hpk).
    destruct (IH s1 m1 Hm1) as (s' & m' & Hloop & Hm' & Hpk').
    exists s', m'. rewrite (bind_returns _ _ _ _ _ Hrun).
    by rewrite Hloop, Hpk', Hpk.
Qed.

Lemma recorded_lookup me (l : list selectable) (d : gmap selectable (list column)) t :
  foldl (λ d t, if records_primary_key me t
                then <[t := filter (λ c, c ∈ mapped_pk_columns me) (sel_primary_key t)]> d
                else d) d l !! t
  = if bool_decide (t ∈ l) && records_primary_key me t
    then Some (filter (λ c, c ∈ mapped_pk_columns me) (sel_primary_key t))
    else d !! t.
Proof.
  revert d. induction l as [|x l IH]; intros d; simpl; [done|].
  rewrite IH. destruct (decide (t = x)) as [->|Hne].
  - rewrite (bool_decide_eq_true_2 (x ∈ x :: l)) by left.
    destruct (records_primary_key me x).
    + rewrite lookup_insert_eq. by destruct (bool_decide (x ∈ l)).
    + by rewrite andb_false_r.
  - rewrite (bool_decide_ext (t ∈ x :: l) (t ∈ l)) by (rewrite elem_of_cons; intuition).
    destruct (bool_decide (t ∈ l) && records_primary_key me t); [done|].
    destruct (records_primary_key me x); [|done]. by rewrite lookup_insert_ne.
Qed.

(** What [record_tables] leaves under the persist selectable in
    [_pks_by_table]. *)
Lemma record_tables_run self me ps s m :
  mappers s !! self = Some m →
  ∃ s' m',
    record_tables self me ps s = (Returns tt, s')
    ∧ mappers s' !! self = Some m'
    ∧ _pks_by_table m' !! ps
      = if records_primary_key me ps
        then Some (filter (λ c, c ∈ mapped_pk_columns me) (sel_primary_key ps))
        else None.
Proof.
  intros Hm. unfold record_tables.
  unfold bind at 1 2 3. unfold modify_mapper at 1 2 3. unfold modify. simpl.
  edestruct (record_table_loop self me (find_tables ps ++ [ps])) as (s' & m' & -> & Hm' & Hpk).
  { simpl. rewrite !list_lookup_alter_eq, Hm. reflexivity. }
  exists s', m'. split; [done|]. split; [done|].
  rewrite Hpk, recorded_lookup. simpl.
  rewrite (bool_decide_eq_true_2 (ps ∈ find_tables ps ++ [ps])).
  - simpl. destruct (records_primary_key me ps); [done|]. apply lookup_empty.
  - apply elem_of_app. right. by apply list_elem_of_singleton.
Qed.

Lemma recorded_primary_key_nil me ps :
  recorded_primary_key me ps = [] → records_primary_key me ps = false.
Proof.
  unfold recorded_primary_key.
  destruct (records_primary_key me ps) eqn:Hrec; [|done].
  intros Hnil. unfold records_primary_key in Hrec.
  apply andb_prop in Hrec as [Hne Hall]. apply bool_decide_eq_true in Hne.
  destruct (sel_primary_key ps) as [|c cols]; [done|].
  simpl in Hall. apply andb_prop in Hall as [Hc _]. apply bool_decide_eq_true in Hc.
  rewrite filter_cons_True in Hnil by done. done.
Qed.

(** C8.  When no primary-key argument is given and the derivation
    records no primary-key column for the persist selectable,
    [_configure_pks] raises the [ArgumentError] that says it could not
    assemble any primary key columns; so does every construction whose
    first four steps return with the mapper in that state. *)
Theorem configure_pks_could_not_assemble (self : mapper_id) (me : Mapper)
    (ps : selectable) (s : St) :
  mappers s !! self = Some me →
  persist_selectable me = Some ps →
  has_primary_key_argument me = false →
  recorded_primary_key me ps = [] →
  let e := new_exn ArgumentError
             "Mapper %s could not assemble any primary key columns for mapped table '%s'"
             [FmtMapper self; FmtStr (description ps)] in
  (∃ s', _configure_pks self s = (Raises e, s'))
  ∧ ∀ a s0 s1 s2 s3,
      _configure_inheritance self s0 = (Returns tt, s1) →
      _configure_class_instrumentation self s1 = (Returns tt, s2) →
      _configure_properties self (a_properties a) s2 = (Returns tt, s3) →
      _configure_polymorphic_setter self (a_polymorphic_setter a) s3 = (Returns tt, s) →
      ∃ s', configure_new_mapper self a s0 = (Raises e, s').
Proof.
  intros Hme Hps Hnoarg Hrec e.
  assert (∃ s', _configure_pks self s = (Raises e, s')) as Hpks.
  { unfold _configure_pks.
    rewrite (bind_returns _ _ _ _ _ (get_mapper_returns _ _ _ Hme)).
    rewrite Hps. unfold from_option. rewrite (bind_returns _ _ s ps s) by done.
    destruct (record_tables_run self me ps s me Hme) as (s1 & m1 & Hrun & Hm1 & Hpk).
    rewrite (bind_returns _ _ _ _ _ Hrun).
    rewrite (recorded_primary_key_nil _ _ Hrec) in Hpk.
    exists s1. unfold check_primary_key. rewrite Hnoarg.
    unfold bind at 1.
    rewrite (bind_returns _ _ _ _ _ (get_mapper_returns _ _ _ Hm1)).
    by rewrite Hpk. }
  split; [done|]. intros a s0 s1 s2 s3 H1 H2 H3 H4.
  destruct Hpks as [s' Hpks]. exists s'. unfold configure_new_mapper.
  rewrite (bind_returns _ _ _ _ _ H1), (bind_returns _ _ _ _ _ H2),
    (bind_returns _ _ _ _ _ H3), (bind_returns _ _ _ _ _ H4).
  by rewrite (bind_raises _ _ _ _ _ Hpks).
Qed.


(** ** The constructor *)

Lemma allocate_mapper_run a s :
  ∃ pm s1,
    allocate_mapper a s = (Returns (length (mappers s)), s1)
    ∧ mappers s1 = mappers s ++ [initial_mapper a pm]
    ∧ managers s1 = managers s
    ∧ registries s1 = registries s
    ∧ properties s1 = properties s
    ∧ log s1 = log s
    ∧ match a__polymorphic_map a with
      | Some d => pm = d ∧ polymorphic_maps s1 = polymorphic_maps s
      | None => pm = length (polymorphic_maps s)
                ∧ polymorphic_maps s1 = polymorphic_maps s ++ [∅]
      end.
Proof.
  unfold allocate_mapper, bind, gets, modify, ret.
  destruct (a__polymorphic_map a) as [d|]; simpl; eexists _, _; by repeat split.
Qed.

Lemma lookup_new_mapper (ms : list Mapper) (x : Mapper) : (ms ++ [x]) !! length ms = Some x.
Proof. by apply list_lookup_middle. Qed.

Lemma field_is_lookup {T} (proj : Mapper → T) j v s :
  field_is proj j v s → ∃ m, mappers s !! j = Some m ∧ proj m = v.
Proof.
  unfold field_is. destruct (mappers s !! j) as [m|]; intros; simplify_eq/=; eauto.
Qed.

Lemma lookup_field_is {T} (proj : Mapper → T) j m s :
  mappers s !! j = Some m → field_is proj j (proj m) s.
Proof. unfold field_is. by intros ->. Qed.

(** Carries the invariant [I] of the goal [I s'] back over the run [H]. *)
Ltac carry I H :=
  lazymatch type of H with
  | ?c _ = _ =>
      let Hp := fresh in
      assert (preserves I c) as Hp by preserves_tac;
      apply (preserves_run I c _ _ _ Hp H); clear Hp
  end.

(** Inverts a run that returned into the runs of its steps. *)
Tactic Notation "bind_inv" hyp(H) "as" simple_intropattern(a) ident(s) ident(Hc) :=
  apply bind_returns_inv in H as (a & s & Hc & H).

(** An inheriting mapper that is not concrete and has no primary-key
    argument leaves [_configure_pks] with the primary key of its
    parent. *)
Lemma configure_pks_inherits self p s s' cur :
  _configure_pks self s = (Returns tt, s') →
  mappers s !! self = Some cur →
  inherits cur = Some p →
  concrete cur = false →
  has_primary_key_argument cur = false →
  ∃ v, field_is primary_key self v s' ∧ field_is primary_key p v s'.
Proof.
  intros Hrun Hcur Hinh Hconc Hnoarg. unfold _configure_pks in Hrun.
  bind_inv Hrun as me s0 Hget. apply get_mapper_returns_inv in Hget as [-> Hme].
  bind_inv Hrun as ps s0 Hfrom. apply from_option_returns_inv in Hfrom as [-> Hps].
  bind_inv Hrun as [] s1 Hrecord. bind_inv Hrun as [] s2 Hcheck.
  assert (field_is inherits self (Some p) s2
          ∧ field_is concrete self false s2
          ∧ field_is has_primary_key_argument self false s2) as (Hi & Hc & Ha).
  { carry (λ s, field_is inherits self (Some p) s ∧ field_is concrete self false s
                 ∧ field_is has_primary_key_argument self false s) Hcheck.
    carry (λ s, field_is inherits self (Some p) s ∧ field_is concrete self false s
                 ∧ field_is has_primary_key_argument self false s) Hrecord.
    repeat split; [rewrite <- Hinh|rewrite <- Hconc|rewrite <- Hnoarg];
      by apply lookup_field_is. }
  bind_inv Hrun as [] s3 Hassign. clear Hrecord Hcheck.
  unfold field_is in Hi, Hc, Ha.
  destruct (mappers s2 !! self) as [m2|] eqn:Hm2; [|done]. simpl in Hi, Hc, Ha.
  injection Hi as Hinh2. injection Hc as Hconc2. injection Ha as Hnoarg2.
  unfold assign_primary_key in Hassign.
  rewrite (bind_returns _ _ _ _ _ (get_mapper_returns _ _ _ Hm2)) in Hassign.
  rewrite Hinh2, Hconc2, Hnoarg2 in Hassign. simpl in Hassign.
  bind_inv Hassign as par s2' Hget. apply get_mapper_returns_inv in Hget as [-> Hpar].
  unfold modify_mapper, modify in Hassign. injection Hassign as <-.
  exists (primary_key par).
  carry (λ s, field_is primary_key self (primary_key par) s
               ∧ field_is primary_key p (primary_key par) s) Hrun.
  unfold field_is. simpl. split.
  - by rewrite list_lookup_alter_eq, Hm2.
  - destruct (decide (self = p)) as [->|Hne].
    + by rewrite list_lookup_alter_eq, Hm2.
    + by rewrite list_lookup_alter_ne, Hpar.
Qed.

(** C2.  A mapper constructed with a parent, not concrete and without a
    primary-key argument, has the primary key of its parent, whether or
    not it has a local table of its own. *)
Theorem inheriting_mapper_primary_key (a : MapperArgs) (s s' : St)
    (d p : mapper_id) :
  Mapper__init__ a s = (Returns d, s') →
  a_inherits a = Some p →
  a_concrete a = false →
  a_primary_key a = None ∨ a_primary_key a = Some [] →
  ∃ md mp,
    mappers s' !! d = Some md ∧ mappers s' !! p = Some mp
    ∧ primary_key md = primary_key mp.
Proof.
  intros Hrun Hinh Hconc Hnoarg. unfold Mapper__init__ in Hrun.
  destruct (allocate_mapper_run a s) as (pm & s1 & Halloc & Hms & _).
  rewrite (bind_returns _ _ _ _ _ Halloc) in Hrun.
  bind_inv Hrun as [] s2 Hconf. unfold ret in Hrun. injection Hrun as <- <-.
  set (self := length (mappers s)) in *.
  assert (mappers s1 !! self = Some (initial_mapper a pm)) as Hself.
  { rewrite Hms. apply lookup_new_mapper. }
  unfold configure_new_mapper in Hconf.
  bind_inv Hconf as [] sa Hstep1. bind_inv Hconf as [] sb Hstep2.
  bind_inv Hconf as [] sc Hstep3. bind_inv Hconf as [] sd Hstep4.
  assert (field_is inherits self (Some p) sd
          ∧ field_is concrete self false sd
          ∧ field_is has_primary_key_argument self false sd) as (Hi & Hc & Ha).
  { carry (λ s, field_is inherits self (Some p) s ∧ field_is concrete self false s
                 ∧ field_is has_primary_key_argument self false s) Hstep4.
    carry (λ s, field_is inherits self (Some p) s ∧ field_is concrete self false s
                 ∧ field_is has_primary_key_argument self false s) Hstep3.
    carry (λ s, field_is inherits self (Some p) s ∧ field_is concrete self false s
                 ∧ field_is has_primary_key_argument self false s) Hstep2.
    carry (λ s, field_is inherits self (Some p) s ∧ field_is concrete self false s
                 ∧ field_is has_primary_key_argument self false s) Hstep1.
    unfold field_is. rewrite Hself. simpl. rewrite Hinh, Hconc.
    repeat split. unfold has_primary_key_argument. simpl.
    by destruct Hnoarg as [->| ->]. }
  bind_inv Hconf as [] se Hpks.
  unfold field_is in Hi, Hc, Ha.
  destruct (mappers sd !! self) as [m4|] eqn:Hm4; [|done]. simpl in Hi, Hc, Ha.
  injection Hi as Hinh4. injection Hc as Hconc4. injection Ha as Hnoarg4.
  destruct (configure_pks_inherits _ _ _ _ _ Hpks Hm4 Hinh4 Hconc4 Hnoarg4)
    as (v & Hd & Hp).
  assert (field_is primary_key self v s2 ∧ field_is primary_key p v s2) as [Hd' Hp'].
  { carry (λ s, field_is primary_key self v s ∧ field_is primary_key p v s) Hconf.
    by split. }
  apply field_is_lookup in Hd' as (md & Hmd & <-).
  apply field_is_lookup in Hp' as (mp & Hmp & Heq).
  by exists md, mp.
Qed.


(** ** Running the steps forward *)

Lemma bind_ret {A B} (a : A) (k : A → M B) s : bind (ret a) k s = k a s.
Proof. reflexivity. Qed.

Lemma bind_modify_mapper {B} m f (k : unit → M B) s :
  bind (modify_mapper m f) k s = k tt (set_mappers (alter f m) s).
Proof. reflexivity. Qed.

Lemma lookup_modify_eq f m s x :
  mappers s !! m = Some x →
  mappers (set_mappers (alter f m) s) !! m = Some (f x).
Proof. intros Hx. simpl. by rewrite list_lookup_alter_eq, Hx. Qed.

Lemma lookup_modify_ne f m j s :
  m ≠ j → mappers (set_mappers (alter f m) s) !! j = mappers s !! j.
Proof. intros Hne. simpl. by rewrite list_lookup_alter_ne. Qed.

(** The state a computation ends in satisfies an invariant that its
    first part establishes and its continuation keeps. *)
Lemma final_bind {A B} I (c : M A) (k : A → M B) s :
  I (c s).2 → (∀ a, preserves I (k a)) → I ((x <- c ;; k x) s).2.
Proof.
  intros Hc Hk. unfold bind. destruct (c s) as [[a|e|] s1]; simpl in *;
    [by apply Hk|done|done].
Qed.

Ltac run_get H := rewrite (bind_returns _ _ _ _ _ (get_mapper_returns _ _ _ H)).

Lemma check_inheritance_run self p s me par :
  mappers s !! self = Some me →
  mappers s !! p = Some par →
  issubclass (class_ me) (class_ par) = true →
  non_primary me = non_primary par →
  check_inheritance self p s
  = (Returns tt,
     set_mappers
       (alter (set_mapper_configured (λ l, l ++ mapper_configured par)) self)
       (set_mappers
          (alter (set_before_mapper_configured
                    (λ l, l ++ before_mapper_configured par)) self) s)).
Proof.
  intros Hme Hpar Hsub Hnp. unfold check_inheritance.
  run_get Hme. run_get Hpar. rewrite Hsub. simpl. rewrite (bind_ret tt).
  rewrite !bind_modify_mapper. by rewrite Hnp, bool_decide_eq_true_2.
Qed.

(** The inference of the inherit condition between the parent's local
    table and the mapper's. *)
Lemma resolve_inherit_condition_run self s me par lt plt :
  mappers s !! self = Some me →
  inherit_condition me = None →
  local_table par = Some plt →
  match fk_join_candidates plt lt with
  | [] =>
      ∃ e, resolve_inherit_condition self par lt s = (Raises e, s)
           ∧ exn_class e = NoForeignKeysError
  | [c] =>
      resolve_inherit_condition self par lt s
      = (Returns c, set_mappers (alter (set_inherit_condition (λ _, Some c)) self) s)
  | _ :: _ :: _ =>
      ∃ e, resolve_inherit_condition self par lt s = (Raises e, s)
           ∧ exn_class e = AmbiguousForeignKeysError
  end.
Proof.
  intros Hme Hcond Hplt.
  assert (resolve_inherit_condition self par lt s
          = (c <- try_except (join_condition plt lt)
                    (reraise_inherit_condition plt lt) ;;
             modify_mapper self (set_inherit_condition (λ _, Some c)) ;;
             ret c) s) as ->.
  { unfold resolve_inherit_condition. run_get Hme. by rewrite Hcond, Hplt. }
  unfold join_condition.
  destruct (fk_join_candidates plt lt) as [|c [|c' cs]].
  - eexists. split; [reflexivity|done].
  - reflexivity.
  - eexists. split; [reflexivity|done].
Qed.

(** The joined-table branch of [configure_inherited_selectable] without
    an explicit inherit condition. *)
Lemma configure_inherited_selectable_joined self p s me par lt plt pps :
  mappers s !! self = Some me →
  mappers s !! p = Some par →
  local_table me = Some lt →
  local_table par = Some plt →
  lt ≠ plt →
  concrete me = false →
  inherit_condition me = None →
  persist_selectable par = Some pps →
  match fk_join_candidates plt lt with
  | [] =>
      ∃ e, configure_inherited_selectable self p s = (Raises e, s)
           ∧ exn_class e = NoForeignKeysError
  | [c] =>
      ∃ s', configure_inherited_selectable self p s = (Returns tt, s')
            ∧ field_is persist_selectable self (Some (sql_join pps lt c)) s'
            ∧ field_is inherit_condition self (Some c) s'
  | _ :: _ :: _ =>
      ∃ e, configure_inherited_selectable self p s = (Raises e, s)
           ∧ exn_class e = AmbiguousForeignKeysError
  end.
Proof.
  intros Hme Hpar Hlt Hplt Hne Hconc Hcond Hpps.
  pose proof (resolve_inherit_condition_run self s me par lt plt Hme Hcond Hplt) as Hres.
  assert (configure_inherited_selectable self p s
          = (cond <- resolve_inherit_condition self par lt ;;
             parent_persist <- expect_selectable (persist_selectable par) ;;
             modify_mapper self
               (set_persist_selectable (λ _, Some (sql_join parent_persist lt cond))) ;;
             modify_mapper self
               (set__inherits_equated_pairs
                  (λ _, Some (criterion_as_pairs cond (inherit_foreign_keys me))))) s)
    as ->.
  { unfold configure_inherited_selectable. run_get Hme. run_get Hpar.
    by rewrite Hlt, Hplt, Hconc, bool_decide_eq_true_2 by congruence. }
  destruct (fk_join_candidates plt lt) as [|c [|c' cs]].
  - destruct Hres as (e & Hrun & He). exists e. by rewrite (bind_raises _ _ _ _ _ Hrun).
  - rewrite (bind_returns _ _ _ _ _ Hres), Hpps. eexists. split; [reflexivity|].
    unfold field_is. simpl. by rewrite !list_lookup_alter_eq, Hme.
  - destruct Hres as (e & Hrun & He). exists e. by rewrite (bind_raises _ _ _ _ _ Hrun).
Qed.

(** C3.  A joined-table-inheritance construction (a parent, a local
    table other than the parent's, not concrete) without an explicit
    inherit condition raises [NoForeignKeysError] when the foreign keys
    between the two local tables give no join condition and
    [AmbiguousForeignKeysError] when they give more than one; when they
    give exactly one, the mapper gets the join of the parent's persist
    selectable to its local table on that condition as persist
    selectable, and the condition as inherit condition. *)
Theorem joined_inheritance_condition (a : MapperArgs) (s : St) (p : mapper_id)
    (par : Mapper) (lt plt pps : selectable) :
  a_inherits a = Some p →
  mappers s !! p = Some par →
  issubclass (a_class_ a) (class_ par) = true →
  a_non_primary a = non_primary par →
  a_local_table a = Some lt →
  local_table par = Some plt →
  lt ≠ plt →
  a_concrete a = false →
  a_inherit_condition a = None →
  persist_selectable par = Some pps →
  match fk_join_candidates plt lt with
  | [] =>
      ∃ e s', Mapper__init__ a s = (Raises e, s')
              ∧ exn_class e = NoForeignKeysError
  | [c] =>
      ∃ md, mappers (Mapper__init__ a s).2 !! length (mappers s) = Some md
            ∧ persist_selectable md = Some (sql_join pps lt c)
            ∧ inherit_condition md = Some c
  | _ :: _ :: _ =>
      ∃ e s', Mapper__init__ a s = (Raises e, s')
              ∧ exn_class e = AmbiguousForeignKeysError
  end.
Proof.
  intros Hinh Hpar Hsub Hnp Hlt Hplt Hne Hconc Hcond Hpps.
  destruct (allocate_mapper_run a s) as (pm & s1 & Halloc & Hms & _).
  set (self := length (mappers s)) in *.
  assert (mappers s1 !! self = Some (initial_mapper a pm)) as Hself.
  { rewrite Hms. apply lookup_new_mapper. }
  assert (mappers s1 !! p = Some par) as Hpar1.
  { rewrite Hms. by apply lookup_app_l_Some. }
  assert (self ≠ p) as Hsp.
  { apply lookup_lt_Some in Hpar. unfold self. lia. }
  (* the run up to the choice of the inheritance mode *)
  pose proof (lookup_modify_eq (set__inheriting_mappers (λ _, [])) _ _ _ Hself) as Hself2.
  pose proof (lookup_modify_ne (set__inheriting_mappers (λ _, [])) _ _ s1 Hsp) as Hpar2.
  rewrite Hpar1 in Hpar2.
  pose proof (check_inheritance_run self p _ _ _ Hself2 Hpar2 Hsub Hnp) as Hcheck.
  match type of Hcheck with _ = (_, ?s3) => set (s3' := s3) in * end.
  assert (∃ me3, mappers s3' !! self = Some me3
                 ∧ local_table me3 = Some lt ∧ concrete me3 = false
                 ∧ inherit_condition me3 = None) as (me3 & Hself3 & Hlt3 & Hconc3 & Hcond3).
  { eexists. split.
    - unfold s3'. apply lookup_modify_eq, lookup_modify_eq, Hself2.
    - done. }
  assert (mappers s3' !! p = Some par) as Hpar3.
  { unfold s3'. by rewrite !lookup_modify_ne. }
  pose proof (configure_inherited_selectable_joined self p s3' me3 par lt plt pps
                Hself3 Hpar3 Hlt3 Hplt Hne Hconc3 Hcond3 Hpps) as Hjoin.
  assert (∀ r s', configure_inherited_selectable self p s3' = (Raises r, s') →
                  Mapper__init__ a s = (Raises r, s')) as Hraise.
  { intros r s' Hr. unfold Mapper__init__.
    rewrite (bind_returns _ _ _ _ _ Halloc). apply bind_raises.
    unfold configure_new_mapper. apply bind_raises.
    unfold _configure_inheritance. rewrite bind_modify_mapper.
    run_get Hself2. simpl. rewrite Hinh. apply bind_raises.
    unfold configure_inheriting. rewrite (bind_returns _ _ _ _ _ Hcheck).
    by apply bind_raises. }
  destruct (fk_join_candidates plt lt) as [|c [|c' cs]].
  - destruct Hjoin as (e & Hrun & He). eauto.
  - destruct Hjoin as (s4 & Hrun & Hps & Hic).
    cut (field_is persist_selectable self (Some (sql_join pps lt c)) (Mapper__init__ a s).2
         ∧ field_is inherit_condition self (Some c) (Mapper__init__ a s).2).
    { intros [Hps' Hic'].
      apply field_is_lookup in Hps' as (md & Hmd & Hps').
      apply field_is_lookup in Hic' as (md' & Hmd' & Hic').
      exists md. split; [done|]. split; [done|]. congruence. }
    unfold Mapper__init__. rewrite (bind_returns _ _ _ _ _ Halloc).
    apply (final_bind (λ s, field_is persist_selectable self _ s
                            ∧ field_is inherit_condition self _ s));
      [|intros; preserves_tac].
    unfold configure_new_mapper.
    apply (final_bind (λ s, field_is persist_selectable self _ s
                            ∧ field_is inherit_condition self _ s));
      [|intros; preserves_tac].
    unfold _configure_inheritance. rewrite bind_modify_mapper.
    run_get Hself2. simpl. rewrite Hinh.
    apply (final_bind (λ s, field_is persist_selectable self _ s
                            ∧ field_is inherit_condition self _ s));
      [|intros; preserves_tac].
    unfold configure_inheriting. rewrite (bind_returns _ _ _ _ _ Hcheck).
    rewrite (bind_returns _ _ _ _ _ Hrun).
    assert (preserves (λ s, field_is persist_selectable self (Some (sql_join pps lt c)) s
                            ∧ field_is inherit_condition self (Some c) s)
              (configure_identity_class self p ;;
               configure_version_id_col self p ;;
               propagate_from_parent self p ;;
               register_polymorphic_identity self ;;
               check_polymorphic_load self p)) as Hrest by preserves_tac.
    by apply Hrest.
  - destruct Hjoin as (e & Hrun & He). eauto.
Qed.


(** ** The steps of a construction that returned *)

Lemma Mapper__init___returns_inv a s d s' :
  Mapper__init__ a s = (Returns d, s') →
  d = length (mappers s)
  ∧ ∃ pm s1 sa sb sc sd se,
      allocate_mapper a s = (Returns d, s1)
      ∧ mappers s1 = mappers s ++ [initial_mapper a pm]
      ∧ log s1 = log s
      ∧ match a__polymorphic_map a with
        | Some m => pm = m ∧ polymorphic_maps s1 = polymorphic_maps s
        | None => pm = length (polymorphic_maps s)
                  ∧ polymorphic_maps s1 = polymorphic_maps s ++ [∅]
        end
      ∧ _configure_inheritance d s1 = (Returns tt, sa)
      ∧ _configure_class_instrumentation d sa = (Returns tt, sb)
      ∧ _configure_properties d (a_properties a) sb = (Returns tt, sc)
      ∧ _configure_polymorphic_setter d (a_polymorphic_setter a) sc = (Returns tt, sd)
      ∧ _configure_pks d sd = (Returns tt, se)
      ∧ (me <- get_mapper d ;;
         r <- from_option "registry" (registry me) ;;
         _flag_new_mapper r d ;;
         _expire_memoizations d) se = (Returns tt, s').
Proof.
  intros Hrun. unfold Mapper__init__ in Hrun.
  destruct (allocate_mapper_run a s) as (pm & s1 & Halloc & Hms & _ & _ & _ & Hlog & Hpm).
  rewrite (bind_returns _ _ _ _ _ Halloc) in Hrun.
  bind_inv Hrun as [] s2 Hconf. unfold ret in Hrun. injection Hrun as <- <-.
  split; [done|]. unfold configure_new_mapper in Hconf.
  bind_inv Hconf as [] sa Hstep1. bind_inv Hconf as [] sb Hstep2.
  bind_inv Hconf as [] sc Hstep3. bind_inv Hconf as [] sd Hstep4.
  bind_inv Hconf as [] se Hstep5.
  exists pm, s1, sa, sb, sc, sd, se. by repeat split.
Qed.

Lemma _configure_inheritance_returns_inv self p s s' me :
  _configure_inheritance self s = (Returns tt, s') →
  mappers s !! self = Some me →
  inherits me = Some p →
  ∃ s1 s2 s3 s4,
    check_inheritance self p
      (set_mappers (alter (set__inheriting_mappers (λ _, [])) self) s) = (Returns tt, s1)
    ∧ configure_inherited_selectable self p s1 = (Returns tt, s2)
    ∧ configure_identity_class self p s2 = (Returns tt, s3)
    ∧ (configure_version_id_col self p ;;
       propagate_from_parent self p) s3 = (Returns tt, s4)
    ∧ (register_polymorphic_identity self ;;
       check_polymorphic_load self p ;;
       require_persist_selectable self) s4 = (Returns tt, s').
Proof.
  intros Hrun Hme Hinh. unfold _configure_inheritance in Hrun.
  rewrite bind_modify_mapper in Hrun.
  pose proof (lookup_modify_eq (set__inheriting_mappers (λ _, [])) _ _ _ Hme) as Hme'.
  rewrite (bind_returns _ _ _ _ _ (get_mapper_returns _ _ _ Hme')) in Hrun.
  simpl in Hrun. rewrite Hinh in Hrun.
  bind_inv Hrun as [] s5 Hinheriting. unfold configure_inheriting in Hinheriting.
  bind_inv Hinheriting as [] s1 Hcheck. bind_inv Hinheriting as [] s2 Hsel.
  bind_inv Hinheriting as [] s3 Hic. bind_inv Hinheriting as [] s3' Hversion.
  bind_inv Hinheriting as [] s4 Hprop. bind_inv Hinheriting as [] s4' Hreg.
  exists s1, s2, s3, s4. split; [done|]. split; [done|]. split; [done|]. split.
  - by rewrite (bind_returns _ _ _ _ _ Hversion).
  - rewrite (bind_returns _ _ _ _ _ Hreg), (bind_returns _ _ _ _ _ Hinheriting).
    done.
Qed.

(** ** The identity class *)

Lemma configure_identity_class_inherits self p s s' me :
  configure_identity_class self p s = (Returns tt, s') →
  mappers s !! self = Some me →
  polymorphic_identity me ≠ None →
  concrete me = false →
  ∃ ic, field_is _identity_class self (Some ic) s'
        ∧ field_is _identity_class p (Some ic) s'.
Proof.
  intros Hrun Hme Hident Hconc. unfold configure_identity_class in Hrun.
  rewrite (bind_returns _ _ _ _ _ (get_mapper_returns _ _ _ Hme)) in Hrun.
  bind_inv Hrun as par s0 Hget. apply get_mapper_returns_inv in Hget as [-> Hpar].
  rewrite Hconc, bool_decide_eq_true_2 in Hrun by done. simpl in Hrun.
  bind_inv Hrun as ic s0 Hfrom. apply from_option_returns_inv in Hfrom as [-> Hic].
  unfold modify_mapper, modify in Hrun. injection Hrun as <-.
  exists ic. unfold field_is. simpl. split.
  - by rewrite list_lookup_alter_eq, Hme.
  - destruct (decide (self = p)) as [->|Hne].
    + by rewrite list_lookup_alter_eq, Hme.
    + by rewrite list_lookup_alter_ne, Hpar, <- Hic.
Qed.

(** C10, as the code has it.  A primary mapper constructed with a
    parent, a polymorphic identity and [concrete=False] has the identity
    class of its parent, so that [identity_key_from_primary_key] gives
    the same key on both.  (A non-primary mapper takes the identity
    class of the primary mapper of its class instead.) *)
Theorem primary_mapper_identity_class (a : MapperArgs) (s s' : St)
    (d p : mapper_id) :
  Mapper__init__ a s = (Returns d, s') →
  a_inherits a = Some p →
  a_polymorphic_identity a ≠ None →
  a_concrete a = false →
  a_non_primary a = false →
  ∃ md mp,
    mappers s' !! d = Some md ∧ mappers s' !! p = Some mp
    ∧ _identity_class md = _identity_class mp
    ∧ ∀ pk token,
        identity_key_from_primary_key md pk token
        = identity_key_from_primary_key mp pk token.
Proof.
  intros Hrun Hinh Hident Hconc Hprim.
  apply Mapper__init___returns_inv in Hrun
    as (-> & pm & s1 & sa & sb & sc & sd & se & _ & Hms & _ & _
        & Hstep1 & Hstep2 & Hstep3 & Hstep4 & Hstep5 & Htail).
  set (self := length (mappers s)) in *.
  assert (mappers s1 !! self = Some (initial_mapper a pm)) as Hself.
  { rewrite Hms. apply lookup_new_mapper. }
  (* the identity class, as [_configure_inheritance] leaves it *)
  assert (∃ ic, field_is _identity_class self (Some ic) sa
                ∧ field_is _identity_class p (Some ic) sa) as (ic & Hd & Hp).
  { destruct (_configure_inheritance_returns_inv _ p _ _ _ Hstep1 Hself Hinh)
      as (s2 & s3 & s4 & s5 & Hcheck & Hsel & Hic & Hprop & Hrest).
    assert (field_is polymorphic_identity self (a_polymorphic_identity a) s3
            ∧ field_is concrete self false s3) as [Hi Hc].
    { carry (λ s, field_is polymorphic_identity self (a_polymorphic_identity a) s
                   ∧ field_is concrete self false s) Hsel.
      carry (λ s, field_is polymorphic_identity self (a_polymorphic_identity a) s
                   ∧ field_is concrete self false s) Hcheck.
      unfold field_is. simpl. rewrite list_lookup_alter_eq, Hself. simpl.
      by rewrite Hconc. }
    unfold field_is in Hi, Hc.
    destruct (mappers s3 !! self) as [m3|] eqn:Hm3; [|done]. simpl in Hi, Hc.
    injection Hi as Hi. injection Hc as Hc.
    destruct (configure_identity_class_inherits _ _ _ _ _ Hic Hm3) as (ic & Hd & Hp);
      [congruence|done|].
    exists ic.
    carry (λ s, field_is _identity_class self (Some ic) s
                 ∧ field_is _identity_class p (Some ic) s) Hrest.
    carry (λ s, field_is _identity_class self (Some ic) s
                 ∧ field_is _identity_class p (Some ic) s) Hprop.
    by split. }
  (* the class binding of a primary mapper leaves it alone *)
  assert (field_is non_primary self false sa) as Hnp.
  { carry (field_is non_primary self false) Hstep1.
    unfold field_is. by rewrite Hself, <- Hprim. }
  unfold field_is in Hnp.
  destruct (mappers sa !! self) as [ma|] eqn:Hma; [|done]. simpl in Hnp.
  injection Hnp as Hnp.
  unfold _configure_class_instrumentation in Hstep2.
  rewrite (bind_returns _ _ _ _ _ (get_mapper_returns _ _ _ Hma)) in Hstep2.
  unfold bind at 1, gets in Hstep2. rewrite Hnp in Hstep2.
  assert (field_is _identity_class self (Some ic) s'
          ∧ field_is _identity_class p (Some ic) s') as [Hd' Hp'].
  { carry (λ s, field_is _identity_class self (Some ic) s
                 ∧ field_is _identity_class p (Some ic) s) Htail.
    carry (λ s, field_is _identity_class self (Some ic) s
                 ∧ field_is _identity_class p (Some ic) s) Hstep5.
    carry (λ s, field_is _identity_class self (Some ic) s
                 ∧ field_is _identity_class p (Some ic) s) Hstep4.
    carry (λ s, field_is _identity_class self (Some ic) s
                 ∧ field_is _identity_class p (Some ic) s) Hstep3.
    carry (λ s, field_is _identity_class self (Some ic) s
                 ∧ field_is _identity_class p (Some ic) s) Hstep2.
    by split. }
  apply field_is_lookup in Hd' as (md & Hmd & Hicd).
  apply field_is_lookup in Hp' as (mp & Hmp & Hicp).
  exists md, mp. split; [done|]. split; [done|]. split; [congruence|].
  intros pk token. unfold identity_key_from_primary_key. by rewrite Hicd, Hicp.
Qed.


(** ** The polymorphic map *)

Lemma propagate_from_parent_map self p s s' me :
  propagate_from_parent self p s = (Returns tt, s') →
  mappers s !! self = Some me →
  ∃ par, mappers s !! p = Some par
         ∧ field_is polymorphic_map self (polymorphic_map par) s'
         ∧ polymorphic_maps s' = polymorphic_maps s
         ∧ log s' = log s.
Proof.
  intros Hrun Hme. unfold propagate_from_parent in Hrun.
  bind_inv Hrun as par s0 Hget. apply get_mapper_returns_inv in Hget as [-> Hpar].
  rewrite !bind_modify_mapper in Hrun.
  unfold modify_mapper, modify in Hrun. injection Hrun as <-.
  exists par. split; [done|]. split; [|done]. unfold field_is. simpl.
  rewrite !(fmap_lookup_alter_keeps polymorphic_map) by (intros ?; reflexivity).
  by rewrite list_lookup_alter_eq, Hme.
Qed.

Lemma register_polymorphic_identity_run self s s' me ident :
  register_polymorphic_identity self s = (Returns tt, s') →
  mappers s !! self = Some me →
  polymorphic_identity me = Some ident →
  ∃ pm, polymorphic_maps s !! polymorphic_map me = Some pm
        ∧ polymorphic_maps s' !! polymorphic_map me = Some (<[ident := self]> pm)
        ∧ mappers s' = mappers s
        ∧ ∀ old, pm !! ident = Some old → reassigning ident old self ∈ log s'.
Proof.
  intros Hrun Hme Hident. unfold register_polymorphic_identity in Hrun.
  rewrite (bind_returns _ _ _ _ _ (get_mapper_returns _ _ _ Hme)), Hident in Hrun.
  bind_inv Hrun as pm s0 Hget. unfold get_polymorphic_map in Hget.
  bind_inv Hget as o s0' Hgets. unfold gets in Hgets. injection Hgets as <- <-.
  apply from_option_returns_inv in Hget as [-> Hpm].
  exists pm. split; [done|].
  destruct (pm !! ident) as [old|] eqn:Hold.
  - unfold warn, emit, modify_polymorphic_map, modify, bind in Hrun.
    injection Hrun as <-. simpl. rewrite list_lookup_alter_eq, Hpm.
    split; [done|]. split; [done|]. intros old' [= <-].
    apply elem_of_app. right. by apply list_elem_of_singleton.
  - unfold modify_polymorphic_map, modify, bind, ret in Hrun.
    injection Hrun as <-. simpl. rewrite list_lookup_alter_eq, Hpm.
    by repeat split.
Qed.


(** C7, as the code has it.  A mapper constructed with a polymorphic
    identity is the entry of its polymorphic map under that identity,
    whatever the map held there before; the map of an inheriting mapper
    is the map of its parent, and when that map had an entry under the
    identity the reassignment is logged as a warning.  (A mapper
    without parent writes its entry without a warning.) *)
Theorem polymorphic_identity_registered (a : MapperArgs) (s s' : St)
    (d : mapper_id) (ident : string) :
  Mapper__init__ a s = (Returns d, s') →
  a_polymorphic_identity a = Some ident →
  (∀ pm, a_inherits a = None → a__polymorphic_map a = Some pm →
         pm < length (polymorphic_maps s)) →
  ∃ md pmap,
    mappers s' !! d = Some md
    ∧ polymorphic_maps s' !! polymorphic_map md = Some pmap
    ∧ pmap !! ident = Some d
    ∧ ∀ p par, a_inherits a = Some p → mappers s !! p = Some par →
        polymorphic_map md = polymorphic_map par
        ∧ ∀ old,
            polymorphic_maps s !! polymorphic_map par ≫= (λ m, m !! ident) = Some old →
            reassigning ident old d ∈ log s'.
Proof.
  intros Hrun Hident Hvalid.
  apply Mapper__init___returns_inv in Hrun
    as (-> & pm & s1 & sa & sb & sc & sd & se & _ & Hms & Hlog & Hpm
        & Hstep1 & Hstep2 & Hstep3 & Hstep4 & Hstep5 & Htail).
  set (self := length (mappers s)) in *.
  assert (mappers s1 !! self = Some (initial_mapper a pm)) as Hself.
  { rewrite Hms. apply lookup_new_mapper. }
  (* what holds when [_configure_inheritance] has returned *)
  cut (∃ pmid pmap,
         field_is polymorphic_map self pmid sa
         ∧ polymorphic_maps sa !! pmid = Some pmap
         ∧ pmap !! ident = Some self
         ∧ ∀ p par, a_inherits a = Some p → mappers s !! p = Some par →
             pmid = polymorphic_map par
             ∧ ∀ old,
                 polymorphic_maps s !! polymorphic_map par ≫= (λ m, m !! ident) = Some old →
                 reassigning ident old self ∈ log sa).
  { intros (pmid & pmap & Hfield & Hmap & Hentry & Hparent).
    assert (field_is polymorphic_map self pmid s'
            ∧ polymorphic_maps s' !! pmid = Some pmap
            ∧ ∀ ev, ev ∈ log sa → ev ∈ log s') as (Hfield' & Hmap' & Hlog').
    { split; [|split].
      - carry (field_is polymorphic_map self pmid) Htail.
        carry (field_is polymorphic_map self pmid) Hstep5.
        carry (field_is polymorphic_map self pmid) Hstep4.
        carry (field_is polymorphic_map self pmid) Hstep3.
        by carry (field_is polymorphic_map self pmid) Hstep2.
      - carry (λ s, polymorphic_maps s !! pmid = Some pmap) Htail.
        carry (λ s, polymorphic_maps s !! pmid = Some pmap) Hstep5.
        carry (λ s, polymorphic_maps s !! pmid = Some pmap) Hstep4.
        carry (λ s, polymorphic_maps s !! pmid = Some pmap) Hstep3.
        by carry (λ s, polymorphic_maps s !! pmid = Some pmap) Hstep2.
      - intros ev Hev.
        carry (λ s, ev ∈ log s) Htail. carry (λ s, ev ∈ log s) Hstep5.
        carry (λ s, ev ∈ log s) Hstep4. carry (λ s, ev ∈ log s) Hstep3.
        by carry (λ s, ev ∈ log s) Hstep2. }
    apply field_is_lookup in Hfield' as (md & Hmd & <-).
    exists md, pmap. split; [done|]. split; [done|]. split; [done|].
    intros p par Hinh Hpar. destruct (Hparent p par Hinh Hpar) as [-> Hwarn].
    split; [done|]. intros old Hold. apply Hlog', Hwarn, Hold. }
  pose proof (lookup_modify_eq (set__inheriting_mappers (λ _, [])) _ _ _ Hself) as Hself'.
  destruct (a_inherits a) as [p|] eqn:Hinh.
  - (* an inheriting mapper *)
    destruct (_configure_inheritance_returns_inv _ p _ _ _ Hstep1 Hself Hinh)
      as (s2 & s3 & s4 & s5 & Hcheck & Hsel & Hic & Hprop & Hrest).
    bind_inv Hprop as [] s4' Hversion.
    assert (field_is polymorphic_identity self (Some ident) s4') as Hi4.
    { carry (field_is polymorphic_identity self (Some ident)) Hversion.
      carry (field_is polymorphic_identity self (Some ident)) Hic.
      carry (field_is polymorphic_identity self (Some ident)) Hsel.
      carry (field_is polymorphic_identity self (Some ident)) Hcheck.
      unfold field_is. rewrite Hself'. simpl. by rewrite Hident. }
    destruct (field_is_lookup _ _ _ _ Hi4) as (me4 & Hme4 & _).
    destruct (propagate_from_parent_map _ _ _ _ _ Hprop Hme4)
      as (par4 & Hpar4 & Hmap5 & Hpmaps5 & Hlog5).
    assert (field_is polymorphic_identity self (Some ident) s5) as Hi5.
    { by carry (field_is polymorphic_identity self (Some ident)) Hprop. }
    apply field_is_lookup in Hi5 as (me5 & Hme5 & Hident5).
    assert (polymorphic_map me5 = polymorphic_map par4) as Hmap5'.
    { apply field_is_lookup in Hmap5 as (? & ? & ?). congruence. }
    bind_inv Hrest as [] s6 Hreg.
    destruct (register_polymorphic_identity_run _ _ _ _ _ Hreg Hme5 Hident5)
      as (pm5 & Hpm5 & Hpm6 & Hms6 & Hwarn).
    rewrite Hmap5' in Hpm5, Hpm6.
    exists (polymorphic_map par4), (<[ident := self]> pm5).
    split; [|split; [|split]].
    + carry (field_is polymorphic_map self (polymorphic_map par4)) Hrest.
      unfold field_is. rewrite Hms6, Hme5. simpl. by rewrite Hmap5'.
    + by carry (λ s, polymorphic_maps s !! polymorphic_map par4
                     = Some (<[ident := self]> pm5)) Hrest.
    + apply lookup_insert_eq.
    + intros p' par [= <-] Hpar.
      assert (mappers s1 !! p = Some par) as Hpar1.
      { rewrite Hms. by apply lookup_app_l_Some. }
      assert (self ≠ p) as Hne.
      { apply lookup_lt_Some in Hpar. unfold self. lia. }
      assert (field_is polymorphic_map p (polymorphic_map par) s4') as Hp4.
      { carry (field_is polymorphic_map p (polymorphic_map par)) Hversion.
        carry (field_is polymorphic_map p (polymorphic_map par)) Hic.
        carry (field_is polymorphic_map p (polymorphic_map par)) Hsel.
        carry (field_is polymorphic_map p (polymorphic_map par)) Hcheck.
        unfold field_is. by rewrite lookup_modify_ne, Hpar1. }
      apply field_is_lookup in Hp4 as (par4' & Hpar4' & Heq).
      assert (polymorphic_map par4 = polymorphic_map par) as Hsame by congruence.
      split; [done|]. intros old Hold.
      destruct (polymorphic_maps s !! polymorphic_map par) as [pm0|] eqn:Hpm0; [|done].
      simpl in Hold.
      assert (polymorphic_maps s5 !! polymorphic_map par = Some pm0) as Hpm0'.
      { rewrite Hpmaps5.
        carry (λ s, polymorphic_maps s !! polymorphic_map par = Some pm0) Hversion.
        carry (λ s, polymorphic_maps s !! polymorphic_map par = Some pm0) Hic.
        carry (λ s, polymorphic_maps s !! polymorphic_map par = Some pm0) Hsel.
        carry (λ s, polymorphic_maps s !! polymorphic_map par = Some pm0) Hcheck.
        simpl. destruct (a__polymorphic_map a); destruct Hpm as [_ ->]; [done|].
        by apply lookup_app_l_Some. }
      rewrite Hsame in Hpm5. assert (pm5 = pm0) as -> by congruence.
      carry (λ s, reassigning ident old self ∈ log s) Hrest.
      by apply Hwarn.
  - (* a mapper without parent *)
    assert (∃ pm0, polymorphic_maps s1 !! pm = Some pm0) as [pm0 Hpm0].
    { destruct (a__polymorphic_map a) as [m|] eqn:Hm; destruct Hpm as [-> ->].
      - apply lookup_lt_is_Some_2. by apply Hvalid.
      - exists ∅. by apply list_lookup_middle. }
    unfold _configure_inheritance in Hstep1.
    rewrite bind_modify_mapper in Hstep1.
    rewrite (bind_returns _ _ _ _ _ (get_mapper_returns _ _ _ Hself')) in Hstep1.
    simpl in Hstep1. rewrite Hinh in Hstep1.
    bind_inv Hstep1 as [] s2 Hbase. unfold configure_base in Hbase.
    rewrite (bind_returns _ _ _ _ _ (get_mapper_returns _ _ _ Hself')) in Hbase.
    rewrite !bind_modify_mapper in Hbase. simpl in Hbase. rewrite Hident in Hbase.
    unfold modify_polymorphic_map, modify_mapper, modify, bind in Hbase.
    injection Hbase as <-.
    exists pm, (<[ident := self]> pm0). split; [|split; [|split]].
    + carry (field_is polymorphic_map self pm) Hstep1.
      unfold field_is. simpl.
      rewrite !(fmap_lookup_alter_keeps polymorphic_map) by (intros ?; reflexivity).
      by rewrite Hself.
    + carry (λ s, polymorphic_maps s !! pm = Some (<[ident := self]> pm0)) Hstep1.
      simpl. by rewrite list_lookup_alter_eq, Hpm0.
    + apply lookup_insert_eq.
    + by intros p par [=].
Qed.


(** ** The configuration pass *)

Lemma any_new_mappers_none regs s :
  (∀ reg, reg ∈ regs → new_mappers_flag s reg = Some false) →
  any_new_mappers regs s = (Returns false, s).
Proof.
  induction regs as [|reg regs IH]; intros Hflags; simpl; [done|].
  assert (new_mappers_flag s reg = Some false) as Hreg by (apply Hflags; left).
  unfold new_mappers_flag in Hreg.
  destruct (registries s !! reg) as [r|] eqn:Hr; [|done].
  injection Hreg as Hreg.
  unfold get_registry, bind at 1 2, gets. rewrite Hr. simpl. rewrite Hreg.
  apply IH. intros reg' Hin. apply Hflags. by right.
Qed.

(** *** The registries of a pass *)

Lemma visit_fold_spec (visit : registry_id → list registry_id * list registry_id
                                → list registry_id * list registry_id) :
  (∀ r st P, visited_inv P st →
     visited_inv P (visit r st) ∧ r ∈ (visit r st).1 ∧ visited_le st (visit r st)) →
  ∀ l st P, visited_inv P st →
    visited_inv P (foldl (λ st d, visit d st) st l)
    ∧ (∀ x, x ∈ l → x ∈ (foldl (λ st d, visit d st) st l).1)
    ∧ visited_le st (foldl (λ st d, visit d st) st l).
Proof.
  intros Hvisit. induction l as [|d l IH]; intros st P Hinv; simpl.
  - split; [done|]. split; [|by split]. intros x Hx. by apply elem_of_nil in Hx.
  - destruct (Hvisit d st P Hinv) as (Hinv1 & Hd & Hle1 & Hle1').
    destruct (IH (visit d st) P Hinv1) as (Hinv2 & Hl & Hle2 & Hle2').
    split; [done|]. split; [|split; eauto].
    intros x Hx. apply elem_of_cons in Hx as [->|Hx]; eauto.
Qed.

Lemma visit_registry_spec rs fuel :
  ∀ r st P, visited_inv P st →
    visited_inv P (visit_registry fuel rs r st)
    ∧ r ∈ (visit_registry fuel rs r st).1
    ∧ visited_le st (visit_registry fuel rs r st).
Proof.
  induction fuel as [|fuel IH]; intros r st P Hinv; simpl.
  - case_bool_decide as Hr; [by repeat split|]. simpl. split; [|split; [left|split]].
    + intros x Hx. simpl in *. apply elem_of_cons in Hx as [->|Hx].
      * left. apply elem_of_app. right. by apply list_elem_of_singleton.
      * destruct (Hinv x Hx); [left|by right]. apply elem_of_app. by left.
    + intros x Hx. simpl. by right.
    + intros x Hx. simpl. apply elem_of_app. by left.
  - case_bool_decide as Hr; [by repeat split|].
    destruct (visit_fold_spec (visit_registry fuel rs) IH
                (default [] (_dependencies <$> rs !! r)) (r :: st.1, st.2)
                (λ x, P x ∨ x = r)) as (Hinv' & _ & Hle & Hle').
    { intros x Hx. simpl in *. apply elem_of_cons in Hx as [->|Hx]; [by right; right|].
      destruct (Hinv x Hx); [by left|by right; left]. }
    simpl in *. split; [|split; [|split]].
    + intros x Hx. simpl. destruct (Hinv' x Hx) as [?|[?| ->]].
      * left. apply elem_of_app. by left.
      * by right.
      * left. apply elem_of_app. right. by apply list_elem_of_singleton.
    + apply Hle. left.
    + intros x Hx. simpl. apply Hle. by right.
    + intros x Hx. simpl. apply elem_of_app. left. by apply Hle'.
Qed.

(** A pass goes through every registry it was called with. *)
Lemma recurse_with_dependencies_includes rs regs reg :
  reg ∈ regs → reg ∈ _recurse_with_dependencies rs regs.
Proof.
  intros Hreg. unfold _recurse_with_dependencies.
  destruct (visit_fold_spec (visit_registry (S (length rs)) rs)
              (visit_registry_spec rs _) regs ([], []) (λ _, False))
    as (Hinv & Hin & _).
  { intros x Hx. by apply elem_of_nil in Hx. }
  destruct (Hinv reg (Hin reg Hreg)); [done|done].
Qed.


(** *** A pass in which no hook asks to skip *)

Lemma never_skips_run {A} (c : M A) s r s' :
  preserves (λ st, before_mapper_configured <$> mappers st
                   = before_mapper_configured <$> mappers s) c →
  c s = (r, s') → never_skips s → never_skips s'.
Proof.
  intros Hc Hrun Hs. unfold never_skips.
  by rewrite (preserves_run _ _ _ _ _ Hc Hrun eq_refl).
Qed.

Ltac carry_hooks H :=
  lazymatch type of H with
  | ?c ?s0 = _ =>
      let Hp := fresh in
      assert (preserves (λ st, before_mapper_configured <$> mappers st
                               = before_mapper_configured <$> mappers s0) c)
        as Hp by preserves_tac;
      apply (never_skips_run c s0 _ _ Hp H); clear Hp
  end.

Lemma run_before_mapper_configured_no_skip mapper hooks :
  Forall (λ h, h ≠ HookReturns true) hooks →
  ∀ i s b s', run_before_mapper_configured mapper i hooks s = (Returns b, s') → b = false.
Proof.
  induction 1 as [|fn hooks Hfn _ IH]; intros i s b s' Hrun; simpl in Hrun.
  - unfold ret in Hrun. by injection Hrun as <-.
  - bind_inv Hrun as [] s0 Hemit. destruct fn as [[|]|e]; [done|by eapply IH|done].
Qed.

Lemma configure_mapper_no_skip mapper s b s' :
  never_skips s → configure_mapper mapper s = (Returns b, s') → b = false.
Proof.
  intros Hs Hrun. unfold configure_mapper in Hrun.
  bind_inv Hrun as mp s0 Hget. apply get_mapper_returns_inv in Hget as [-> Hmp].
  bind_inv Hrun as skip s0 Hhooks.
  assert (skip = false) as ->.
  { eapply run_before_mapper_configured_no_skip; [|done].
    unfold never_skips in Hs. rewrite Forall_lookup in Hs.
    apply (Hs mapper). by rewrite list_lookup_fmap, Hmp. }
  bind_inv Hrun as mp' s1 Hget. destruct (_configure_failed mp'); [done|].
  bind_inv Hrun as [] s2 Hfinish. unfold ret in Hrun. by injection Hrun as <-.
Qed.

Lemma configure_pending_no_skip l :
  ∀ has_skip s b s',
    never_skips s → configure_pending l has_skip s = (Returns b, s') → b = has_skip.
Proof.
  induction l as [|m l IH]; intros has_skip s b s' Hs Hrun; simpl in Hrun.
  - unfold ret in Hrun. by injection Hrun as <-.
  - bind_inv Hrun as pending s0 Hpending.
    assert (never_skips s0) as Hs0 by (by carry_hooks Hpending).
    destruct pending; [|by eapply IH].
    bind_inv Hrun as skip s1 Hmapper.
    rewrite (configure_mapper_no_skip _ _ _ _ Hs0 Hmapper) in Hrun.
    rewrite orb_false_r in Hrun. eapply IH; [|done]. by carry_hooks Hmapper.
Qed.

Lemma configure_registry_clears orig cascade reg s s' :
  never_skips s →
  configure_registry orig cascade reg s = (Returns tt, s') →
  new_mappers_flag s' reg = Some false.
Proof.
  intros Hs Hrun. unfold configure_registry in Hrun.
  bind_inv Hrun as pending s0 Hpending.
  assert (never_skips s0) as Hs0 by (by carry_hooks Hpending).
  bind_inv Hrun as has_skip s1 Hconf.
  rewrite (configure_pending_no_skip _ _ _ _ _ Hs0 Hconf) in Hrun. simpl in Hrun.
  unfold modify_registry, modify, bind at 1 in Hrun.
  bind_inv Hrun as r s2 Hget. unfold get_registry in Hget.
  bind_inv Hget as o s2' Hgets. unfold gets in Hgets. injection Hgets as <- <-.
  apply from_option_returns_inv in Hget as [-> Hr]. simpl in Hr.
  assert (s' = set_registries (alter (set__new_mappers (λ _, false)) reg) s1) as ->.
  { unfold when, raise, ret in Hrun.
    destruct (negb cascade && _); [done|]. by injection Hrun. }
  unfold new_mappers_flag. simpl. rewrite Hr. simpl.
  rewrite list_lookup_alter_eq in Hr. destruct (registries s1 !! reg); by simplify_eq/=.
Qed.

Lemma configure_registries_clear orig cascade l :
  ∀ s s', never_skips s →
    for_each l (configure_registry orig cascade) s = (Returns tt, s') →
    ∀ reg, reg ∈ l → new_mappers_flag s' reg = Some false.
Proof.
  induction l as [|r l IH]; intros s s' Hs Hrun reg Hreg; simpl in Hrun.
  { by apply elem_of_nil in Hreg. }
  bind_inv Hrun as [] s1 Hr.
  assert (never_skips s1) as Hs1 by (by carry_hooks Hr).
  destruct (decide (reg ∈ l)) as [Hin|Hnotin]; [by eapply IH|].
  apply elem_of_cons in Hreg as [->|?]; [|done].
  carry (λ s, new_mappers_flag s r = Some false) Hrun.
  exact (configure_registry_clears _ _ _ _ _ Hs Hr).
Qed.

Lemma any_new_mappers_state regs s r s' : any_new_mappers regs s = (r, s') → s' = s.
Proof.
  revert r s'. induction regs as [|reg regs IH]; intros r s' Hrun; simpl in Hrun.
  - unfold ret in Hrun. by injection Hrun.
  - unfold get_registry, bind at 1 2, gets in Hrun.
    destruct (registries s !! reg) as [x|]; simpl in Hrun; [|by injection Hrun].
    destruct (_new_mappers x); [by injection Hrun|by eapply IH].
Qed.

Lemma any_new_mappers_false_inv regs s s' :
  any_new_mappers regs s = (Returns false, s') →
  ∀ reg, reg ∈ regs → new_mappers_flag s reg = Some false.
Proof.
  induction regs as [|reg regs IH]; intros Hrun reg' Hreg; simpl in Hrun.
  { by apply elem_of_nil in Hreg. }
  unfold get_registry, bind at 1 2, gets in Hrun.
  destruct (registries s !! reg) as [x|] eqn:Hx; simpl in Hrun; [|done].
  destruct (_new_mappers x) eqn:Hflag; [done|].
  apply elem_of_cons in Hreg as [->|Hreg]; [|by apply IH].
  unfold new_mappers_flag. by rewrite Hx, <- Hflag.
Qed.

Lemma try_finally_returns_inv {A} (c : M A) f s a s' :
  try_finally c (modify f) s = (Returns a, s') →
  ∃ s1, c s = (Returns a, s1) ∧ s' = f s1.
Proof.
  unfold try_finally. destruct (c s) as [[x|e|] s1]; [|done|done].
  unfold bind, modify, ret. intros [= <- <-]. eauto.
Qed.

(** A pass that returned, in a store whose hooks never ask to skip,
    leaves no registry it was called with flagged, unless it returned
    before it began. *)
Lemma configure_registries_clears regs cascade s s1 :
  never_skips s →
  _configure_registries regs cascade s = (Returns tt, s1) →
  s1 = s ∨ ∀ reg, reg ∈ regs → new_mappers_flag s1 reg = Some false.
Proof.
  intros Hs Hrun. unfold _configure_registries in Hrun.
  bind_inv Hrun as found s0 Hfound.
  apply any_new_mappers_state in Hfound as Hs0. subst s0.
  destruct found; simpl in Hrun; [|left; unfold ret in Hrun; by injection Hrun].
  unfold bind at 1, gets in Hrun.
  destruct (_already_compiling s); [left; unfold ret in Hrun; by injection Hrun|].
  right. unfold bind at 1, modify at 1 in Hrun.
  bind_inv Hrun as completed s2 Htry.
  apply try_finally_returns_inv in Htry as (s3 & Hbody & ->).
  bind_inv Hbody as found' s0 Hfound'.
  apply any_new_mappers_state in Hfound' as Hs0. subst s0.
  destruct found'; simpl in Hbody.
  - bind_inv Hbody as [] s4 Hemit. bind_inv Hbody as [] s5 Hdo.
    unfold ret in Hbody. injection Hbody as <- <-.
    unfold emit, modify in Hemit, Hrun. injection Hemit as <-.
    simpl in Hrun. unfold bind in Hrun. injection Hrun as <-.
    unfold _do_configure_registries, registry_heap, bind at 1, gets in Hdo.
    intros reg Hreg. unfold new_mappers_flag. simpl.
    eapply (configure_registries_clear _ _ _ _ _ _ Hdo).
    by apply recurse_with_dependencies_includes.
  - unfold ret in Hbody. injection Hbody as <- <-.
    unfold ret in Hrun. injection Hrun as <-.
    intros reg Hreg. by apply (any_new_mappers_false_inv _ _ _ Hfound').
  Unshelve. exact Hs.
Qed.

(** C5.  When a configuration pass has returned and no hook asked to
    defer a mapper, the same call again returns at once: it leaves the
    store as it is, the log included, so that no property is
    initialized and no hook or notification is called a second time. *)
Theorem configure_registries_twice (regs : list registry_id) (cascade : bool)
    (s s1 : St) :
  never_skips s →
  _configure_registries regs cascade s = (Returns tt, s1) →
  _configure_registries regs cascade s1 = (Returns tt, s1).
Proof.
  intros Hs Hrun.
  destruct (configure_registries_clears _ _ _ _ Hs Hrun) as [->|Hflags]; [done|].
  unfold _configure_registries.
  by rewrite (bind_returns _ _ _ _ _ (any_new_mappers_none _ _ Hflags)).
Qed.


(** *** A mapper that failed to initialize *)

Ltac preserves_using lem := repeat first [apply lem | preserves_step].





(** ** Walking the hierarchy *)

Lemma inherits_from_trans ms a b c :
  inherits_from ms a b → inherits_from ms b c → inherits_from ms a c.
Proof.
  induction 1 as [|m mp p o Hm Hp _ IH]; [done|].
  intros Hc. eapply inherits_from_step; eauto.
Qed.

Lemma inherits_from_le ms a b :
  wf_inherits ms → inherits_from ms a b → b ≤ a.
Proof.
  intros Hwf. induction 1 as [|m mp p o Hm Hp _ IH]; [done|].
  specialize (Hwf m mp p Hm Hp). lia.
Qed.

(** The walk from a mapper of a well-founded heap, and [isa] on the same
    budget. *)
Lemma root_chain ms :
  wf_inherits ms →
  ∀ fuel m mp, m < fuel → ms !! m = Some mp →
    ∃ chain,
      iterate_to_root_loop fuel ms (Some m) = Returns (m :: chain)
      ∧ Forall (λ x, x < m) chain
      ∧ StronglySorted (λ x y, y < x) (m :: chain)
      ∧ (∀ i x y, (m :: chain) !! i = Some x → (m :: chain) !! S i = Some y →
           inherits <$> ms !! x = Some (Some y))
      ∧ (∃ root mr, last (m :: chain) = Some root ∧ ms !! root = Some mr
                    ∧ inherits mr = None)
      ∧ (∀ other, other ∈ m :: chain ↔ inherits_from ms m other)
      ∧ ∀ other, isa_loop fuel ms (Some m) other
                 = Returns (bool_decide (other ∈ m :: chain)).
Proof.
  intros Hwf. induction fuel as [|fuel IH]; intros m mp Hfuel Hm; [lia|].
  simpl. rewrite Hm. destruct (inherits mp) as [p|] eqn:Hp.
  - pose proof (Hwf m mp p Hm Hp) as Hlt.
    destruct (lookup_lt_is_Some_2 ms p) as [pp Hpp].
    { apply lookup_lt_Some in Hm. lia. }
    destruct (IH p pp ltac:(lia) Hpp)
      as (chain & -> & Hall & Hsorted & Hlinks & Hroot & Hmem & Hisa).
    exists (p :: chain). split; [done|]. split.
    { constructor; [done|]. eapply Forall_impl; [exact Hall|]. simpl. lia. }
    split.
    { constructor; [done|]. constructor; [done|].
      eapply Forall_impl; [exact Hall|]. simpl. lia. }
    split.
    { intros [|i] x y Hx Hy; simplify_eq/=.
      - by rewrite Hm; simpl; rewrite Hp.
      - by eapply Hlinks. }
    split; [exact Hroot|]. split.
    { intros other. rewrite elem_of_cons, Hmem. split.
      - intros [->|Hfrom]; [constructor|]. by eapply inherits_from_step.
      - intros Hfrom. inversion Hfrom as [|? mp' p' ? Hm' Hp' Hfrom']; subst; [by left|].
        right. rewrite Hm in Hm'. injection Hm' as <-.
        rewrite Hp in Hp'. by injection Hp' as <-. }
    intros other. destruct (decide (m = other)) as [->|Hne].
    + rewrite !bool_decide_eq_true_2; [done|by left|done].
    + rewrite (bool_decide_eq_false_2 (m = other)) by done. rewrite Hisa.
      f_equal. apply bool_decide_ext. rewrite (elem_of_cons (p :: chain)).
      split; [by right|]. intros [?|?]; [congruence|done].
  - exists []. split; [by destruct fuel|]. split; [done|]. split.
    { repeat constructor. }
    split.
    { intros [|i] x y Hx Hy; simplify_eq/=. }
    split; [by exists m, mp|]. split.
    { intros other. rewrite list_elem_of_singleton. split.
      - intros ->. constructor.
      - intros Hfrom. inversion Hfrom as [|? mp' p' ? Hm' Hp' Hfrom']; subst; [done|].
        rewrite Hm in Hm'. injection Hm' as <-. by rewrite Hp in Hp'. }
    intros other. destruct (decide (m = other)) as [->|Hne].
    + rewrite !bool_decide_eq_true_2; [done|by left|done].
    + rewrite (bool_decide_eq_false_2 (m = other)) by done.
      rewrite bool_decide_eq_false_2; [by destruct fuel|].
      rewrite list_elem_of_singleton. congruence.
Qed.

(** X1: on a heap in which every mapper inherits from an older one,
    [iterate_to_root] returns: it yields the mapper first, then the
    mapper each one inherits from, never a mapper twice, and ends at a
    mapper that inherits from none. *)
Theorem iterate_to_root_spec (s : St) (self : mapper_id) (me : Mapper) :
  wf_inherits (mappers s) →
  mappers s !! self = Some me →
  ∃ chain,
    iterate_to_root self s = (Returns (self :: chain), s)
    ∧ StronglySorted (λ x y, y < x) (self :: chain)
    ∧ (∀ i x y, (self :: chain) !! i = Some x → (self :: chain) !! S i = Some y →
         inherits <$> mappers s !! x = Some (Some y))
    ∧ (∃ root mr, last (self :: chain) = Some root ∧ mappers s !! root = Some mr
                  ∧ inherits mr = None)
    ∧ ∀ other, other ∈ self :: chain ↔ inherits_from (mappers s) self other.
Proof.
  intros Hwf Hme.
  destruct (root_chain _ Hwf (S (length (mappers s))) self me)
    as (chain & Hrun & _ & Hsorted & Hlinks & Hroot & Hmem & _); [|done|].
  { apply lookup_lt_Some in Hme. lia. }
  exists chain. split; [|done].
  unfold iterate_to_root, bind, gets, lift_outcome. by rewrite Hrun.
Qed.

Lemma isa_inherits_from (ms : list Mapper) (self other : mapper_id) (me : Mapper) :
  wf_inherits ms →
  ms !! self = Some me →
  ∃ b, isa ms self other = Returns b ∧ (b = true ↔ inherits_from ms self other).
Proof.
  intros Hwf Hme.
  destruct (root_chain _ Hwf (S (length ms)) self me)
    as (chain & _ & _ & _ & _ & _ & Hmem & Hisa); [|done|].
  { apply lookup_lt_Some in Hme. lia. }
  eexists. split; [apply Hisa|]. by rewrite bool_decide_eq_true, Hmem.
Qed.

(** X2: on such a heap [isa] returns, and it tells whether the other
    mapper is met on the way to the root. *)
Theorem isa_spec (ms : list Mapper) (self other : mapper_id) (me : Mapper) :
  wf_inherits ms →
  ms !! self = Some me →
  ∃ b, isa ms self other = Returns b
       ∧ (b = true ↔ inherits_from ms self other)
       ∧ (b = true → other ≤ self).
Proof.
  intros Hwf Hme.
  destruct (isa_inherits_from ms self other me Hwf Hme) as (b & Hrun & Hiff).
  exists b. split; [done|]. split; [done|].
  intros Hb. apply (inherits_from_le ms); [done|]. by apply Hiff.
Qed.


(** X3: between two mappers of such a heap [is_sibling] returns, the
    same either way round: they are siblings when they have the same
    base mapper and neither inherits from the other. *)
Theorem is_sibling_spec (ms : list Mapper) (a b : mapper_id) (ma mb : Mapper) :
  wf_inherits ms →
  ms !! a = Some ma →
  ms !! b = Some mb →
  ∃ r, is_sibling ms a b = Returns r
       ∧ is_sibling ms b a = Returns r
       ∧ (r = true ↔ base_mapper ma = base_mapper mb
                     ∧ ¬ inherits_from ms a b ∧ ¬ inherits_from ms b a).
Proof.
  intros Hwf Ha Hb.
  destruct (isa_inherits_from ms a b ma Hwf Ha) as (ab & Hab & Habt).
  destruct (isa_inherits_from ms b a mb Hwf Hb) as (ba & Hba & Hbat).
  unfold is_sibling, common_parent. rewrite Ha, Hb, Hab, Hba.
  destruct (decide (base_mapper ma = base_mapper mb)) as [Hbase|Hbase].
  - rewrite !bool_decide_eq_true_2 by done.
    destruct ab, ba; eexists; (split; [reflexivity|split; [reflexivity|]]);
      simpl; intuition congruence.
  - rewrite !bool_decide_eq_false_2 by congruence.
    exists false. intuition congruence.
Qed.


(** ** The hierarchy below a mapper *)

Lemma hierarchy_links_wf ms :
  wf_inherits ms → children_inherit ms → wf_hierarchy ms.
Proof.
  intros Hwf Hch m mp Hm. apply Forall_forall. intros c Hc.
  destruct (Hch m mp c Hm Hc) as (mc & Hmc & Hinh).
  split; [by eapply Hwf|by eapply lookup_lt_Some].
Qed.

Lemma descends_inherits_from ms p d :
  children_inherit ms → descends ms p d → inherits_from ms d p.
Proof.
  intros Hch. induction 1 as [|m mp c d Hm Hc _ IH]; [constructor|].
  destruct (Hch m mp c Hm Hc) as (mc & Hmc & Hinh).
  eapply inherits_from_trans; [exact IH|].
  eapply inherits_from_step; [exact Hmc|exact Hinh|constructor].
Qed.

Lemma self_and_descendants_loop_prefix ms :
  ∀ fuel stack descendants out,
    self_and_descendants_loop fuel ms stack descendants = Returns out →
    ∃ rest, out = descendants ++ rest.
Proof.
  induction fuel as [|fuel IH]; intros stack acc out Hrun.
  - destruct stack; simplify_eq/=. exists []. by rewrite app_nil_r.
  - destruct stack as [|x stack]; simplify_eq/=.
    { exists []. by rewrite app_nil_r. }
    destruct (ms !! x) as [mp|]; [|done].
    destruct (IH _ _ _ Hrun) as [rest ->]. exists (x :: rest).
    by rewrite <- app_assoc.
Qed.

(** X4: on a heap whose parent and child links agree,
    [self_and_descendants] returns the mapper first, and every mapper
    it yields [isa] that mapper and was created no earlier. *)
Theorem self_and_descendants_isa (ms : list Mapper) (self : mapper_id) :
  wf_inherits ms →
  children_inherit ms →
  self < length ms →
  ∃ rest, self_and_descendants ms self = Returns (self :: rest)
          ∧ ∀ d, d ∈ self :: rest → isa ms d self = Returns true ∧ self ≤ d.
Proof.
  intros Hwf Hch Hself.
  destruct (self_and_descendants_spec ms self (hierarchy_links_wf ms Hwf Hch) Hself)
    as (ds & Hds & Hvalid & Hmem).
  assert (∃ rest, ds = self :: rest) as [rest ->].
  { unfold self_and_descendants in Hds.
    destruct (lookup_lt_is_Some_2 ms self Hself) as [me Hme].
    rewrite hierarchy_size_S, Hme in Hds. simpl in Hds. rewrite Hme in Hds.
    apply self_and_descendants_loop_prefix in Hds as [rest ->]. by exists rest. }
  exists rest. split; [done|]. intros d Hd.
  pose proof (proj1 (Forall_forall _ _) Hvalid d Hd) as Hlt.
  destruct (lookup_lt_is_Some_2 ms d Hlt) as [md Hmd].
  apply Hmem, (descends_inherits_from _ _ _ Hch) in Hd.
  destruct (isa_inherits_from ms d self md Hwf Hmd) as (b & Hb & Hbt).
  pose proof (inherits_from_le _ _ _ Hwf Hd) as Hle.
  by apply Hbt in Hd as ->.
Qed.


(** ** Rows and identity keys *)

Lemma row_values_all_in_keys (row : gmap column pyvalue) (cols : list column) :
  if all_in_keys (dom row) cols
  then ∃ vals, row_values row cols = Returns vals ∧ length vals = length cols
  else ∃ e, row_values row cols = Raises e ∧ exn_class e = NoSuchColumnError.
Proof.
  induction cols as [|c cols IH]; simpl; [by exists []|].
  destruct (row !! c) as [v|] eqn:Hc.
  - rewrite bool_decide_eq_false_2.
    2:{ intros Hn. apply Hn, elem_of_dom. by exists v. }
    destruct (all_in_keys (dom row) cols).
    + destruct IH as (vals & -> & Hlen). exists (v :: vals). simpl. by rewrite Hlen.
    + destruct IH as (e & -> & He). by exists e.
  - rewrite bool_decide_eq_true_2.
    2:{ rewrite elem_of_dom, Hc. by intros [? ?]. }
    by eexists.
Qed.

(** X5: [_result_has_identity_key] tells what [identity_key_from_row]
    will do on a row of the result: when it says yes the key is
    returned, with one value for every primary-key column; when it says
    no, reading the row raises [NoSuchColumnError]; and an error of its
    own is the error of [identity_key_from_row] too. *)
Theorem result_has_identity_key_spec (me : Mapper) (row : gmap column pyvalue)
    (token : option pyvalue) (adapter : option (column → column)) (ic : class_id) :
  _identity_class me = Some ic →
  match _result_has_identity_key me (dom row) adapter with
  | Returns true =>
      ∃ vals, identity_key_from_row me row token adapter = Returns (ic, vals, token)
              ∧ Some (length vals) = length <$> primary_key me
  | Returns false =>
      ∃ e, identity_key_from_row me row token adapter = Raises e
           ∧ exn_class e = NoSuchColumnError
  | Raises e => identity_key_from_row me row token adapter = Raises e
  | Diverges => False
  end.
Proof.
  intros Hic. unfold _result_has_identity_key, identity_key_from_row.
  rewrite Hic. unfold adapt_columns.
  destruct adapter as [columns|], (primary_key me) as [pk|]; simpl; try done.
  - pose proof (row_values_all_in_keys row (map columns pk)) as Hrow.
    destruct (all_in_keys (dom row) (map columns pk)).
    + destruct Hrow as (vals & -> & Hlen). exists vals. split; [done|].
      by rewrite Hlen, length_map.
    + destruct Hrow as (e & -> & He). by exists e.
  - pose proof (row_values_all_in_keys row pk) as Hrow.
    destruct (all_in_keys (dom row) pk).
    + destruct Hrow as (vals & -> & Hlen). exists vals. split; [done|]. by rewrite Hlen.
    + destruct Hrow as (e & -> & He). by exists e.
Qed.


(** ** Constructions that are refused *)

(** The store in which the inheritance of a new mapper is configured. *)
Lemma allocate_then_reset a s :
  ∃ pm s1 s2,
    allocate_mapper a s = (Returns (length (mappers s)), s1)
    ∧ s2 = set_mappers (alter (set__inheriting_mappers (λ _, [])) (length (mappers s))) s1
    ∧ mappers s2 !! length (mappers s) = Some (initial_mapper a pm)
    ∧ (∀ j mj, mappers s !! j = Some mj → mappers s2 !! j = Some mj)
    ∧ managers s2 = managers s
    ∧ registries s2 = registries s
    ∧ properties s2 = properties s
    ∧ log s2 = log s.
Proof.
  destruct (allocate_mapper_run a s) as (pm & s1 & Halloc & Hms & Hmg & Hrg & Hpr & Hlog & _).
  eexists pm, s1, _. split; [done|]. split; [reflexivity|].
  assert (mappers s1 !! length (mappers s) = Some (initial_mapper a pm)) as Hself.
  { rewrite Hms. apply lookup_new_mapper. }
  split; [exact (lookup_modify_eq _ _ _ _ Hself)|]. split; [|done].
  intros j mj Hj. rewrite lookup_modify_ne.
  - rewrite Hms. by apply lookup_app_l_Some.
  - apply lookup_lt_Some in Hj. lia.
Qed.

(** A construction fails where the configuration of its inheritance
    fails. *)
Lemma init_raises_at_inheritance a s s1 e s' :
  allocate_mapper a s = (Returns (length (mappers s)), s1) →
  _configure_inheritance (length (mappers s)) s1 = (Raises e, s') →
  Mapper__init__ a s = (Raises e, s').
Proof.
  intros Halloc Hrun. unfold Mapper__init__.
  rewrite (bind_returns _ _ _ _ _ Halloc). apply bind_raises.
  unfold configure_new_mapper. by apply bind_raises.
Qed.

(** X6: a mapper for a class that is not a subclass of the class of the
    mapper it inherits from is refused with an [ArgumentError]; the
    classes, the registries and the mapper it named are left as they
    were. *)
Theorem inherits_requires_subclass (a : MapperArgs) (s : St) (p : mapper_id)
    (par : Mapper) :
  a_inherits a = Some p →
  mappers s !! p = Some par →
  issubclass (a_class_ a) (class_ par) = false →
  ∃ s', Mapper__init__ a s
        = (Raises (new_exn ArgumentError "Class '%s' does not inherit from '%s'"
                     [FmtStr (class_name (a_class_ a)); FmtStr (class_name (class_ par))]),
           s')
        ∧ mappers s' !! p = Some par
        ∧ managers s' = managers s
        ∧ registries s' = registries s.
Proof.
  intros Hinh Hpar Hsub.
  destruct (allocate_then_reset a s)
    as (pm & s1 & s2 & Halloc & Hs2 & Hself & Hold & Hmg & Hrg & _).
  exists s2. split; [|by auto].
  apply (init_raises_at_inheritance _ _ _ _ _ Halloc).
  unfold _configure_inheritance. rewrite bind_modify_mapper, <- Hs2.
  run_get Hself. simpl. rewrite Hinh. apply bind_raises.
  unfold configure_inheriting. apply bind_raises.
  unfold check_inheritance. run_get Hself. run_get (Hold _ _ Hpar).
  simpl. by rewrite Hsub.
Qed.

(** X7: a primary mapper may only inherit from a primary mapper, and a
    secondary mapper from a secondary one; otherwise the construction
    is refused with an [ArgumentError] that names the kind of the new
    mapper. *)
Theorem inherits_requires_same_kind (a : MapperArgs) (s : St) (p : mapper_id)
    (par : Mapper) :
  a_inherits a = Some p →
  mappers s !! p = Some par →
  issubclass (a_class_ a) (class_ par) = true →
  a_non_primary a ≠ non_primary par →
  let np := if a_non_primary a then "non-primary" else "primary" in
  ∃ s', Mapper__init__ a s
        = (Raises (new_exn ArgumentError
                     "Inheritance of %s mapper for class '%s' is only allowed from a %s mapper"
                     [FmtStr np; FmtStr (class_name (a_class_ a)); FmtStr np]),
           s')
        ∧ mappers s' !! p = Some par
        ∧ managers s' = managers s
        ∧ registries s' = registries s.
Proof.
  intros Hinh Hpar Hsub Hnp np.
  destruct (allocate_then_reset a s)
    as (pm & s1 & s2 & Halloc & Hs2 & Hself & Hold & Hmg & Hrg & _).
  assert (length (mappers s) ≠ p) as Hne.
  { apply lookup_lt_Some in Hpar. lia. }
  eexists. split.
  - apply (init_raises_at_inheritance _ _ _ _ _ Halloc).
    unfold _configure_inheritance. rewrite bind_modify_mapper, <- Hs2.
    run_get Hself. simpl. rewrite Hinh. apply bind_raises.
    unfold configure_inheriting. apply bind_raises.
    unfold check_inheritance. run_get Hself. run_get (Hold _ _ Hpar).
    simpl. rewrite Hsub. simpl. rewrite (bind_ret tt), !bind_modify_mapper.
    rewrite bool_decide_eq_false_2 by done. simpl.
    unfold np. by destruct (a_non_primary a).
  - simpl. rewrite !list_lookup_alter_ne by done.
    split; [by apply Hold|]. by rewrite <- Hmg, <- Hrg.
Qed.



Lemma bind_diverges {A B} (c : M A) (k : A → M B) s s1 :
  c s = (Diverges, s1) → (x <- c ;; k x) s = (Diverges, s1).
Proof. unfold bind. by intros ->. Qed.

(** The configuration of the inheritance leaves the classes and the
    registries alone, and the mapper its class and its kind. *)
Lemma configure_inheritance_frame self cls np mgrs regs :
  preserves (λ st, managers st = mgrs ∧ registries st = regs
                   ∧ field_is class_ self cls st
                   ∧ field_is non_primary self np st)
    (_configure_inheritance self).
Proof. preserves_tac. Qed.

Lemma field_is_eq {T} (proj : Mapper → T) j v s m :
  field_is proj j v s → mappers s !! j = Some m → proj m = v.
Proof. unfold field_is. intros Hf Hm. rewrite Hm in Hf. by injection Hf. Qed.

(** The store in which the class of a new mapper is instrumented, when
    the configuration of its inheritance returned. *)
Lemma before_instrumentation a s s1 r s2 :
  allocate_mapper a s = (Returns (length (mappers s)), s1) →
  _configure_inheritance (length (mappers s)) s1 = (r, s2) →
  managers s2 = managers s
  ∧ registries s2 = registries s
  ∧ ∃ me, mappers s2 !! length (mappers s) = Some me
          ∧ class_ me = a_class_ a ∧ non_primary me = a_non_primary a.
Proof.
  intros Halloc Hrun.
  destruct (allocate_mapper_run a s) as (pm & s1' & Halloc' & Hms & Hmg & Hrg & _).
  rewrite Halloc in Halloc'. injection Halloc' as <-.
  assert (mappers s1 !! length (mappers s) = Some (initial_mapper a pm)) as Hself.
  { rewrite Hms. apply lookup_new_mapper. }
  pose proof (preserves_run _ _ _ _ _
                (configure_inheritance_frame (length (mappers s)) (a_class_ a)
                   (a_non_primary a) (managers s) (registries s)) Hrun)
    as (Hmg2 & Hrg2 & Hcls & Hnp).
  { repeat split; [done|done|..]; unfold field_is; by rewrite Hself. }
  split; [done|]. split; [done|].
  destruct (field_is_lookup _ _ _ _ Hcls) as (me & Hme & Hc).
  exists me. split; [done|]. split; [done|]. by eapply field_is_eq.
Qed.

(** A construction whose class instrumentation raises whenever it is
    reached: it never returns, and it leaves the classes and the
    registries as they were. *)
Lemma refused_by_instrumentation a s e :
  (∀ s2 me, managers s2 = managers s →
     mappers s2 !! length (mappers s) = Some me →
     class_ me = a_class_ a → non_primary me = a_non_primary a →
     _configure_class_instrumentation (length (mappers s)) s2 = (Raises e, s2)) →
  (∀ d s', Mapper__init__ a s ≠ (Returns d, s'))
  ∧ managers (Mapper__init__ a s).2 = managers s
  ∧ registries (Mapper__init__ a s).2 = registries s
  ∧ ∀ s2, _configure_inheritance (length (mappers s)) (allocate_mapper a s).2
          = (Returns tt, s2) →
      Mapper__init__ a s = (Raises e, s2).
Proof.
  intros Hinstr.
  destruct (allocate_mapper_run a s) as (pm & s1 & Halloc & _).
  assert (∀ s2, _configure_inheritance (length (mappers s)) s1 = (Returns tt, s2) →
            Mapper__init__ a s = (Raises e, s2)) as Hrefused.
  { intros s2 Hrun.
    destruct (before_instrumentation _ _ _ _ _ Halloc Hrun)
      as (Hmg2 & _ & me & Hme & Hcls & Hnp2).
    unfold Mapper__init__. rewrite (bind_returns _ _ _ _ _ Halloc). apply bind_raises.
    unfold configure_new_mapper. rewrite (bind_returns _ _ _ _ _ Hrun). apply bind_raises.
    by eapply Hinstr. }
  rewrite Halloc. simpl.
  destruct (_configure_inheritance (length (mappers s)) s1) as [r s2] eqn:Hrun.
  destruct (before_instrumentation _ _ _ _ _ Halloc Hrun) as (Hmg2 & Hrg2 & _).
  assert (Mapper__init__ a s = (match r with Returns _ => Raises e | Raises e' => Raises e'
                                | Diverges => Diverges end, s2)) as ->.
  { destruct r as [[]|e'|].
    - by apply Hrefused.
    - by apply (init_raises_at_inheritance _ _ _ _ _ Halloc).
    - unfold Mapper__init__. rewrite (bind_returns _ _ _ _ _ Halloc).
      apply bind_diverges. unfold configure_new_mapper. by apply bind_diverges. }
  split.
  { intros d s' Heq. destruct r; inversion Heq. }
  split; [done|]. split; [done|].
  intros s2' Hret. injection Hret as -> <-. done.
Qed.

(** X9: a class has one primary mapper.  The construction of a second
    one never returns and leaves the classes and the registries as they
    were; when the inheritance of the new mapper is in order, it is
    refused with the [ArgumentError] of the class instrumentation. *)
Theorem second_primary_mapper_refused (a : MapperArgs) (s : St) (mg : ClassManager) :
  a_non_primary a = false →
  managers s !! a_class_ a = Some mg →
  is_mapped mg = true →
  (∀ d s', Mapper__init__ a s ≠ (Returns d, s'))
  ∧ managers (Mapper__init__ a s).2 = managers s
  ∧ registries (Mapper__init__ a s).2 = registries s
  ∧ ∀ s2, _configure_inheritance (length (mappers s)) (allocate_mapper a s).2
          = (Returns tt, s2) →
      Mapper__init__ a s
      = (Raises (new_exn ArgumentError "Class '%s' already has a primary mapper defined. "
                   [FmtClass (a_class_ a)]), s2).
Proof.
  intros Hnp Hmg Hmapped. apply refused_by_instrumentation.
  intros s2 me Hmg2 Hme Hcls Hnp2.
  unfold _configure_class_instrumentation. run_get Hme.
  unfold bind at 1, gets. rewrite Hnp2, Hnp, Hcls, Hmg2, Hmg.
  unfold instrument_primary. apply bind_raises. by rewrite Hmapped, Hcls.
Qed.

(** X10: a secondary mapper needs the primary mapper of its class.  When
    the class has none, the construction never returns and leaves the
    classes and the registries as they were; when the inheritance of the
    new mapper is in order, it is refused with the
    [InvalidRequestError] of the class instrumentation. *)
Theorem secondary_mapper_requires_primary (a : MapperArgs) (s : St) :
  a_non_primary a = true →
  managers s !! a_class_ a ≫= mgr_mapper = None →
  (∀ d s', Mapper__init__ a s ≠ (Returns d, s'))
  ∧ managers (Mapper__init__ a s).2 = managers s
  ∧ registries (Mapper__init__ a s).2 = registries s
  ∧ ∀ s2, _configure_inheritance (length (mappers s)) (allocate_mapper a s).2
          = (Returns tt, s2) →
      Mapper__init__ a s
      = (Raises (new_exn InvalidRequestError
                   "Class %s has no primary mapper configured.  Configure a primary mapper first before setting up a non primary Mapper."
                   [FmtClass (a_class_ a)]), s2).
Proof.
  intros Hnp Hnone. apply refused_by_instrumentation.
  intros s2 me Hmg2 Hme Hcls Hnp2.
  unfold _configure_class_instrumentation. run_get Hme.
  unfold bind at 1, gets. rewrite Hnp2, Hnp, Hcls, Hmg2.
  unfold instrument_non_primary, no_primary_mapper. rewrite Hcls.
  destruct (managers s !! a_class_ a) as [mg|]; [|done].
  simpl in Hnone. by rewrite Hnone.
Qed.


(** ** Constructions that return *)

(** Carries the goal, a statement about the store a run ends in, back
    over the run [H]. *)
Ltac carry_on H :=
  lazymatch type of H with
  | ?c _ = (_, ?s1) =>
      pattern s1;
      lazymatch goal with
      | |- ?I s1 =>
          let Hp := fresh in
          assert (preserves I c) as Hp by preserves_tac;
          apply (preserves_run I c _ _ _ Hp H); clear Hp; cbv beta
      end
  end.

(** The inheritance of a mapper that inherits from none. *)
Lemma configure_inheritance_base self s s' me :
  _configure_inheritance self s = (Returns tt, s') →
  mappers s !! self = Some me →
  inherits me = None →
  local_table me ≠ None
  ∧ field_is base_mapper self (Some self) s'
  ∧ field_is persist_selectable self (local_table me) s'
  ∧ field_is _identity_class self (Some (class_ me)) s'
  ∧ field_is _inheriting_mappers self [] s'
  ∧ field_is inherits self None s'
  ∧ field_is local_table self (local_table me) s'
  ∧ field_is single self (single me) s'.
Proof.
  intros Hrun Hme Hinh. unfold _configure_inheritance in Hrun.
  rewrite bind_modify_mapper in Hrun.
  pose proof (lookup_modify_eq (set__inheriting_mappers (λ _, [])) _ _ _ Hme) as Hme'.
  rewrite (bind_returns _ _ _ _ _ (get_mapper_returns _ _ _ Hme')) in Hrun.
  simpl in Hrun. rewrite Hinh in Hrun.
  bind_inv Hrun as [] s2 Hbase.
  assert (field_is base_mapper self (Some self) s2
          ∧ field_is persist_selectable self (local_table me) s2
          ∧ field_is _identity_class self (Some (class_ me)) s2
          ∧ field_is _inheriting_mappers self [] s2
          ∧ field_is inherits self None s2
          ∧ field_is local_table self (local_table me) s2
          ∧ field_is single self (single me) s2) as Hfields.
  { unfold configure_base in Hbase.
    rewrite (bind_returns _ _ _ _ _ (get_mapper_returns _ _ _ Hme')) in Hbase.
    rewrite !bind_modify_mapper in Hbase. simpl in Hbase.
    destruct (polymorphic_identity me); unfold bind, modify_polymorphic_map, modify,
      modify_mapper, ret in Hbase; simpl in Hbase; injection Hbase as <-;
      unfold field_is; simpl; rewrite !list_lookup_alter_eq, Hme; simpl;
      by rewrite Hinh. }
  destruct Hfields as (Hb & Hps & Hic & Hch & Hin & Hloc & Hsg).
  unfold require_persist_selectable in Hrun.
  destruct (field_is_lookup _ _ _ _ Hps) as (m2 & Hm2 & Hps2).
  rewrite (bind_returns _ _ _ _ _ (get_mapper_returns _ _ _ Hm2)) in Hrun.
  rewrite Hps2 in Hrun. unfold when, raise, ret in Hrun.
  destruct (bool_decide (local_table me = None)) eqn:Hlt; [done|].
  injection Hrun as <-. apply bool_decide_eq_false in Hlt. done.
Qed.

(** X11: a mapper that inherits from none, once constructed, is its own
    base mapper, persists to the table it was given, inherits from none
    and has no inheriting mappers; a primary one has its own class as
    identity class. *)
Theorem base_mapper_constructed (a : MapperArgs) (s s' : St) (d : mapper_id) :
  Mapper__init__ a s = (Returns d, s') →
  a_inherits a = None →
  ∃ md t, mappers s' !! d = Some md
          ∧ a_local_table a = Some t
          ∧ persist_selectable md = Some t
          ∧ local_table md = Some t
          ∧ base_mapper md = Some d
          ∧ inherits md = None
          ∧ _inheriting_mappers md = []
          ∧ single md = false
          ∧ (a_non_primary a = false → _identity_class md = Some (a_class_ a)).
Proof.
  intros Hrun Hinh.
  destruct (Mapper__init___returns_inv _ _ _ _ Hrun)
    as (-> & pm & s1 & sa & sb & sc & sd & se & Halloc & Hms & _ & _
        & Hstep1 & Hstep2 & Hstep3 & Hstep4 & Hstep5 & Htail).
  assert (mappers s1 !! length (mappers s) = Some (initial_mapper a pm)) as Hself.
  { rewrite Hms. apply lookup_new_mapper. }
  destruct (configure_inheritance_base _ _ _ _ Hstep1 Hself Hinh)
    as (Hlt & Hb & Hps & Hic & Hch & Hin & Hloc & Hsg).
  simpl in Hlt, Hps, Hic, Hloc, Hsg. destruct (a_local_table a) as [t|] eqn:Ht; [|done].
  pose (I := λ st : St,
          field_is base_mapper (length (mappers s)) (Some (length (mappers s))) st
          ∧ field_is persist_selectable (length (mappers s)) (Some t) st
          ∧ field_is _inheriting_mappers (length (mappers s)) [] st
          ∧ field_is inherits (length (mappers s)) None st
          ∧ field_is local_table (length (mappers s)) (Some t) st
          ∧ field_is single (length (mappers s)) false st
          ∧ field_is non_primary (length (mappers s)) (a_non_primary a) st).
  assert (I sa) as HIa.
  { unfold I. do 6 (split; [done|]).
    carry (field_is non_primary (length (mappers s)) (a_non_primary a)) Hstep1.
    unfold field_is. by rewrite Hself. }
  assert (I s') as (Hb' & Hps' & Hch' & Hin' & Hlt' & Hsg' & Hnp').
  { unfold I in *. carry_on Htail. carry_on Hstep5. carry_on Hstep4. carry_on Hstep3.
    carry_on Hstep2. exact HIa. }
  destruct (field_is_lookup _ _ _ _ Hb') as (md & Hmd & Hbm).
  exists md, t. split; [done|]. split; [done|].
  split; [by eapply field_is_eq|]. split; [by eapply field_is_eq|].
  split; [done|]. split; [by eapply field_is_eq|]. split; [by eapply field_is_eq|].
  split; [by eapply field_is_eq|].
  intros Hprim.
  (* the class binding of a primary mapper leaves the identity class alone *)
  destruct HIa as (_ & _ & _ & _ & _ & _ & Hnp).
  destruct (field_is_lookup _ _ _ _ Hnp) as (ma & Hma & Hnpa).
  unfold _configure_class_instrumentation in Hstep2.
  rewrite (bind_returns _ _ _ _ _ (get_mapper_returns _ _ _ Hma)) in Hstep2.
  unfold bind at 1, gets in Hstep2. rewrite Hnpa, Hprim in Hstep2.
  assert (field_is _identity_class (length (mappers s)) (Some (a_class_ a)) s') as Hic'.
  { carry_on Htail. carry_on Hstep5. carry_on Hstep4. carry_on Hstep3. carry_on Hstep2.
    exact Hic. }
  by eapply field_is_eq.
Qed.


Lemma add_manager_keeps_mapper cls d r c :
  preserves (λ st, managers st !! cls ≫= mgr_mapper = Some d) (_add_manager r c).
Proof.
  unfold _add_manager. apply preserves_bind; [preserves_tac|intros _].
  apply preserves_modify. intros st Hst. simpl.
  destruct (decide (c = cls)) as [->|Hne].
  - rewrite lookup_alter_eq. by destruct (managers st !! cls).
  - by rewrite lookup_alter_ne.
Qed.

(** The binding of a class to its primary mapper. *)
Lemma instrument_primary_returns self me manager s s' :
  instrument_primary self me manager s = (Returns tt, s') →
  mappers s !! self = Some me →
  managers s' !! class_ me ≫= mgr_mapper = Some self
  ∧ field_is class_manager self (Some (class_ me)) s'
  ∧ (∀ mg, manager = Some mg → mgr_mapper mg = None).
Proof.
  intros Hrun Hme. unfold instrument_primary in Hrun.
  bind_inv Hrun as [] s1 Hcheck. split; [|split].
  - bind_inv Hrun as [] s2 Hemit. bind_inv Hrun as mg s3 Hreg.
    assert (managers s3 !! class_ me ≫= mgr_mapper = Some self) as Hs3.
    { unfold register_class, bind, gets, modify, ret in Hreg. simpl in Hreg.
      injection Hreg as <- <-. simpl. by rewrite lookup_insert_eq. }
    lazymatch type of Hrun with
    | ?c _ = _ =>
        assert (preserves (λ st, managers st !! class_ me ≫= mgr_mapper = Some self) c)
          as Hp by preserves_using add_manager_keeps_mapper
    end.
    exact (preserves_run _ _ _ _ _ Hp Hrun Hs3).
  - bind_inv Hrun as [] s2 Hemit. bind_inv Hrun as mg s3 Hreg.
    bind_inv Hrun as r s4 Hregistry.
    assert (mappers s4 !! self = Some me) as Hme4.
    { carry_on Hregistry. carry_on Hreg. carry_on Hemit. carry_on Hcheck. exact Hme. }
    rewrite !bind_modify_mapper in Hrun. carry_on Hrun.
    unfold field_is. simpl. by rewrite !list_lookup_alter_eq, Hme4.
  - intros mg ->. unfold when, is_mapped, raise in Hcheck.
    destruct (mgr_mapper mg); [|done].
    by rewrite bool_decide_eq_true_2 in Hcheck.
Qed.

(** X12: the construction of a primary mapper returns a new mapper to
    which the class is bound: it is the primary mapper of its class, the
    class had none before, and the mapper itself is left unconfigured
    and without a failure mark, for the configuration pass. *)
Theorem primary_mapper_registered (a : MapperArgs) (s s' : St) (d : mapper_id) :
  Mapper__init__ a s = (Returns d, s') →
  a_non_primary a = false →
  d = length (mappers s)
  ∧ managers s !! a_class_ a ≫= mgr_mapper = None
  ∧ managers s' !! a_class_ a ≫= mgr_mapper = Some d
  ∧ primary_mapper d s' = (Returns d, s')
  ∧ ∃ md, mappers s' !! d = Some md
          ∧ class_ md = a_class_ a
          ∧ class_manager md = Some (a_class_ a)
          ∧ configured md = false
          ∧ _configure_failed md = None.
Proof.
  intros Hrun Hprim.
  destruct (Mapper__init___returns_inv _ _ _ _ Hrun)
    as (-> & pm & s1 & sa & sb & sc & sd & se & Halloc & Hms & _ & _
        & Hstep1 & Hstep2 & Hstep3 & Hstep4 & Hstep5 & Htail).
  split; [done|].
  destruct (before_instrumentation _ _ _ _ _ Halloc Hstep1)
    as (Hmga & _ & ma & Hma & Hcls & Hnp).
  unfold _configure_class_instrumentation in Hstep2.
  rewrite (bind_returns _ _ _ _ _ (get_mapper_returns _ _ _ Hma)) in Hstep2.
  unfold bind at 1, gets in Hstep2. rewrite Hnp, Hprim, Hcls, Hmga in Hstep2.
  destruct (instrument_primary_returns _ _ _ _ _ Hstep2 Hma) as (Hmapped & Hcm & Hfree).
  rewrite Hcls in Hmapped, Hcm.
  split.
  { destruct (managers s !! a_class_ a) as [mg|]; [|done]. simpl. by apply Hfree. }
  assert (managers s' !! a_class_ a ≫= mgr_mapper = Some (length (mappers s))
          ∧ field_is class_manager (length (mappers s)) (Some (a_class_ a)) s'
          ∧ field_is class_ (length (mappers s)) (a_class_ a) s'
          ∧ field_is configured (length (mappers s)) false s'
          ∧ field_is _configure_failed (length (mappers s)) None s')
    as (Hmapped' & Hcm' & Hcls' & Hconf' & Hfail').
  { carry_on Htail. carry_on Hstep5. carry_on Hstep4. carry_on Hstep3.
    split; [done|]. split; [done|].
    carry_on Hstep2. split; [unfold field_is; rewrite Hma; simpl; by rewrite Hcls|].
    carry_on Hstep1. unfold field_is.
    assert (mappers s1 !! length (mappers s) = Some (initial_mapper a pm)) as ->.
    { rewrite Hms. apply lookup_new_mapper. }
    done. }
  split; [done|].
  destruct (field_is_lookup _ _ _ _ Hcm') as (md & Hmd & Hcmd).
  split.
  - unfold primary_mapper. run_get Hmd. rewrite Hcmd. simpl. rewrite (bind_ret (a_class_ a)).
    unfold bind at 1, gets.
    destruct (managers s' !! a_class_ a) as [mg|]; [|done]. simpl in *.
    rewrite (bind_ret mg). by rewrite Hmapped'.
  - exists md. split; [done|]. split; [by eapply field_is_eq|]. split; [done|].
    split; by eapply field_is_eq.
Qed.


(** ** The links of the hierarchy *)

Lemma wf_links_spec (ms : list Mapper) :
  wf_links ((λ m, (inherits m, _inheriting_mappers m)) <$> ms)
  ↔ wf_inherits ms ∧ children_inherit ms.
Proof.
  unfold wf_links, wf_inherits, children_inherit. split.
  - intros [Hwf Hch]. split.
    + intros m mp p Hm Hp. apply (Hwf m (inherits mp, _inheriting_mappers mp) p);
        [by rewrite list_lookup_fmap, Hm|done].
    + intros p mp c Hp Hc.
      destruct (Hch p (inherits mp, _inheriting_mappers mp) c) as (ec & Hec & Hinh);
        [by rewrite list_lookup_fmap, Hp|done|].
      rewrite list_lookup_fmap in Hec.
      destruct (ms !! c) as [mc|]; simplify_eq/=. by exists mc.
  - intros [Hwf Hch]. split.
    + intros m e p He Hp. rewrite list_lookup_fmap in He.
      destruct (ms !! m) as [mp|] eqn:Hm; simplify_eq/=. by eapply Hwf.
    + intros p e c He Hc. rewrite list_lookup_fmap in He.
      destruct (ms !! p) as [mp|] eqn:Hp; simplify_eq/=.
      destruct (Hch p mp c Hp Hc) as (mc & Hmc & Hinh).
      exists (inherits mc, _inheriting_mappers mc).
      by rewrite list_lookup_fmap, Hmc.
Qed.

(** A new mapper that inherits from an older one, or from none. *)
Lemma wf_links_new (l : list (option mapper_id * list mapper_id)) inh :
  wf_links l →
  (∀ p, inh = Some p → p < length l) →
  wf_links (l ++ [(inh, [])]).
Proof.
  intros [Hwf Hch] Hinh. split.
  - intros m e p He Hp. apply lookup_app_Some in He as [He|[Hlen He]].
    + by eapply Hwf.
    + apply list_lookup_singleton_Some in He as [Hm <-]. simpl in Hp.
      specialize (Hinh p Hp). lia.
  - intros p e c He Hc. apply lookup_app_Some in He as [He|[Hlen He]].
    + destruct (Hch p e c He Hc) as (ec & Hec & Hp).
      exists ec. split; [|done]. by apply lookup_app_l_Some.
    + apply list_lookup_singleton_Some in He as [Hm <-]. by apply elem_of_nil in Hc.
Qed.

(** [self._inheriting_mappers = util.WeakSequence()] *)
Lemma wf_links_reset (l : list (option mapper_id * list mapper_id)) self :
  wf_links l → wf_links (alter (λ e, (e.1, [])) self l).
Proof.
  intros [Hwf Hch]. split.
  - intros m e p He Hp. destruct (decide (self = m)) as [->|Hne].
    + rewrite list_lookup_alter_eq in He.
      destruct (l !! m) as [e0|] eqn:He0; simplify_eq/=. by eapply Hwf.
    + rewrite list_lookup_alter_ne in He by done. by eapply Hwf.
  - intros p e c He Hc.
    assert (∃ e0, l !! p = Some e0 ∧ c ∈ e0.2) as (e0 & He0 & Hc0).
    { destruct (decide (self = p)) as [->|Hne].
      - rewrite list_lookup_alter_eq in He.
        destruct (l !! p) as [e0|]; simplify_eq/=. by apply elem_of_nil in Hc.
      - rewrite list_lookup_alter_ne in He by done. by exists e. }
    destruct (Hch p e0 c He0 Hc0) as (ec & Hec & Hp).
    destruct (decide (self = c)) as [->|Hne].
    + exists (ec.1, []). by rewrite list_lookup_alter_eq, Hec.
    + exists ec. by rewrite list_lookup_alter_ne.
Qed.

(** [self.inherits._inheriting_mappers.append(self)] *)
Lemma wf_links_append (l : list (option mapper_id * list mapper_id)) self p :
  wf_links l →
  fst <$> l !! self = Some (Some p) →
  wf_links (alter (λ e, (e.1, e.2 ++ [self])) p l).
Proof.
  intros [Hwf Hch] Hself. split.
  - intros m e q He Hq. destruct (decide (p = m)) as [->|Hne].
    + rewrite list_lookup_alter_eq in He.
      destruct (l !! m) as [e0|] eqn:He0; simplify_eq/=. by eapply Hwf.
    + rewrite list_lookup_alter_ne in He by done. by eapply Hwf.
  - intros q e c He Hc.
    assert (∃ ec, l !! c = Some ec ∧ ec.1 = Some q) as (ec & Hec & Hq).
    { destruct (decide (p = q)) as [->|Hne].
      - rewrite list_lookup_alter_eq in He.
        destruct (l !! q) as [e0|] eqn:He0; simplify_eq/=.
        apply elem_of_app in Hc as [Hc|Hc]; [by eapply Hch|].
        apply list_elem_of_singleton in Hc as ->.
        destruct (l !! self) as [es|]; simplify_eq/=. by exists es.
      - rewrite list_lookup_alter_ne in He by done. by eapply Hch. }
    destruct (decide (p = c)) as [->|Hne].
    + exists (ec.1, ec.2 ++ [self]). by rewrite list_lookup_alter_eq, Hec.
    + exists ec. by rewrite list_lookup_alter_ne.
Qed.


Lemma append_child_keeps self p :
  preserves (λ st, wf_links ((λ m, (inherits m, _inheriting_mappers m)) <$> mappers st)
                   ∧ field_is inherits self (Some p) st)
    (modify_mapper p (set__inheriting_mappers (λ l, l ++ [self]))).
Proof.
  apply preserves_modify. intros st [Hl Hi]. split.
  - simpl. rewrite (list_fmap_alter _ _ (λ e, (e.1, e.2 ++ [self]))).
    + apply wf_links_append; [done|]. unfold field_is in Hi.
      rewrite list_lookup_fmap. destruct (mappers st !! self) as [x|]; [|done].
      simpl in *. by injection Hi as ->.
    + by apply Forall_forall.
  - frame_solver.
Qed.

Lemma configure_inheriting_keeps_links self p :
  preserves (λ st, wf_links ((λ m, (inherits m, _inheriting_mappers m)) <$> mappers st)
                   ∧ field_is inherits self (Some p) st)
    (configure_inheriting self p ;; require_persist_selectable self).
Proof. preserves_using append_child_keeps. Qed.

(** X13: a construction, however it ends, keeps the links of the
    hierarchy in order: every mapper inherits from an older one, and the
    mappers listed as inheriting from a mapper do inherit from it; so
    does the configuration pass.  The hierarchy is then one on which the
    walks down and up return. *)
Theorem construction_keeps_hierarchy (a : MapperArgs) (s : St) :
  wf_inherits (mappers s) →
  children_inherit (mappers s) →
  (∀ p, a_inherits a = Some p → p < length (mappers s)) →
  let s' := (Mapper__init__ a s).2 in
  wf_inherits (mappers s')
  ∧ children_inherit (mappers s')
  ∧ wf_hierarchy (mappers s')
  ∧ ∀ regs cascade,
      let s'' := (_configure_registries regs cascade s').2 in
      wf_inherits (mappers s'') ∧ children_inherit (mappers s'').
Proof.
  intros Hwf Hch Hinh s'.
  pose (I := λ st : St,
          wf_links ((λ m, (inherits m, _inheriting_mappers m)) <$> mappers st)).
  assert (I s') as Hs'.
  { destruct (allocate_mapper_run a s) as (pm & s1 & Halloc & Hms & _).
    assert (mappers s1 !! length (mappers s) = Some (initial_mapper a pm)) as Hself.
    { rewrite Hms. apply lookup_new_mapper. }
    assert (I s1) as Hs1.
    { unfold I. rewrite Hms, fmap_app. simpl. apply wf_links_new.
      - by apply wf_links_spec.
      - by rewrite length_fmap. }
    unfold s', Mapper__init__. rewrite (bind_returns _ _ _ _ _ Halloc).
    apply (final_bind I); [|intros; unfold I; preserves_tac].
    unfold configure_new_mapper.
    apply (final_bind I); [|intros; unfold I; preserves_tac].
    unfold _configure_inheritance. rewrite bind_modify_mapper.
    pose proof (lookup_modify_eq (set__inheriting_mappers (λ _, [])) _ _ _ Hself)
      as Hself2.
    run_get Hself2. simpl.
    assert (I (set_mappers
                 (alter (set__inheriting_mappers (λ _, [])) (length (mappers s))) s1))
      as Hs2.
    { unfold I. simpl. rewrite (list_fmap_alter _ _ (λ e, (e.1, []))).
      - by apply wf_links_reset.
      - by apply Forall_forall. }
    destruct (a_inherits a) as [p|] eqn:Hp.
    - apply (configure_inheriting_keeps_links (length (mappers s)) p). split; [done|].
      unfold field_is. rewrite Hself2. simpl. by rewrite Hp.
    - revert Hs2. generalize (set_mappers
                 (alter (set__inheriting_mappers (λ _, [])) (length (mappers s))) s1).
      change (preserves I (configure_base (length (mappers s)) ;;
                           require_persist_selectable (length (mappers s)))).
      unfold I. preserves_tac. }
  destruct (proj1 (wf_links_spec _) Hs') as [Hwf' Hch'].
  split; [done|]. split; [done|]. split; [by apply hierarchy_links_wf|].
  intros regs cascade s''. apply wf_links_spec.
  assert (preserves I (_configure_registries regs cascade)) as Hpass
    by (unfold I; preserves_tac).
  by apply Hpass.
Qed.


(** ** The guard of the configuration pass *)

Lemma any_new_mappers_cons reg regs s :
  any_new_mappers (reg :: regs) s
  = match registries s !! reg with
    | Some r => if _new_mappers r then (Returns true, s) else any_new_mappers regs s
    | None => (Raises (new_exn AttributeError "object has no attribute %s"
                         [FmtStr "registry"]), s)
    end.
Proof.
  simpl. unfold get_registry, bind, gets.
  destruct (registries s !! reg) as [r|]; [|done]. simpl. by destruct (_new_mappers r).
Qed.

Lemma any_new_mappers_cases regs s :
  (∃ b, any_new_mappers regs s = (Returns b, s))
  ∨ (∃ e, any_new_mappers regs s = (Raises e, s)
          ∧ ¬ Forall (λ reg, reg < length (registries s)) regs).
Proof.
  induction regs as [|reg regs IH]; [left; by exists false|].
  rewrite any_new_mappers_cons.
  destruct (registries s !! reg) as [r|] eqn:Hr.
  - destruct (_new_mappers r); [left; by exists true|].
    destruct IH as [Hb|(e & He & Hbad)]; [by left|].
    right. exists e. split; [done|]. intros Hall. apply Hbad.
    by apply Forall_cons in Hall as [_ Hall].
  - right. eexists. split; [done|]. intros Hall.
    apply Forall_cons in Hall as [Hlt _].
    apply lookup_ge_None in Hr. lia.
Qed.

(** X14: the pass releases its guard: when it was free before the pass
    and the pass returns or raises, [_already_compiling] is [False]
    afterwards. *)
Theorem configure_guard_released (regs : list registry_id) (cascade : bool)
    (s s' : St) (r : outcome unit) :
  _configure_registries regs cascade s = (r, s') →
  r ≠ Diverges →
  _already_compiling s = false →
  _already_compiling s' = false.
Proof.
  intros Hrun Hr Hfree. unfold _configure_registries in Hrun.
  unfold bind at 1 in Hrun.
  destruct (any_new_mappers regs s) as [[found|e|] s0] eqn:Hany;
    pose proof (any_new_mappers_state _ _ _ _ Hany) as ->;
    [|by injection Hrun as <- <-|by injection Hrun as <- <-].
  destruct found; simpl in Hrun; [|by injection Hrun as <- <-].
  unfold bind at 1, gets in Hrun. rewrite Hfree in Hrun.
  unfold bind at 1, modify in Hrun. unfold bind at 1, try_finally in Hrun.
  match type of Hrun with
  | context [?body (set__already_compiling (λ _, true) s)] =>
      destruct (body (set__already_compiling (λ _, true) s)) as [[completed|e|] sb]
  end.
  - unfold bind at 1, modify, ret in Hrun.
    destruct completed; simpl in Hrun; injection Hrun as <- <-; done.
  - unfold bind at 1, modify, raise in Hrun. by injection Hrun as <- <-.
  - by injection Hrun as <- <-.
Qed.

(** X15: a pass that is asked for while one is under way, as from a
    hook of that pass, does nothing: the store is left as it is, and
    the call returns when the registries it names exist. *)
Theorem configure_reentrant_noop (regs : list registry_id) (cascade : bool) (s : St) :
  _already_compiling s = true →
  ∃ r, _configure_registries regs cascade s = (r, s)
       ∧ (Forall (λ reg, reg < length (registries s)) regs → r = Returns tt).
Proof.
  intros Hbusy. unfold _configure_registries. unfold bind at 1.
  destruct (any_new_mappers_cases regs s) as [[found ->]|(e & -> & Hbad)].
  - exists (Returns tt). split; [|done].
    destruct found; simpl; [|done]. unfold bind, gets. by rewrite Hbusy.
  - exists (Raises e). split; [done|]. intros Hall. by destruct Hbad.
Qed.


(** ** Hooks that defer a mapper *)

Lemma run_before_mapper_configured_skip mapper i before after s :
  Forall (λ h, h = HookReturns false) before →
  run_before_mapper_configured mapper i (before ++ HookReturns true :: after) s
  = (Returns true,
     set_log (λ l, l ++ (EvBeforeMapperConfigured mapper <$> seq i (S (length before)))) s).
Proof.
  revert i s. induction before as [|h before IH]; intros i s Hall.
  - simpl. unfold bind, emit, modify, ret. simpl. done.
  - apply Forall_cons in Hall as [-> Hall]. simpl.
    unfold bind at 1, emit, modify. rewrite (IH (S i) _ Hall).
    f_equal. destruct s. unfold set_log. simpl. f_equal.
    by rewrite <- app_assoc.
Qed.

(** X16: a [before_mapper_configured] hook that returns [EXT_SKIP], after
    hooks that returned normally, defers the mapper: the pass moves on
    without looking at it, whether it is configured or marked as failed,
    and only the calls of the hooks are recorded. *)
Theorem skipping_hook_defers (mapper : mapper_id) (s : St) (mp : Mapper)
    (before after : list hook_fn) :
  mappers s !! mapper = Some mp →
  before_mapper_configured mp = before ++ HookReturns true :: after →
  Forall (λ h, h = HookReturns false) before →
  ∃ s', configure_mapper mapper s = (Returns true, s')
        ∧ mappers s' = mappers s
        ∧ properties s' = properties s
        ∧ registries s' = registries s
        ∧ log s' = log s ++ (EvBeforeMapperConfigured mapper <$> seq 0 (S (length before))).
Proof.
  intros Hmp Hhooks Hbefore. eexists. split.
  - unfold configure_mapper. run_get Hmp. rewrite Hhooks.
    rewrite (bind_returns _ _ _ _ _
               (run_before_mapper_configured_skip mapper 0 before after s Hbefore)).
    reflexivity.
  - done.
Qed.


(** ** What a pass leaves configured *)

Lemma settled_keeps m j :
  preserves (field_is (λ mp, implb (_ready_for_configure mp) (configured mp)) m true)
    (modify_mapper j (set_configured (λ _, true))).
Proof.
  apply preserves_modify. intros st Hst. unfold field_is in *. simpl.
  destruct (decide (j = m)) as [->|Hne].
  - rewrite list_lookup_alter_eq. destruct (mappers st !! m) as [mp|]; [|done].
    simpl. f_equal. by destruct (_ready_for_configure mp).
  - by rewrite list_lookup_alter_ne.
Qed.

Lemma mark_failed_raises mapper e s : ∃ s', mark_failed mapper e s = (Raises e, s').
Proof.
  unfold mark_failed, bind, when, raise, ret, modify_mapper, modify.
  destruct (bool_decide _); by eexists.
Qed.

(** A mapper that is not configured yet and that the pass does not skip
    is configured when [configure_mapper] returns. *)
Lemma configure_mapper_configures mapper s s' mp :
  mappers s !! mapper = Some mp →
  configured mp = false →
  configure_mapper mapper s = (Returns false, s') →
  field_is configured mapper true s'.
Proof.
  intros Hmp Hconf Hrun. unfold configure_mapper in Hrun.
  rewrite (bind_returns _ _ _ _ _ (get_mapper_returns _ _ _ Hmp)) in Hrun.
  bind_inv Hrun as skip s0 Hhooks.
  assert (mappers s0 !! mapper = Some mp) as Hmp0.
  { carry_on Hhooks. exact Hmp. }
  destruct skip; [done|].
  rewrite (bind_returns _ _ _ _ _ (get_mapper_returns _ _ _ Hmp0)) in Hrun.
  destruct (_configure_failed mp); [done|]. rewrite Hconf in Hrun. simpl in Hrun.
  bind_inv Hrun as [] s1 Htry. unfold ret in Hrun. injection Hrun as <-.
  unfold try_except in Htry.
  destruct (finish_initialization mapper s0) as [[[]|e|] sx] eqn:Hfin; [|..|done].
  2:{ destruct (mark_failed_raises mapper e sx) as [sy Hy]. by rewrite Hy in Htry. }
  injection Htry as <-. unfold finish_initialization in Hfin.
  bind_inv Hfin as [] sa Hpost. bind_inv Hfin as [] sb Hexp.
  carry_on Hfin. carry_on Hexp.
  unfold _post_configure_properties in Hpost.
  rewrite (bind_returns _ _ _ _ _ (get_mapper_returns _ _ _ Hmp0)) in Hpost.
  bind_inv Hpost as [] sp Hloop.
  assert (field_is class_ mapper (class_ mp) sp) as Hexists.
  { carry_on Hloop. unfold field_is. by rewrite Hmp0. }
  unfold modify_mapper, modify in Hpost. injection Hpost as <-.
  unfold field_is in *. simpl. rewrite list_lookup_alter_eq.
  by destruct (mappers sp !! mapper).
Qed.

Lemma is_pending_inv m s b s' :
  is_pending m s = (Returns b, s') →
  s' = s ∧ ∃ mp, mappers s !! m = Some mp
                 ∧ b = negb (configured mp) && _ready_for_configure mp.
Proof.
  intros Hrun. unfold is_pending in Hrun. bind_inv Hrun as mp s0 Hget.
  apply get_mapper_returns_inv in Hget as [-> Hmp].
  unfold ret in Hrun. injection Hrun as <- <-. eauto.
Qed.

Lemma configure_mapper_keeps_settled m mapper :
  preserves (field_is (λ mp, implb (_ready_for_configure mp) (configured mp)) m true)
    (configure_mapper mapper).
Proof. preserves_using settled_keeps. Qed.

Lemma configure_pending_settles l :
  ∀ has_skip s b s',
    never_skips s →
    configure_pending l has_skip s = (Returns b, s') →
    ∀ m, m ∈ l →
      field_is (λ mp, implb (_ready_for_configure mp) (configured mp)) m true s'.
Proof.
  induction l as [|x l IH]; intros has_skip s b s' Hs Hrun m Hm.
  { by apply elem_of_nil in Hm. }
  simpl in Hrun. bind_inv Hrun as pending s0 Hpending.
  apply is_pending_inv in Hpending as (-> & mp & Hmp & ->).
  assert (∃ hs s1, configure_pending l hs s1 = (Returns b, s') ∧ never_skips s1
                   ∧ field_is (λ mp, implb (_ready_for_configure mp) (configured mp))
                       x true s1) as (hs & s1 & Hrest & Hs1 & Hx).
  { destruct (configured mp) eqn:Hconf; simpl in Hrun.
    - exists has_skip, s. split; [done|]. split; [done|].
      unfold field_is. rewrite Hmp. simpl. rewrite Hconf.
      by destruct (_ready_for_configure mp).
    - destruct (_ready_for_configure mp) eqn:Hready; simpl in Hrun.
      + bind_inv Hrun as skip s1 Hmapper.
        pose proof (configure_mapper_no_skip _ _ _ _ Hs Hmapper) as ->.
        exists (has_skip || false), s1. split; [done|]. split.
        { by carry_hooks Hmapper. }
        assert (field_is configured x true s1
                ∧ field_is _ready_for_configure x true s1) as [Hc Hr].
        { split; [by eapply configure_mapper_configures|].
          carry_on Hmapper. unfold field_is. by rewrite Hmp, <- Hready. }
        destruct (field_is_lookup _ _ _ _ Hc) as (mx & Hmx & Hcx).
        unfold field_is. rewrite Hmx. simpl. rewrite Hcx.
        by destruct (_ready_for_configure mx).
      + exists has_skip, s. split; [done|]. split; [done|].
        unfold field_is. rewrite Hmp. simpl. by rewrite Hready. }
  destruct (decide (m ∈ l)) as [Hin|Hnotin]; [by eapply IH|].
  apply elem_of_cons in Hm as [->|?]; [|done].
  assert (preserves (field_is (λ mp, implb (_ready_for_configure mp) (configured mp))
                       x true) (configure_pending l hs)) as Hkeep.
  { apply preserves_configure_pending. intros j. apply configure_mapper_keeps_settled. }
  exact (preserves_run _ _ _ _ _ Hkeep Hrest Hx).
Qed.


Lemma mappers_to_configure_ext reg s s' ms :
  (λ r, (_managers r, _non_primary_mappers r)) <$> registries s' !! reg
  = (λ r, (_managers r, _non_primary_mappers r)) <$> registries s !! reg →
  managers s' = managers s →
  _mappers_to_configure reg s = (Returns ms, s) →
  _mappers_to_configure reg s' = (Returns ms, s').
Proof.
  intros Hreg Hmg. unfold _mappers_to_configure, get_registry, bind, gets.
  destruct (registries s !! reg) as [r|], (registries s' !! reg) as [r'|];
    simpl in *; try done.
  injection Hreg as Hm Hnp. rewrite Hmg, Hm, Hnp. unfold ret. by intros [= <-].
Qed.

Lemma clear_flag_keeps_listing reg (v : option (list class_id * list mapper_id)) mgrs j f :
  preserves (λ st, (λ r, (_managers r, _non_primary_mappers r)) <$> registries st !! reg = v
                   ∧ managers st = mgrs)
    (modify_registry j (set__new_mappers f)).
Proof.
  apply preserves_modify. intros st [Hv Hm]. split; [|done]. simpl.
  destruct (decide (j = reg)) as [->|Hne].
  - rewrite list_lookup_alter_eq. by destruct (registries st !! reg).
  - by rewrite list_lookup_alter_ne.
Qed.

Lemma configure_registry_keeps_listing reg v mgrs orig cascade r :
  preserves (λ st, (λ r, (_managers r, _non_primary_mappers r)) <$> registries st !! reg = v
                   ∧ managers st = mgrs)
    (configure_registry orig cascade r).
Proof. preserves_using clear_flag_keeps_listing. Qed.

Lemma configure_registry_settles orig cascade reg s s' ms :
  never_skips s →
  configure_registry orig cascade reg s = (Returns tt, s') →
  _mappers_to_configure reg s = (Returns ms, s) →
  ∀ m, m ∈ ms →
    field_is (λ mp, implb (_ready_for_configure mp) (configured mp)) m true s'.
Proof.
  intros Hs Hrun Hms m Hm. unfold configure_registry in Hrun.
  rewrite (bind_returns _ _ _ _ _ Hms) in Hrun.
  bind_inv Hrun as has_skip s1 Hconf.
  pose proof (configure_pending_settles _ _ _ _ _ Hs Hconf m Hm) as Hsettled.
  carry_on Hrun. exact Hsettled.
Qed.

Lemma configure_registries_settle orig cascade l :
  ∀ s s', never_skips s →
    for_each l (configure_registry orig cascade) s = (Returns tt, s') →
    ∀ reg ms m, reg ∈ l → _mappers_to_configure reg s = (Returns ms, s) → m ∈ ms →
      field_is (λ mp, implb (_ready_for_configure mp) (configured mp)) m true s'.
Proof.
  induction l as [|r l IH]; intros s s' Hs Hrun reg ms m Hreg Hms Hm; simpl in Hrun.
  { by apply elem_of_nil in Hreg. }
  bind_inv Hrun as [] s1 Hr.
  assert (never_skips s1) as Hs1 by (by carry_hooks Hr).
  destruct (decide (reg ∈ l)) as [Hin|Hnotin].
  - eapply (IH _ _ Hs1 Hrun reg ms m Hin); [|done].
    pose proof (preserves_run _ _ _ _ _
                  (configure_registry_keeps_listing reg _ _ orig cascade r) Hr
                  (conj eq_refl eq_refl)) as [Hlist Hmg].
    by apply (mappers_to_configure_ext reg s s1 ms).
  - apply elem_of_cons in Hreg as [->|?]; [|done].
    pose proof (configure_registry_settles _ _ _ _ _ _ Hs Hr Hms m Hm) as Hsettled.
    assert (preserves (field_is (λ mp, implb (_ready_for_configure mp) (configured mp))
                         m true) (for_each l (configure_registry orig cascade))) as Hkeep
      by preserves_using settled_keeps.
    exact (preserves_run _ _ _ _ _ Hkeep Hrun Hsettled).
Qed.

Lemma any_new_mappers_ext regs s s' :
  registries s' = registries s →
  (any_new_mappers regs s').1 = (any_new_mappers regs s).1.
Proof.
  intros Hreg. induction regs as [|reg regs IH]; [done|].
  rewrite !any_new_mappers_cons, Hreg.
  destruct (registries s !! reg) as [r|]; [|done]. by destruct (_new_mappers r).
Qed.

(** X17: when a pass runs and returns, and no hook asked to defer a
    mapper, every mapper of the registries it was called with that is
    ready for configuration is configured. *)
Theorem pass_configures_ready_mappers (regs : list registry_id) (cascade : bool)
    (s s1 : St) :
  never_skips s →
  _already_compiling s = false →
  any_new_mappers regs s = (Returns true, s) →
  _configure_registries regs cascade s = (Returns tt, s1) →
  ∀ reg ms m,
    reg ∈ regs →
    _mappers_to_configure reg s = (Returns ms, s) →
    m ∈ ms →
    ∃ mp, mappers s1 !! m = Some mp
          ∧ (_ready_for_configure mp = true → configured mp = true).
Proof.
  intros Hs Hfree Hany Hrun reg ms m Hreg Hms Hm.
  cut (field_is (λ mp, implb (_ready_for_configure mp) (configured mp)) m true s1).
  { intros Hsettled. destruct (field_is_lookup _ _ _ _ Hsettled) as (mp & Hmp & Himp).
    exists mp. split; [done|]. intros Hready. rewrite Hready in Himp. done. }
  unfold _configure_registries in Hrun.
  rewrite (bind_returns _ _ _ _ _ Hany) in Hrun. simpl in Hrun.
  unfold bind at 1, gets in Hrun. rewrite Hfree in Hrun.
  unfold bind at 1, modify at 1 in Hrun.
  bind_inv Hrun as completed s2 Htry.
  apply try_finally_returns_inv in Htry as (s3 & Hbody & ->).
  bind_inv Hbody as found s0 Hfound.
  pose proof (any_new_mappers_state _ _ _ _ Hfound) as ->.
  assert (found = true) as ->.
  { pose proof (any_new_mappers_ext regs s (set__already_compiling (λ _, true) s) eq_refl)
      as Hext. rewrite Hfound, Hany in Hext. by injection Hext. }
  simpl in Hbody. bind_inv Hbody as [] s4 Hemit. bind_inv Hbody as [] s5 Hdo.
  unfold ret in Hbody. injection Hbody as <- <-.
  unfold emit, modify in Hemit. injection Hemit as <-.
  carry_on Hrun. unfold field_is. simpl.
  unfold _do_configure_registries, registry_heap, bind at 1, gets in Hdo.
  eapply (configure_registries_settle _ _ _ _ _ _ Hdo reg ms m);
    [|by apply (mappers_to_configure_ext reg s _ ms)|done].
  by apply recurse_with_dependencies_includes.
  Unshelve. exact Hs.
Qed.


(** ** The three ways to inherit *)

Lemma check_inheritance_returns_inv self p s s' me par :
  check_inheritance self p s = (Returns tt, s') →
  mappers s !! self = Some me →
  mappers s !! p = Some par →
  issubclass (class_ me) (class_ par) = true
  ∧ non_primary me = non_primary par
  ∧ s' = set_mappers
           (alter (set_mapper_configured (λ l, l ++ mapper_configured par)) self)
           (set_mappers
              (alter (set_before_mapper_configured
                        (λ l, l ++ before_mapper_configured par)) self) s).
Proof.
  intros Hrun Hme Hpar. unfold check_inheritance in Hrun.
  rewrite (bind_returns _ _ _ _ _ (get_mapper_returns _ _ _ Hme)) in Hrun.
  rewrite (bind_returns _ _ _ _ _ (get_mapper_returns _ _ _ Hpar)) in Hrun.
  destruct (issubclass (class_ me) (class_ par)); simpl in Hrun; [|done].
  rewrite (bind_ret tt), !bind_modify_mapper in Hrun.
  destruct (decide (non_primary me = non_primary par)) as [Hnp|Hnp].
  - rewrite bool_decide_eq_true_2 in Hrun by done. simpl in Hrun.
    unfold ret in Hrun. by injection Hrun as <-.
  - by rewrite bool_decide_eq_false_2 in Hrun.
Qed.

(** The construction of a mapper that inherits, when it returned: the
    checks passed, and the runs of the choice of the selectable, of the
    rest of the inheritance and of the steps after it. *)
Lemma inheriting_construction_inv a s d s' p par :
  Mapper__init__ a s = (Returns d, s') →
  a_inherits a = Some p →
  mappers s !! p = Some par →
  d = length (mappers s) ∧ d ≠ p
  ∧ issubclass (a_class_ a) (class_ par) = true
  ∧ a_non_primary a = non_primary par
  ∧ ∃ me1 s1 s2 sa,
      mappers s1 !! d = Some me1
      ∧ mappers s1 !! p = Some par
      ∧ local_table me1 = a_local_table a
      ∧ concrete me1 = a_concrete a
      ∧ inherit_condition me1 = a_inherit_condition a
      ∧ inherit_foreign_keys me1 = a_inherit_foreign_keys a
      ∧ polymorphic_identity me1 = a_polymorphic_identity a
      ∧ single me1 = false
      ∧ class_ me1 = a_class_ a
      ∧ non_primary me1 = a_non_primary a
      ∧ (∃ pm, me1 = set_mapper_configured (λ l, l ++ mapper_configured par)
                       (set_before_mapper_configured
                          (λ l, l ++ before_mapper_configured par)
                          (set__inheriting_mappers (λ _, []) (initial_mapper a pm))))
      ∧ configure_inherited_selectable d p s1 = (Returns tt, s2)
      ∧ (configure_identity_class d p ;;
         configure_version_id_col d p ;;
         propagate_from_parent d p ;;
         register_polymorphic_identity d ;;
         check_polymorphic_load d p ;;
         require_persist_selectable d) s2 = (Returns tt, sa)
      ∧ (_configure_class_instrumentation d ;;
         _configure_properties d (a_properties a) ;;
         _configure_polymorphic_setter d (a_polymorphic_setter a) ;;
         _configure_pks d ;;
         me <- get_mapper d ;;
         r <- from_option "registry" (registry me) ;;
         _flag_new_mapper r d ;;
         _expire_memoizations d) sa = (Returns tt, s').
Proof.
  intros Hrun Hinh Hpar.
  destruct (Mapper__init___returns_inv _ _ _ _ Hrun)
    as (-> & pm & s1 & sa & sb & sc & sd & se & Halloc & Hms & _ & _
        & Hstep1 & Hstep2 & Hstep3 & Hstep4 & Hstep5 & Htail).
  assert (mappers s1 !! length (mappers s) = Some (initial_mapper a pm)) as Hself.
  { rewrite Hms. apply lookup_new_mapper. }
  assert (length (mappers s) ≠ p) as Hne.
  { apply lookup_lt_Some in Hpar. lia. }
  destruct (_configure_inheritance_returns_inv _ p _ _ _ Hstep1 Hself Hinh)
    as (s2 & s3 & s4 & s5 & Hcheck & Hsel & Hic & Hprop & Hrest).
  pose proof (lookup_modify_eq (set__inheriting_mappers (λ _, [])) _ _ _ Hself) as Hself2.
  assert (mappers (set_mappers (alter (set__inheriting_mappers (λ _, []))
                                  (length (mappers s))) s1) !! p = Some par) as Hpar2.
  { rewrite lookup_modify_ne by done. rewrite Hms. by apply lookup_app_l_Some. }
  destruct (check_inheritance_returns_inv _ _ _ _ _ _ Hcheck Hself2 Hpar2)
    as (Hsub & Hnp & ->).
  split; [done|]. split; [done|]. split; [done|]. split; [done|].
  exists (set_mapper_configured (λ l, l ++ mapper_configured par)
            (set_before_mapper_configured (λ l, l ++ before_mapper_configured par)
               (set__inheriting_mappers (λ _, []) (initial_mapper a pm)))).
  eexists _, s3, sa. split.
  { apply lookup_modify_eq, lookup_modify_eq, Hself2. }
  split.
  { rewrite 2!lookup_modify_ne by done. exact Hpar2. }
  do 8 (split; [reflexivity|]). split; [by exists pm|]. split; [exact Hsel|]. split.
  - rewrite (bind_returns _ _ _ _ _ Hic).
    unfold bind at 1 in Hprop.
    destruct (configure_version_id_col (length (mappers s)) p s4) as [[[]|?|] s4'] eqn:Hv;
      [|done|done].
    rewrite (bind_returns _ _ _ _ _ Hv), (bind_returns _ _ _ _ _ Hprop). exact Hrest.
  - rewrite (bind_returns _ _ _ _ _ Hstep2), (bind_returns _ _ _ _ _ Hstep3),
      (bind_returns _ _ _ _ _ Hstep4), (bind_returns _ _ _ _ _ Hstep5). exact Htail.
Qed.

Lemma require_persist_selectable_inv self s s' :
  require_persist_selectable self s = (Returns tt, s') →
  s' = s ∧ ∃ me ps, mappers s !! self = Some me ∧ persist_selectable me = Some ps.
Proof.
  intros Hrun. unfold require_persist_selectable in Hrun.
  bind_inv Hrun as me s0 Hget. apply get_mapper_returns_inv in Hget as [-> Hme].
  destruct (persist_selectable me) as [ps|] eqn:Hps.
  - rewrite bool_decide_eq_false_2 in Hrun by done. unfold when, ret in Hrun.
    injection Hrun as <-. eauto.
  - by rewrite bool_decide_eq_true_2 in Hrun.
Qed.

(** X18: a mapper that inherits and is given no table shares the table
    of the mapper it inherits from: its [local_table] and its
    [persist_selectable] are the parent's, and it is flagged [single]. *)
Theorem single_table_inheritance (a : MapperArgs) (s s' : St) (d p : mapper_id)
    (par : Mapper) :
  Mapper__init__ a s = (Returns d, s') →
  a_inherits a = Some p →
  mappers s !! p = Some par →
  a_local_table a = None →
  ∃ md, mappers s' !! d = Some md
        ∧ single md = true
        ∧ local_table md = local_table par
        ∧ persist_selectable md = persist_selectable par
        ∧ persist_selectable md ≠ None.
Proof.
  intros Hrun Hinh Hpar Hnone.
  destruct (inheriting_construction_inv _ _ _ _ _ _ Hrun Hinh Hpar)
    as (-> & Hne & _ & _ & me1 & s1 & s2 & sa & Hme1 & Hpar1 & Hlt & _ & _ & _ & _ & _
        & _ & _ & _ & Hsel & Hrest & Htail).
  assert (field_is single (length (mappers s)) true s2
          ∧ field_is local_table (length (mappers s)) (local_table par) s2
          ∧ field_is persist_selectable (length (mappers s)) (persist_selectable par) s2)
    as Hs2.
  { unfold configure_inherited_selectable in Hsel.
    rewrite (bind_returns _ _ _ _ _ (get_mapper_returns _ _ _ Hme1)) in Hsel.
    rewrite (bind_returns _ _ _ _ _ (get_mapper_returns _ _ _ Hpar1)) in Hsel.
    rewrite Hlt, Hnone, !bind_modify_mapper in Hsel.
    unfold modify_mapper, modify in Hsel. injection Hsel as <-.
    unfold field_is. simpl. by rewrite !list_lookup_alter_eq, Hme1. }
  assert (field_is single (length (mappers s)) true s'
          ∧ field_is local_table (length (mappers s)) (local_table par) s'
          ∧ field_is persist_selectable (length (mappers s)) (persist_selectable par) s')
    as (Hsg & Hloc & Hps).
  { carry_on Htail. carry_on Hrest. exact Hs2. }
  destruct (field_is_lookup _ _ _ _ Hsg) as (md & Hmd & Hsgd).
  exists md. split; [done|]. split; [done|].
  split; [by eapply field_is_eq|].
  pose proof (field_is_eq _ _ _ _ _ Hps Hmd) as Hpsd. split; [done|].
  (* the check that closes the configuration of the inheritance *)
  bind_inv Hrest as [] t1 Hc1. bind_inv Hrest as [] t2 Hc2. bind_inv Hrest as [] t3 Hc3.
  bind_inv Hrest as [] t4 Hc4. bind_inv Hrest as [] t5 Hc5.
  apply require_persist_selectable_inv in Hrest as (-> & me & ps & Hme & Hpsme).
  assert (field_is persist_selectable (length (mappers s)) (Some ps) s') as Hps'.
  { carry_on Htail. unfold field_is. by rewrite Hme, <- Hpsme. }
  rewrite (field_is_eq _ _ _ _ _ Hps' Hmd). done.
Qed.


Lemma primary_instrumentation_keeps_identity_class self ic s s' :
  _configure_class_instrumentation self s = (Returns tt, s') →
  field_is non_primary self false s →
  field_is _identity_class self ic s →
  field_is _identity_class self ic s'.
Proof.
  intros Hrun Hnp Hic.
  destruct (field_is_lookup _ _ _ _ Hnp) as (me & Hme & Hnpme).
  unfold _configure_class_instrumentation in Hrun.
  rewrite (bind_returns _ _ _ _ _ (get_mapper_returns _ _ _ Hme)) in Hrun.
  unfold bind at 1, gets in Hrun. rewrite Hnpme in Hrun.
  carry_on Hrun. exact Hic.
Qed.

Lemma configure_identity_class_own self p s s' me :
  configure_identity_class self p s = (Returns tt, s') →
  mappers s !! self = Some me →
  concrete me = true ∨ polymorphic_identity me = None →
  field_is _identity_class self (Some (class_ me)) s'.
Proof.
  intros Hrun Hme Hown. unfold configure_identity_class in Hrun.
  rewrite (bind_returns _ _ _ _ _ (get_mapper_returns _ _ _ Hme)) in Hrun.
  bind_inv Hrun as par s0 Hget. apply get_mapper_returns_inv in Hget as [-> Hpar].
  assert (bool_decide (polymorphic_identity me ≠ None) && negb (concrete me) = false)
    as Hcond.
  { destruct Hown as [->| ->]; [by rewrite andb_false_r|].
    by rewrite bool_decide_eq_false_2 by (intros Hn; by apply Hn). }
  rewrite Hcond in Hrun. unfold modify_mapper, modify in Hrun. injection Hrun as <-.
  unfold field_is. simpl. by rewrite list_lookup_alter_eq, Hme.
Qed.

(** X19: a mapper that inherits as [concrete], or that is given the very
    table of the mapper it inherits from, persists to its own table
    alone: no join is made and no inherit condition is looked for.  A
    concrete primary mapper is identified by its own class, whatever its
    polymorphic identity. *)
Theorem own_table_inheritance (a : MapperArgs) (s s' : St) (d p : mapper_id)
    (par : Mapper) (lt : selectable) :
  Mapper__init__ a s = (Returns d, s') →
  a_inherits a = Some p →
  mappers s !! p = Some par →
  a_local_table a = Some lt →
  a_concrete a = true ∨ local_table par = Some lt →
  ∃ md, mappers s' !! d = Some md
        ∧ persist_selectable md = Some lt
        ∧ local_table md = Some lt
        ∧ single md = false
        ∧ inherit_condition md = a_inherit_condition a
        ∧ (a_concrete a = true → a_non_primary a = false →
           _identity_class md = Some (a_class_ a)).
Proof.
  intros Hrun Hinh Hpar Hlt Hown.
  destruct (inheriting_construction_inv _ _ _ _ _ _ Hrun Hinh Hpar)
    as (-> & Hne & _ & _ & me1 & s1 & s2 & sa & Hme1 & Hpar1 & Hlt1 & Hconc1 & Hcond1
        & _ & _ & Hsg1 & Hcls1 & Hnp1 & _ & Hsel & Hrest & Htail).
  set (self := length (mappers s)) in *.
  pose (I := λ st : St,
          field_is persist_selectable self (Some lt) st
          ∧ field_is local_table self (Some lt) st
          ∧ field_is single self false st
          ∧ field_is inherit_condition self (a_inherit_condition a) st
          ∧ field_is concrete self (a_concrete a) st
          ∧ field_is class_ self (a_class_ a) st
          ∧ field_is non_primary self (a_non_primary a) st).
  assert (I s2) as Hs2.
  { unfold configure_inherited_selectable in Hsel.
    rewrite (bind_returns _ _ _ _ _ (get_mapper_returns _ _ _ Hme1)) in Hsel.
    rewrite (bind_returns _ _ _ _ _ (get_mapper_returns _ _ _ Hpar1)) in Hsel.
    rewrite Hlt1, Hlt in Hsel.
    assert (I (set_mappers (alter (set_persist_selectable (λ _, Some lt)) self) s1))
      as Hset.
    { unfold I, field_is. simpl. rewrite !list_lookup_alter_eq, Hme1. simpl.
      by rewrite Hlt1, Hlt, Hsg1, Hcond1, Hconc1, Hcls1, Hnp1. }
    destruct (bool_decide (local_table par ≠ Some lt)) eqn:Hsame.
    - destruct Hown as [Hconc|Hsame'].
      2:{ apply bool_decide_eq_true in Hsame. done. }
      rewrite Hconc1, Hconc, bind_modify_mapper in Hsel.
      unfold I in *. carry_on Hsel. exact Hset.
    - unfold modify_mapper, modify in Hsel. by injection Hsel as <-. }
  assert (I sa) as Hsa.
  { unfold I in *. carry_on Hrest. exact Hs2. }
  assert (I s') as (Hps & Hloc & Hsg & Hcond & _).
  { unfold I in *. carry_on Htail. exact Hsa. }
  destruct (field_is_lookup _ _ _ _ Hps) as (md & Hmd & Hpsd).
  exists md. split; [done|]. split; [done|].
  split; [by eapply field_is_eq|]. split; [by eapply field_is_eq|].
  split; [by eapply field_is_eq|].
  intros Hconc Hprim.
  (* the identity class, from the configuration of the inheritance on *)
  destruct Hs2 as (_ & _ & _ & _ & Hconc2 & Hcls2 & Hnp2).
  destruct (field_is_lookup _ _ _ _ Hconc2) as (me2 & Hme2 & Hc2).
  bind_inv Hrest as [] t1 Hic.
  pose proof (configure_identity_class_own _ _ _ _ _ Hic Hme2
                (or_introl (eq_trans Hc2 Hconc))) as Hown2.
  rewrite (field_is_eq _ _ _ _ _ Hcls2 Hme2) in Hown2.
  assert (field_is _identity_class self (Some (a_class_ a)) sa) as Hica.
  { carry_on Hrest. exact Hown2. }
  bind_inv Htail as [] sb Hinstr.
  assert (field_is _identity_class self (Some (a_class_ a)) s') as Hic'.
  { carry_on Htail.
    apply (primary_instrumentation_keeps_identity_class _ _ _ _ Hinstr); [|done].
    destruct Hsa as (_ & _ & _ & _ & _ & _ & Hnpa). by rewrite <- Hprim. }
  by eapply field_is_eq.
Qed.


(** X20: a joined-table mapper that is given its inherit condition uses
    it as it is: the foreign keys between the tables are not consulted,
    and the mapper persists to the join of the parent's persist
    selectable and its own table on that condition. *)
Theorem explicit_inherit_condition (a : MapperArgs) (s s' : St) (d p : mapper_id)
    (par : Mapper) (lt : selectable) (c : clause) :
  Mapper__init__ a s = (Returns d, s') →
  a_inherits a = Some p →
  mappers s !! p = Some par →
  a_local_table a = Some lt →
  local_table par ≠ Some lt →
  a_concrete a = false →
  a_inherit_condition a = Some c →
  ∃ md pps, mappers s' !! d = Some md
            ∧ persist_selectable par = Some pps
            ∧ persist_selectable md = Some (sql_join pps lt c)
            ∧ inherit_condition md = Some c
            ∧ _inherits_equated_pairs md
              = Some (criterion_as_pairs c (a_inherit_foreign_keys a))
            ∧ local_table md = Some lt
            ∧ single md = false.
Proof.
  intros Hrun Hinh Hpar Hlt Hother Hconc Hcond.
  destruct (inheriting_construction_inv _ _ _ _ _ _ Hrun Hinh Hpar)
    as (-> & Hne & _ & _ & me1 & s1 & s2 & sa & Hme1 & Hpar1 & Hlt1 & Hconc1 & Hcond1
        & Hfk1 & _ & Hsg1 & _ & _ & _ & Hsel & Hrest & Htail).
  set (self := length (mappers s)) in *.
  unfold configure_inherited_selectable in Hsel.
  rewrite (bind_returns _ _ _ _ _ (get_mapper_returns _ _ _ Hme1)) in Hsel.
  rewrite (bind_returns _ _ _ _ _ (get_mapper_returns _ _ _ Hpar1)) in Hsel.
  rewrite Hlt1, Hlt, bool_decide_eq_true_2, Hconc1, Hconc in Hsel by done.
  assert (resolve_inherit_condition self par lt s1 = (Returns c, s1)) as Hres.
  { unfold resolve_inherit_condition. run_get Hme1. by rewrite Hcond1, Hcond. }
  rewrite (bind_returns _ _ _ _ _ Hres) in Hsel.
  destruct (persist_selectable par) as [pps|] eqn:Hpps; [|done].
  simpl in Hsel. rewrite (bind_ret pps), !bind_modify_mapper in Hsel.
  unfold modify_mapper, modify in Hsel. injection Hsel as <-.
  pose (I := λ st : St,
          field_is persist_selectable self (Some (sql_join pps lt c)) st
          ∧ field_is inherit_condition self (Some c) st
          ∧ field_is _inherits_equated_pairs self
              (Some (criterion_as_pairs c (a_inherit_foreign_keys a))) st
          ∧ field_is local_table self (Some lt) st
          ∧ field_is single self false st).
  assert (I s') as (Hps & Hic & Hep & Hloc & Hsg).
  { unfold I. carry_on Htail. carry_on Hrest.
    unfold field_is. simpl. rewrite !list_lookup_alter_eq, Hme1. simpl.
    by rewrite Hcond1, Hcond, Hfk1, Hlt1, Hlt, Hsg1. }
  destruct (field_is_lookup _ _ _ _ Hps) as (md & Hmd & Hpsd).
  exists md, pps. split; [done|]. split; [done|]. split; [done|].
  repeat split; by eapply field_is_eq.
Qed.


(** ** Properties by name *)

Lemma check_configure_unflagged self s me r reg :
  mappers s !! self = Some me →
  registry me = Some r →
  registries s !! r = Some reg →
  _new_mappers reg = false →
  _check_configure self s = (Returns tt, s).
Proof.
  intros Hme Hr Hreg Hflag. unfold _check_configure. run_get Hme.
  rewrite Hr. simpl. rewrite (bind_ret r).
  unfold get_registry, bind, gets. rewrite Hreg. simpl. by rewrite Hflag.
Qed.

(** X21: [get_property] agrees with [has_property].  When no pass is
    asked for, or the registry of the mapper has nothing new, it leaves
    the store as it is: for a name the mapper has it returns the
    property under that name, and for any other name it raises
    [InvalidRequestError], not the [KeyError] of the lookup. *)
Theorem get_property_spec (self : mapper_id) (key : string) (check : bool)
    (s : St) (me : Mapper) :
  mappers s !! self = Some me →
  (check = true →
   ∃ r reg, registry me = Some r ∧ registries s !! r = Some reg
            ∧ _new_mappers reg = false) →
  if has_property me key
  then ∃ p, Mapper_get_property self key check s = (Returns p, s)
            ∧ (key, p) ∈ _props me
  else ∃ cause,
         Mapper_get_property self key check s
         = (Raises (Exn InvalidRequestError "Mapper '%s' has no property '%s'"
                      [FmtMapper self; FmtStr key] (Some cause) None), s)
         ∧ exn_class cause = OtherError "KeyError".
Proof.
  intros Hme Hcheck.
  assert (when check (_check_configure self) s = (Returns tt, s)) as Hwhen.
  { destruct check; [|done]. destruct Hcheck as (r & reg & Hr & Hreg & Hflag); [done|].
    by eapply check_configure_unflagged. }
  unfold Mapper_get_property. rewrite (bind_returns _ _ _ _ _ Hwhen). run_get Hme.
  unfold has_property.
  destruct (list_find (λ kp, kp.1 = key) (_props me)) as [[i kp]|] eqn:Hfind.
  - apply list_find_Some in Hfind as (Hi & Hkey & _).
    rewrite bool_decide_eq_true_2.
    + exists kp.2. split; [done|]. apply list_elem_of_lookup_2 in Hi.
      destruct kp as [k p']. simpl in *. by subst.
    + apply list_elem_of_fmap. exists kp. split; [done|].
      by eapply list_elem_of_lookup_2.
  - apply list_find_None in Hfind. rewrite bool_decide_eq_false_2.
    + eexists. split; [reflexivity|done].
    + intros Hin. apply list_elem_of_fmap in Hin as (kp & -> & Hkp).
      by apply (proj1 (Forall_forall _ _) Hfind kp Hkp).
Qed.


(** ** The discriminator of an inheriting mapper *)

(** As [carry_on], for a statement about a mapper other than the one the
    run updates. *)
Ltac frame_apart :=
  apply preserves_modify; intros; unfold field_is in *; simpl in *;
  repeat match goal with
         | H : _ ∧ _ |- _ => destruct H
         | |- _ ∧ _ => split
         end;
  first
    [ assumption
    | rewrite fmap_lookup_alter_keeps by (intros ?; reflexivity); assumption
    | rewrite list_lookup_alter_ne by done; assumption ].

Ltac carry_apart H :=
  lazymatch type of H with
  | ?c _ = (_, ?s1) =>
      pattern s1;
      lazymatch goal with
      | |- ?I s1 =>
          let Hp := fresh in
          assert (preserves I c) as Hp by (preserves_tac; frame_apart);
          apply (preserves_run I c _ _ _ Hp H); clear Hp; cbv beta
      end
  end.

Lemma find_polymorphic_on_parent (ms : list Mapper) self p me par col :
  ms !! self = Some me →
  polymorphic_on me = None →
  inherits me = Some p →
  ms !! p = Some par →
  polymorphic_on par = Some col →
  find_polymorphic_on (S (length ms)) ms (Some self) = Returns (Some par).
Proof.
  intros Hme Hnone Hinh Hpar Hcol. simpl. rewrite Hme, Hnone, Hinh.
  rewrite bool_decide_eq_false_2 by (intros Hn; by apply Hn).
  destruct (length ms) as [|n] eqn:Hlen.
  { apply lookup_lt_Some in Hme. lia. }
  simpl. rewrite Hpar, Hcol. by rewrite bool_decide_eq_true_2.
Qed.

(** X22: a mapper that is given no discriminator takes the one of the
    mapper it inherits from: the same column when both persist to the
    same selectable, as in single-table inheritance, and the column of
    its own selectable that corresponds to it otherwise. *)
Theorem discriminator_inherited (a : MapperArgs) (s s' : St) (d p : mapper_id)
    (par : Mapper) (col : column) :
  Mapper__init__ a s = (Returns d, s') →
  a_inherits a = Some p →
  mappers s !! p = Some par →
  a_polymorphic_on a = None →
  polymorphic_on par = Some col →
  ∃ md, mappers s' !! d = Some md
        ∧ polymorphic_on md
          = if bool_decide (persist_selectable md = persist_selectable par)
            then Some col
            else persist_selectable md ≫= (λ ps, corresponding_column ps col).
Proof.
  intros Hrun Hinh Hpar Hnone Hcol.
  destruct (Mapper__init___returns_inv _ _ _ _ Hrun)
    as (-> & pm & s1 & sa & sb & sc & sd & se & Halloc & Hms & _ & _
        & Hstep1 & Hstep2 & Hstep3 & Hstep4 & Hstep5 & Htail).
  set (self := length (mappers s)) in *.
  assert (self ≠ p) as Hne.
  { apply lookup_lt_Some in Hpar. unfold self. lia. }
  assert (field_is (λ m, (polymorphic_on m, inherits m)) self (None, Some p) sc
          ∧ field_is (λ m, (polymorphic_on m, persist_selectable m)) p
              (Some col, persist_selectable par) sc) as [Hself Hparent].
  { carry_on Hstep3. carry_on Hstep2. carry_apart Hstep1.
    unfold field_is. rewrite Hms. split.
    - unfold self. rewrite lookup_new_mapper. simpl. by rewrite Hnone, Hinh.
    - rewrite (lookup_app_l_Some _ _ _ _ Hpar). simpl. by rewrite Hcol. }
  destruct (field_is_lookup _ _ _ _ Hself) as (mec & Hmec & Hfields).
  destruct (field_is_lookup _ _ _ _ Hparent) as (parc & Hparc & Hpfields).
  injection Hfields as Hpoly Hinhc. injection Hpfields as Hpcol Hpps.
  unfold _configure_polymorphic_setter in Hstep4.
  rewrite (bind_returns _ _ _ _ _ (get_mapper_returns _ _ _ Hmec)) in Hstep4.
  rewrite Hpoly in Hstep4. unfold bind at 1, gets in Hstep4.
  rewrite (find_polymorphic_on_parent _ _ _ _ _ _ Hmec Hpoly Hinhc Hparc Hpcol)
    in Hstep4.
  unfold lift_outcome in Hstep4. rewrite (bind_ret (Some parc)) in Hstep4.
  rewrite Hpps, Hpcol in Hstep4.
  assert (field_is persist_selectable self (persist_selectable mec) sd
          ∧ field_is polymorphic_on self
              (if bool_decide (persist_selectable mec = persist_selectable par)
               then Some col
               else persist_selectable mec ≫= (λ ps, corresponding_column ps col)) sd)
    as Hsd.
  { destruct (bool_decide (persist_selectable mec = persist_selectable par)).
    - unfold modify_mapper, modify in Hstep4. injection Hstep4 as <-.
      unfold field_is. simpl. by rewrite list_lookup_alter_eq, Hmec.
    - bind_inv Hstep4 as ps s0 Hps.
      apply from_option_returns_inv in Hps as [-> Hps].
      unfold modify_mapper, modify in Hstep4. injection Hstep4 as <-.
      unfold field_is. simpl. rewrite list_lookup_alter_eq, Hmec. simpl.
      by rewrite Hps. }
  assert (field_is persist_selectable self (persist_selectable mec) s'
          ∧ field_is polymorphic_on self
              (if bool_decide (persist_selectable mec = persist_selectable par)
               then Some col
               else persist_selectable mec ≫= (λ ps, corresponding_column ps col)) s')
    as [Hps' Hpoly'].
  { carry_on Htail. carry_on Hstep5. exact Hsd. }
  destruct (field_is_lookup _ _ _ _ Hps') as (md & Hmd & Hpsd).
  exists md. split; [done|]. rewrite Hpsd. by eapply field_is_eq.
Qed.


(** ** What a mapper takes over from its parent *)

(** X23: a mapper that inherits, once constructed, is listed among the
    inheriting mappers of its parent and shares its base mapper, so that
    the two have a common parent; it takes the parent's polymorphic
    map, [batch] and [passive_updates], and has [passive_deletes] when
    the parent has or when it was asked for. *)
Theorem settings_inherited (a : MapperArgs) (s s' : St) (d p : mapper_id)
    (par : Mapper) :
  Mapper__init__ a s = (Returns d, s') →
  a_inherits a = Some p →
  mappers s !! p = Some par →
  ∃ md mp, mappers s' !! d = Some md
           ∧ mappers s' !! p = Some mp
           ∧ inherits md = Some p
           ∧ _inheriting_mappers mp = _inheriting_mappers par ++ [d]
           ∧ base_mapper md = base_mapper par
           ∧ base_mapper mp = base_mapper par
           ∧ common_parent (mappers s') d p = Returns true
           ∧ polymorphic_map md = polymorphic_map par
           ∧ batch md = batch par
           ∧ passive_updates md = passive_updates par
           ∧ passive_deletes md = passive_deletes par || a_passive_deletes a.
Proof.
  intros Hrun Hinh Hpar.
  destruct (inheriting_construction_inv _ _ _ _ _ _ Hrun Hinh Hpar)
    as (-> & Hne & _ & _ & me1 & s1 & s2 & sa & Hme1 & Hpar1 & _ & _ & _ & _ & _ & _
        & _ & _ & [pm ->] & Hsel & Hrest & Htail).
  set (self := length (mappers s)) in *.
  bind_inv Hrest as [] t1 Hic. bind_inv Hrest as [] t2 Hversion.
  bind_inv Hrest as [] t3 Hprop.
  assert (field_is (λ m, (_inheriting_mappers m, base_mapper m, polymorphic_map m,
                          batch m, passive_updates m, passive_deletes m)) p
            (_inheriting_mappers par, base_mapper par, polymorphic_map par, batch par,
             passive_updates par, passive_deletes par) t2
          ∧ field_is (λ m, (inherits m, passive_deletes m)) self
              (Some p, a_passive_deletes a) t2) as [Hp2 Hs2].
  { carry_on Hversion. carry_on Hic. carry_apart Hsel.
    unfold field_is. rewrite Hme1, Hpar1. simpl. by rewrite Hinh. }
  destruct (field_is_lookup _ _ _ _ Hp2) as (par2 & Hpar2 & Hpf).
  destruct (field_is_lookup _ _ _ _ Hs2) as (me2 & Hme2 & Hsf).
  injection Hpf as Hch Hbase Hpmap Hbatch Hpu Hpd. injection Hsf as Hinh2 Hpd2.
  unfold propagate_from_parent in Hprop.
  rewrite (bind_returns _ _ _ _ _ (get_mapper_returns _ _ _ Hpar2)) in Hprop.
  rewrite !bind_modify_mapper in Hprop. unfold modify_mapper, modify in Hprop.
  injection Hprop as <-.
  assert (field_is (λ m, (inherits m, base_mapper m, polymorphic_map m, batch m,
                          passive_updates m, passive_deletes m)) self
            (Some p, base_mapper par, polymorphic_map par, batch par,
             passive_updates par, passive_deletes par || a_passive_deletes a) s'
          ∧ field_is (λ m, (_inheriting_mappers m, base_mapper m)) p
              (_inheriting_mappers par ++ [self], base_mapper par) s')
    as [Hself' Hparent'].
  { carry_on Htail. carry_on Hrest. unfold field_is. simpl.
    repeat (rewrite list_lookup_alter_eq || rewrite list_lookup_alter_ne by done).
    rewrite Hme2, Hpar2. simpl.
    by rewrite Hinh2, Hpd2, Hch, Hbase, Hpmap, Hbatch, Hpu, Hpd. }
  destruct (field_is_lookup _ _ _ _ Hself') as (md & Hmd & Hmdf).
  destruct (field_is_lookup _ _ _ _ Hparent') as (mp & Hmp & Hmpf).
  injection Hmdf as Hd1 Hd2 Hd3 Hd4 Hd5 Hd6. injection Hmpf as Hp1 Hp2'.
  exists md, mp. split; [done|]. split; [done|]. split; [done|]. split; [done|].
  split; [done|]. split; [done|]. split.
  { unfold common_parent. rewrite Hmd, Hmp. f_equal. apply bool_decide_eq_true_2.
    congruence. }
  done.
Qed.


(** ** [polymorphic_load] *)

Lemma add_with_polymorphic_subclass_returns self mapper s s' me sub :
  _add_with_polymorphic_subclass self mapper s = (Returns tt, s') →
  mappers s !! self = Some me →
  mappers s !! mapper = Some sub →
  ∃ mp, mappers s' !! self = Some mp
        ∧ match with_polymorphic me with
          | None => with_polymorphic mp = Some (WPTuple [WPClass (class_ sub)], None)
          | Some (WPStar, sel) => with_polymorphic mp = Some (WPStar, sel)
          | Some (WPTuple l, sel) =>
              with_polymorphic mp = Some (WPTuple (l ++ [WPClass (class_ sub)]), sel)
          | Some (WPList _, _) => False
          end.
Proof.
  intros Hrun Hme Hsub. unfold _add_with_polymorphic_subclass in Hrun.
  rewrite (bind_returns _ _ _ _ _ (get_mapper_returns _ _ _ Hsub)) in Hrun.
  rewrite (bind_returns _ _ _ _ _ (get_mapper_returns _ _ _ Hme)) in Hrun.
  assert (∀ wp, _set_with_polymorphic self wp s = (Returns tt, s') →
                ∃ mp, mappers s' !! self = Some mp ∧ with_polymorphic mp = Some wp)
    as Hset.
  { intros wp Hwp. unfold _set_with_polymorphic in Hwp.
    rewrite bind_modify_mapper in Hwp.
    assert (field_is with_polymorphic self (Some wp) s') as Hf.
    { carry_on Hwp. unfold field_is. simpl. by rewrite list_lookup_alter_eq, Hme. }
    destruct (field_is_lookup _ _ _ _ Hf) as (mp & Hmp & Hwpmp). by exists mp. }
  destruct (with_polymorphic me) as [[[|l|l] sel]|] eqn:Hwp;
    [|exact (Hset _ Hrun)|done|exact (Hset _ Hrun)].
  unfold ret in Hrun. injection Hrun as <-. by exists me.
Qed.

(** X24: a mapper that inherits is constructed only with a
    [polymorphic_load] of ["inline"], ["selectin"] or none, and with one
    of the two only when it is not concrete.  With ["inline"] its class
    joins the [with_polymorphic] of the mapper it inherits from, as the
    last of the tuple, unless that is ["*"]. *)
Theorem polymorphic_load_checked (a : MapperArgs) (s s' : St) (d p : mapper_id)
    (par : Mapper) :
  Mapper__init__ a s = (Returns d, s') →
  a_inherits a = Some p →
  mappers s !! p = Some par →
  match a_polymorphic_load a with
  | None => True
  | Some load =>
      a_concrete a = false
      ∧ (load = "selectin"
         ∨ load = "inline"
           ∧ ∃ mp, mappers s' !! p = Some mp
                   ∧ match with_polymorphic par with
                     | None =>
                         with_polymorphic mp
                         = Some (WPTuple [WPClass (a_class_ a)], None)
                     | Some (WPStar, sel) => with_polymorphic mp = Some (WPStar, sel)
                     | Some (WPTuple l, sel) =>
                         with_polymorphic mp
                         = Some (WPTuple (l ++ [WPClass (a_class_ a)]), sel)
                     | Some (WPList _, _) => False
                     end)
  end.
Proof.
  intros Hrun Hinh Hpar.
  destruct (a_polymorphic_load a) as [load|] eqn:Hload; [|done].
  destruct (inheriting_construction_inv _ _ _ _ _ _ Hrun Hinh Hpar)
    as (-> & Hne & _ & _ & me1 & s1 & s2 & sa & Hme1 & Hpar1 & _ & _ & _ & _ & _ & _
        & _ & _ & [pm ->] & Hsel & Hrest & Htail).
  set (self := length (mappers s)) in *.
  bind_inv Hrest as [] t1 Hic. bind_inv Hrest as [] t2 Hversion.
  bind_inv Hrest as [] t3 Hprop. bind_inv Hrest as [] t4 Hreg.
  bind_inv Hrest as [] t5 Hcheck.
  assert (field_is (λ m, (polymorphic_load m, concrete m, class_ m)) self
            (Some load, a_concrete a, a_class_ a) t4
          ∧ field_is with_polymorphic p (with_polymorphic par) t4) as [Hs4 Hp4].
  { carry_on Hreg. carry_on Hprop. carry_on Hversion. carry_on Hic. carry_apart Hsel.
    unfold field_is. rewrite Hme1, Hpar1. simpl. by rewrite Hload. }
  destruct (field_is_lookup _ _ _ _ Hs4) as (me4 & Hme4 & Hf4).
  destruct (field_is_lookup _ _ _ _ Hp4) as (par4 & Hpar4 & Hwp4).
  injection Hf4 as Hload4 Hconc4 Hcls4.
  unfold check_polymorphic_load in Hcheck.
  rewrite (bind_returns _ _ _ _ _ (get_mapper_returns _ _ _ Hme4)) in Hcheck.
  rewrite Hload4, Hconc4 in Hcheck.
  bind_inv Hcheck as [] t4' Hconcrete.
  assert (a_concrete a = false ∧ t4' = t4) as [Hconc ->].
  { destruct (a_concrete a); [|unfold when in Hconcrete; simpl in Hconcrete].
    - destruct (decide (load = EmptyString)) as [->|Hnonempty].
      + (* the empty string is no [polymorphic_load] that is known *)
        unfold when in Hconcrete.
        rewrite bool_decide_eq_false_2 in Hconcrete by (intros [_ Hn]; by apply Hn).
        simpl in Hconcrete. unfold ret in Hconcrete. injection Hconcrete as <-.
        rewrite !bool_decide_eq_false_2 in Hcheck by done. done.
      + rewrite bool_decide_eq_true_2 in Hconcrete by (split; congruence). done.
    - rewrite andb_false_r in Hconcrete. unfold ret in Hconcrete.
      by injection Hconcrete as <-. }
  split; [done|].
  destruct (decide (load = "inline")) as [->|Hninline].
  - right. split; [done|]. rewrite bool_decide_eq_true_2 in Hcheck by done.
    destruct (add_with_polymorphic_subclass_returns _ _ _ _ _ _ Hcheck Hpar4 Hme4)
      as (mp5 & Hmp5 & Hwp5).
    rewrite Hwp4, Hcls4 in Hwp5.
    assert (field_is with_polymorphic p (with_polymorphic mp5) s') as Hwp'.
    { carry_on Htail. carry_on Hrest. unfold field_is. by rewrite Hmp5. }
    destruct (field_is_lookup _ _ _ _ Hwp') as (mp & Hmp & Hwpmp).
    exists mp. split; [done|]. rewrite Hwpmp. exact Hwp5.
  - left. rewrite (bool_decide_eq_false_2 (load = "inline")) in Hcheck by done.
    destruct (decide (load = "selectin")) as [->|Hnsel]; [done|].
    by rewrite bool_decide_eq_false_2 in Hcheck.
Qed.


(** ** The version column *)

(** X25: a mapper that inherits and is given no version column takes the
    one of the mapper it inherits from; a mapper that is given one keeps
    it, and a warning is recorded when the parent has another. *)
Theorem version_id_col_inherited (a : MapperArgs) (s s' : St) (d p : mapper_id)
    (par : Mapper) :
  Mapper__init__ a s = (Returns d, s') →
  a_inherits a = Some p →
  mappers s !! p = Some par →
  ∃ md, mappers s' !! d = Some md
        ∧ version_id_col md
          = match a_version_id_col a with
            | None => version_id_col par
            | Some c => Some c
            end
        ∧ ∀ c pc, a_version_id_col a = Some c → version_id_col par = Some pc → c ≠ pc →
            Warn "Inheriting version_id_col '%s' does not match inherited version_id_col '%s' and will not automatically populate the inherited versioning column. version_id_col should only be specified on the base-most mapper that includes versioning."
              [FmtStr (col_description c); FmtStr (col_description pc)] ∈ log s'.
Proof.
  intros Hrun Hinh Hpar.
  destruct (inheriting_construction_inv _ _ _ _ _ _ Hrun Hinh Hpar)
    as (-> & Hne & _ & _ & me1 & s1 & s2 & sa & Hme1 & Hpar1 & _ & _ & _ & _ & _ & _
        & _ & _ & [pm ->] & Hsel & Hrest & Htail).
  set (self := length (mappers s)) in *.
  bind_inv Hrest as [] t1 Hic. bind_inv Hrest as [] t2 Hversion.
  assert (field_is version_id_col self (a_version_id_col a) t1
          ∧ field_is version_id_col p (version_id_col par) t1) as [Hs1 Hp1].
  { carry_on Hic. carry_on Hsel. unfold field_is. by rewrite Hme1, Hpar1. }
  destruct (field_is_lookup _ _ _ _ Hs1) as (me & Hme & Hv).
  destruct (field_is_lookup _ _ _ _ Hp1) as (par' & Hpar' & Hpv).
  unfold configure_version_id_col in Hversion.
  rewrite (bind_returns _ _ _ _ _ (get_mapper_returns _ _ _ Hme)) in Hversion.
  rewrite (bind_returns _ _ _ _ _ (get_mapper_returns _ _ _ Hpar')) in Hversion.
  rewrite Hv, Hpv in Hversion.
  assert (field_is version_id_col self
            (match a_version_id_col a with
             | None => version_id_col par
             | Some c => Some c
             end) s'
          ∧ ∀ c pc, a_version_id_col a = Some c → version_id_col par = Some pc → c ≠ pc →
              Warn "Inheriting version_id_col '%s' does not match inherited version_id_col '%s' and will not automatically populate the inherited versioning column. version_id_col should only be specified on the base-most mapper that includes versioning."
                [FmtStr (col_description c); FmtStr (col_description pc)] ∈ log s')
    as [Hv' Hwarn].
  { destruct (a_version_id_col a) as [c|] eqn:Hc.
    - assert (field_is version_id_col self (Some c) t2) as Hv2.
      { carry_on Hversion. unfold field_is. rewrite Hme. simpl. by rewrite Hv. }
      split.
      + carry_on Htail. carry_on Hrest. exact Hv2.
      + intros c' pc [= <-] Hpc Hdiff. rewrite Hpc in Hversion.
        rewrite bool_decide_eq_true_2 in Hversion by done.
        unfold when, warn, emit, modify in Hversion. injection Hversion as <-.
        carry_on Htail. carry_on Hrest. simpl. apply elem_of_app. right. by left.
    - split; [|done].
      unfold modify_mapper, modify in Hversion. injection Hversion as <-.
      carry_on Htail. carry_on Hrest.
      unfold field_is. simpl. by rewrite list_lookup_alter_eq, Hme. }
  destruct (field_is_lookup _ _ _ _ Hv') as (md & Hmd & Hvd).
  by exists md.
Qed.


(** ** The identities a mapper accepts *)

Lemma acceptable_identities_loop_returns ms ps :
  wf_hierarchy ms →
  ∀ fuel stack ids,
    Forall (λ x, x < length ms) stack →
    sum_list (hierarchy_size (S (length ms)) ms <$> stack) ≤ fuel →
    ∃ out, acceptable_identities_loop fuel ms ps stack ids = Returns out.
Proof.
  intros Hwf. induction fuel as [|fuel IH]; intros stack ids Hvalid Hsum.
  - destruct stack as [|x stack]; [by eexists|].
    rewrite fmap_cons, sum_list_cons in Hsum.
    pose proof (hierarchy_size_pos (length ms) ms x). lia.
  - destruct stack as [|x stack]; [by eexists|].
    apply Forall_cons in Hvalid as [Hx Hvalid].
    destruct (lookup_lt_is_Some_2 ms x Hx) as [mp Hmp].
    simpl. rewrite Hmp.
    rewrite fmap_cons, sum_list_cons in Hsum.
    rewrite (hierarchy_size_children ms x mp Hwf Hmp) in Hsum.
    destruct (bool_decide (persist_selectable mp = ps)); apply IH.
    + apply Forall_app. split; [done|].
      eapply Forall_impl; [exact (Hwf x mp Hmp)|]. intros c; simpl; lia.
    + rewrite fmap_app, sum_list_with_app. lia.
    + done.
    + lia.
Qed.

Lemma acceptable_identities_loop_elem ms ps :
  ∀ fuel stack ids out,
    acceptable_identities_loop fuel ms ps stack ids = Returns out →
    NoDup ids →
    NoDup out
    ∧ ∀ v, v ∈ out ↔
        v ∈ ids ∨ ∃ x d md, x ∈ stack ∧ descends_on ms ps x d ∧ ms !! d = Some md
                            ∧ v = polymorphic_identity md.
Proof.
  induction fuel as [|fuel IH]; intros stack ids out Hrun Hnodup.
  - destruct stack; simplify_eq/=. split; [done|]. intros v. split; [by left|].
    intros [?|(x & ? & ? & Hx & _)]; [done|]. by apply elem_of_nil in Hx.
  - destruct stack as [|x stack]; simplify_eq/=.
    { split; [done|]. intros v. split; [by left|].
      intros [?|(y & ? & ? & Hy & _)]; [done|]. by apply elem_of_nil in Hy. }
    destruct (ms !! x) as [mp|] eqn:Hmp; [|done].
    destruct (decide (persist_selectable mp = ps)) as [Hps|Hps].
    + rewrite bool_decide_eq_true_2 in Hrun by done.
      destruct (IH _ _ _ Hrun) as [Hout Hmem].
      { destruct (decide (polymorphic_identity mp ∈ ids)) as [Hin|Hnotin].
        - by rewrite bool_decide_eq_true_2.
        - rewrite bool_decide_eq_false_2 by done.
          apply NoDup_app. split; [done|]. split.
          + intros v Hv Hv'. apply list_elem_of_singleton in Hv'. by subst.
          + apply NoDup_singleton. }
      split; [done|]. intros v. rewrite Hmem.
      assert (v ∈ (if bool_decide (polymorphic_identity mp ∈ ids) then ids
                   else ids ++ [polymorphic_identity mp])
              ↔ v ∈ ids ∨ v = polymorphic_identity mp) as ->.
      { destruct (decide (polymorphic_identity mp ∈ ids)) as [Hin|Hnotin].
        - rewrite bool_decide_eq_true_2 by done. split; [by left|].
          intros [?| ->]; done.
        - rewrite bool_decide_eq_false_2 by done.
          by rewrite elem_of_app, list_elem_of_singleton. }
      split.
      * intros [[Hv| ->]|(y & d & md & Hy & Hdesc & Hmd & ->)].
        -- by left.
        -- right. exists x, x, mp. split; [left|]. split; [by econstructor|done].
        -- apply elem_of_app in Hy as [Hy|Hy].
           ++ right. exists y, d, md. split; [by right|done].
           ++ right. exists x, d, md. split; [left|]. split; [|done].
              by eapply descends_on_step.
      * intros [Hv|(y & d & md & Hy & Hdesc & Hmd & ->)]; [by left; left|].
        apply elem_of_cons in Hy as [->|Hy].
        -- inversion Hdesc as [? mp' Hmp' Hps'|? mp' c ? Hmp' Hps' Hc Hrest]; subst.
           ++ left. right. congruence.
           ++ rewrite Hmp in Hmp'. injection Hmp' as <-.
              right. exists c, d, md. split; [|done]. apply elem_of_app. by right.
        -- right. exists y, d, md. split; [|done]. apply elem_of_app. by left.
    + rewrite bool_decide_eq_false_2 in Hrun by done.
      destruct (IH _ _ _ Hrun Hnodup) as [Hout Hmem].
      split; [done|]. intros v. rewrite Hmem. split.
      * intros [Hv|(y & d & md & Hy & Hrest)]; [by left|].
        right. exists y, d, md. split; [by right|done].
      * intros [Hv|(y & d & md & Hy & Hdesc & Hrest)]; [by left|].
        apply elem_of_cons in Hy as [->|Hy].
        -- inversion Hdesc as [? mp' Hmp' Hps'|? mp' c ? Hmp' Hps' Hc Hrest']; subst;
             rewrite Hmp in Hmp'; injection Hmp' as <-; done.
        -- right. by exists y, d, md.
Qed.

(** X26: on a well-formed hierarchy [_acceptable_polymorphic_identities]
    returns: it yields, each once, the polymorphic identities of the
    mapper and of the mappers below it that are reached through mappers
    on its own persist selectable; the mapper's own identity is among
    them. *)
Theorem acceptable_identities_spec (ms : list Mapper) (self : mapper_id) (me : Mapper) :
  wf_hierarchy ms →
  ms !! self = Some me →
  ∃ ids, _acceptable_polymorphic_identities ms self = Returns ids
         ∧ NoDup ids
         ∧ polymorphic_identity me ∈ ids
         ∧ ∀ v, v ∈ ids ↔
             ∃ d md, descends_on ms (persist_selectable me) self d
                     ∧ ms !! d = Some md ∧ v = polymorphic_identity md.
Proof.
  intros Hwf Hme. unfold _acceptable_polymorphic_identities. rewrite Hme.
  destruct (acceptable_identities_loop_returns ms (persist_selectable me) Hwf
              (hierarchy_size (S (length ms)) ms self) [self] []) as [ids Hids].
  { apply Forall_singleton. by eapply lookup_lt_Some. }
  { rewrite fmap_cons, sum_list_cons. simpl. lia. }
  destruct (acceptable_identities_loop_elem _ _ _ _ _ _ Hids (NoDup_nil_2)) as [Hnd Hmem].
  assert (∀ v, v ∈ ids ↔
            ∃ d md, descends_on ms (persist_selectable me) self d
                    ∧ ms !! d = Some md ∧ v = polymorphic_identity md) as Hspec.
  { intros v. rewrite Hmem. split.
    - intros [Hv|(x & d & md & Hx & Hrest)]; [by apply elem_of_nil in Hv|].
      apply list_elem_of_singleton in Hx as ->. by exists d, md.
    - intros (d & md & Hrest). right. exists self, d, md. split; [|done].
      by apply list_elem_of_singleton. }
  exists ids. split; [done|]. split; [done|]. split; [|done].
  apply Hspec. exists self, me. split; [by econstructor|done].
Qed.


(** ** Configured mappers stay configured *)

Lemma configured_keeps m j :
  preserves (field_is configured m true) (modify_mapper j (set_configured (λ _, true))).
Proof.
  apply preserves_modify. intros st Hst. unfold field_is in *. simpl.
  destruct (decide (j = m)) as [->|Hne].
  - rewrite list_lookup_alter_eq. by destruct (mappers st !! m).
  - by rewrite list_lookup_alter_ne.
Qed.

(** X27: nothing is rolled back.  A mapper that is configured stays
    configured through every later pass, however the pass ends, and
    through every construction; and a construction, however it ends,
    configures no mapper that was there before. *)
Theorem configured_is_kept (m : mapper_id) :
  (∀ regs cascade,
     preserves (field_is configured m true) (_configure_registries regs cascade))
  ∧ (∀ a b, preserves (field_is configured m b) (Mapper__init__ a)).
Proof.
  split.
  - intros regs cascade. preserves_using configured_keeps.
  - intros a b. preserves_tac.
Qed.

End proofs.

(** * The mapping of the employee hierarchy

    The statements above at the constructions of [Schema], and the
    constructions on which the code departs from its description. *)

Import Schema.

#[local] Existing Instance sql.
#[local] Existing Instance runtime.

(** A closed goal over the constructions is settled by evaluating it. *)
Ltac evaluate := vm_compute; first [reflexivity | discriminate | done].

(** A hierarchy is well formed when a check of every mapper says so. *)
Lemma wf_hierarchy_check (ms : list Mapper) :
  forallb (λ im, forallb (λ c, (im.1 <? c) && (c <? length ms))
                   (_inheriting_mappers im.2))
          (imap pair ms) = true →
  wf_hierarchy ms.
Proof.
  intros Hall m mp Hm. rewrite forallb_forall in Hall.
  specialize (Hall (m, mp)). simpl in Hall.
  apply Forall_forall. intros c Hc.
  assert (forallb (λ c, (m <? c) && (c <? length ms)) (_inheriting_mappers mp) = true)
    as Hcs.
  { apply Hall. apply list_elem_of_In, list_elem_of_lookup. exists m.
    by rewrite list_lookup_imap, Hm. }
  rewrite forallb_forall in Hcs. specialize (Hcs c).
  apply andb_prop in Hcs as [H1 H2]; [|by apply list_elem_of_In].
  apply Nat.ltb_lt in H1. apply Nat.ltb_lt in H2. lia.
Qed.

(** ** Identity keys *)

(** C6 at the row [(7, "employee")] of the [Employee] mapper. *)
Lemma identity_key_round_trip_employee :
  let me := mapper_at with_employee 0 in
  let row : gmap column pyvalue :=
    <[employee_id := PyInt 7]> (<[employee_discriminator := PyStr "employee"]> ∅) in
  identity_key_from_row me row None None
    = identity_key_from_primary_key me [PyInt 7] None
  ∧ identity_key_from_row me row None None = Returns (Employee, [PyInt 7], None).
Proof.
  intros me row.
  destruct (identity_key_round_trip me row None None [employee_id] [PyInt 7])
    as [Hrt Hkey]; [reflexivity|reflexivity|].
  split; [exact Hrt|]. apply Hkey. reflexivity.
Defined.

(** C10, amended, at the joined-table [Manager] mapper below
    [Employee]. *)
Lemma primary_mapper_identity_class_manager :
  ∃ md mp, mappers with_manager_joined !! 1 = Some md
           ∧ mappers with_manager_joined !! 0 = Some mp
           ∧ _identity_class md = _identity_class mp
           ∧ ∀ pk token, identity_key_from_primary_key md pk token
                         = identity_key_from_primary_key mp pk token.
Proof.
  apply (primary_mapper_identity_class manager_joined_args with_employee
           with_manager_joined 1 0);
    [evaluate|reflexivity|discriminate|reflexivity|reflexivity].
Defined.

(** C10 as stated fails for secondary mappers: the secondary mapper for
    [Manager] below the secondary mapper for [Employee] has the identity
    class of the primary mapper of [Manager], and the two give different
    identity keys. *)
Lemma secondary_mapper_identity_class :
  a_inherits secondary_manager_args = Some 2
  ∧ a_polymorphic_identity secondary_manager_args = Some "manager"
  ∧ a_concrete secondary_manager_args = false
  ∧ ∃ s' md mp,
      construct secondary_manager_args with_secondary_employee = (Returns 3, s')
      ∧ mappers s' !! 3 = Some md ∧ mappers s' !! 2 = Some mp
      ∧ _identity_class md = Some Manager
      ∧ _identity_class mp = Some Employee
      ∧ identity_key_from_primary_key md [PyInt 7] None
        ≠ identity_key_from_primary_key mp [PyInt 7] None.
Proof.
  do 3 (split; [reflexivity|]).
  exists (construct secondary_manager_args with_secondary_employee).2, (mapper_at (construct secondary_manager_args with_secondary_employee).2 3),
    (mapper_at (construct secondary_manager_args with_secondary_employee).2 2).
  do 5 (split; [evaluate|]). evaluate.
Qed.

(** ** Inheritance *)

(** C2 at the joined-table [Manager] mapper: its primary key is the one
    of the [Employee] mapper. *)
Lemma inheriting_mapper_primary_key_manager :
  ∃ md mp, mappers with_manager_joined !! 1 = Some md
           ∧ mappers with_manager_joined !! 0 = Some mp
           ∧ primary_key md = primary_key mp.
Proof.
  apply (inheriting_mapper_primary_key manager_joined_args with_employee
           with_manager_joined 1 0);
    [evaluate|reflexivity|reflexivity|left; reflexivity].
Defined.

(** C3 at the three tables: [manager] has one foreign key to [employee],
    [badge] has none and [assistant] has two. *)
Lemma joined_inheritance_condition_tables :
  (∃ md, mappers with_manager_joined !! 1 = Some md
         ∧ persist_selectable md = Some employee_manager
         ∧ inherit_condition md = Some manager_fk)
  ∧ (∃ e s', construct manager_on_badge_args with_employee = (Raises e, s')
             ∧ exn_class e = NoForeignKeysError)
  ∧ (∃ e s', construct assistant_args with_employee = (Raises e, s')
             ∧ exn_class e = AmbiguousForeignKeysError).
Proof.
  pose (par := mapper_at with_employee 0).
  pose proof (joined_inheritance_condition manager_joined_args with_employee 0 par
                manager employee employee) as Hone.
  pose proof (joined_inheritance_condition manager_on_badge_args with_employee 0 par
                badge employee employee) as Hnone.
  pose proof (joined_inheritance_condition assistant_args with_employee 0 par
                assistant employee employee) as Htwo.
  assert (fk_join_candidates employee manager = [manager_fk]) as Eone
    by (vm_compute; reflexivity).
  assert (fk_join_candidates employee badge = []) as Enone
    by (vm_compute; reflexivity).
  assert (fk_join_candidates employee assistant = [assistant_fk_a; assistant_fk_b])
    as Etwo by (vm_compute; reflexivity).
  assert (length (mappers with_employee) = 1) as Elen by (vm_compute; reflexivity).
  rewrite Eone, Elen in Hone. rewrite Enone in Hnone. rewrite Etwo in Htwo.
  unfold with_manager_joined, construct, employee_manager.
  split; [|split].
  - apply Hone; evaluate.
  - apply Hnone; evaluate.
  - apply Htwo; evaluate.
Defined.

(** C4 at the [Manager] mapper without a table: it shares the table of
    [Employee], and its [local_table] is that table, not [None]. *)
Theorem single_table_inheritance_local_table :
  a_inherits manager_single_args = Some 0
  ∧ a_local_table manager_single_args = None
  ∧ ∃ s' md mp,
      construct manager_single_args with_employee = (Returns 1, s')
      ∧ mappers s' !! 1 = Some md ∧ mappers s' !! 0 = Some mp
      ∧ single md = true
      ∧ persist_selectable md = persist_selectable mp
      ∧ local_table md = Some employee
      ∧ local_table md = local_table mp
      ∧ local_table md ≠ None.
Proof.
  split; [reflexivity|split; [reflexivity|]].
  exists with_manager_single, (mapper_at with_manager_single 1),
    (mapper_at with_manager_single 0).
  do 7 (split; [evaluate|]). evaluate.
Qed.

(** ** The polymorphic map *)

(** C7, amended, at a second mapper below [Employee] that takes the
    identity ["manager"]: it replaces mapper 1 in the shared map, with the
    warning. *)
Lemma polymorphic_identity_registered_twice :
  let s' := (construct second_manager_args with_manager_single).2 in
  ∃ md pmap, mappers s' !! 2 = Some md
             ∧ polymorphic_maps s' !! polymorphic_map md = Some pmap
             ∧ pmap !! "manager" = Some 2
             ∧ reassigning "manager" 1 2 ∈ log s'.
Proof.
  intros s'.
  destruct (polymorphic_identity_registered second_manager_args with_manager_single
              s' 2 "manager") as (md & pmap & Hmd & Hpm & Hid & Hwarn);
    [evaluate|reflexivity|intros pm Hp; discriminate Hp|].
  exists md, pmap. repeat split; [exact Hmd|exact Hpm|exact Hid|].
  apply (Hwarn 0 (mapper_at with_manager_single 0));
    [reflexivity|evaluate|evaluate].
Defined.

(** C7 as stated fails for a mapper without a parent that is given a
    polymorphic map: the identity ["employee"] is taken by mapper 0, the
    entry is overwritten, and no warning is emitted. *)
Lemma base_mapper_overwrites_silently :
  a_polymorphic_identity badge_sharing_map_args = Some "employee"
  ∧ polymorphic_maps with_employee !! 0 ≫= (λ m, m !! "employee") = Some 0
  ∧ ∃ s', construct badge_sharing_map_args with_employee = (Returns 1, s')
          ∧ polymorphic_map <$> mappers s' !! 1 = Some 0
          ∧ polymorphic_maps s' !! 0 ≫= (λ m, m !! "employee") = Some 1
          ∧ log s' = [EvInstrumentClass 0; EvInstrumentClass 1].
Proof.
  split; [evaluate|split; [evaluate|]].
  exists (construct badge_sharing_map_args with_employee).2.
  do 3 (split; [evaluate|]). evaluate.
Qed.

(** ** Primary keys *)

(** C8 at [Badge] on the table without a primary key. *)
Lemma configure_pks_could_not_assemble_audit :
  ∃ s', _configure_pks 1 before_configure_pks
        = (Raises (could_not_assemble 1 audit), s').
Proof.
  destruct (configure_pks_could_not_assemble 1 (mapper_at before_configure_pks 1)
              audit before_configure_pks) as [Hraises _]; [evaluate..|].
  exact Hraises.
Defined.

(** ** The single-table criterion *)


(** ** The configuration pass *)

(** C5 at the store with the [Employee] mapper pending: the first pass
    configures it, the second leaves the store as it is. *)
Lemma configure_registries_twice_employee :
  log employee_configured ≠ log with_employee
  ∧ _configure_registries [0] true employee_configured
    = (Returns tt, employee_configured).
Proof.
  split; [evaluate|].
  apply (configure_registries_twice [0] true with_employee employee_configured).
  - unfold never_skips.
    assert (before_mapper_configured <$> mappers with_employee = [[]]) as ->
      by evaluate.
    repeat constructor.
  - evaluate.
Defined.



(** ** The hierarchy of the examples *)

Lemma wf_inherits_check (ms : list Mapper) :
  forallb (λ im, match inherits im.2 with Some p => p <? im.1 | None => true end)
          (imap pair ms) = true →
  wf_inherits ms.
Proof.
  intros Hall m mp p Hm Hp. rewrite forallb_forall in Hall.
  specialize (Hall (m, mp)). simpl in Hall. rewrite Hp in Hall.
  apply Nat.ltb_lt, Hall, list_elem_of_In, list_elem_of_lookup. exists m.
  by rewrite list_lookup_imap, Hm.
Qed.

Lemma children_inherit_check (ms : list Mapper) :
  forallb (λ im, forallb (λ c, match ms !! c with
                               | Some mc => bool_decide (inherits mc = Some im.1)
                               | None => false
                               end) (_inheriting_mappers im.2))
          (imap pair ms) = true →
  children_inherit ms.
Proof.
  intros Hall p mp c Hp Hc. rewrite forallb_forall in Hall.
  specialize (Hall (p, mp)). simpl in Hall.
  assert (forallb (λ c, match ms !! c with
                        | Some mc => bool_decide (inherits mc = Some p)
                        | None => false
                        end) (_inheriting_mappers mp) = true) as Hcs.
  { apply Hall, list_elem_of_In, list_elem_of_lookup. exists p.
    by rewrite list_lookup_imap, Hp. }
  rewrite forallb_forall in Hcs. specialize (Hcs c (proj1 (list_elem_of_In _ _) Hc)).
  destruct (ms !! c) as [mc|]; [|done]. exists mc. split; [done|].
  by apply bool_decide_eq_true in Hcs.
Qed.

(** X1 at the second mapper below [Employee]. *)
Lemma iterate_to_root_spec_child :
  ∃ chain, iterate_to_root 2 with_two_children = (Returns (2 :: chain), with_two_children)
           ∧ ∀ other, other ∈ 2 :: chain
                      ↔ inherits_from (mappers with_two_children) 2 other.
Proof.
  destruct (iterate_to_root_spec with_two_children 2 (mapper_at with_two_children 2))
    as (chain & Hrun & _ & _ & _ & Hmem);
    [apply wf_inherits_check; evaluate|evaluate|].
  exists chain. exact (conj Hrun Hmem).
Defined.

(** X2 at the same mapper and [Employee]'s. *)
Lemma isa_spec_child :
  ∃ b, isa (mappers with_two_children) 2 0 = Returns b
       ∧ (b = true ↔ inherits_from (mappers with_two_children) 2 0).
Proof.
  destruct (isa_spec (mappers with_two_children) 2 0 (mapper_at with_two_children 2))
    as (b & Hrun & Hb & _);
    [apply wf_inherits_check; evaluate|evaluate|].
  exists b. exact (conj Hrun Hb).
Defined.

(** X3 at the two mappers below [Employee]. *)
Lemma is_sibling_spec_children :
  ∃ r, is_sibling (mappers with_two_children) 1 2 = Returns r
       ∧ is_sibling (mappers with_two_children) 2 1 = Returns r.
Proof.
  destruct (is_sibling_spec (mappers with_two_children) 1 2
              (mapper_at with_two_children 1) (mapper_at with_two_children 2))
    as (r & H12 & H21 & _);
    [apply wf_inherits_check; evaluate|evaluate|evaluate|].
  exists r. exact (conj H12 H21).
Defined.

(** X4 at the [Employee] mapper. *)
Lemma self_and_descendants_isa_employee :
  ∃ rest, self_and_descendants (mappers with_two_children) 0 = Returns (0 :: rest)
          ∧ ∀ d, d ∈ 0 :: rest
                 → isa (mappers with_two_children) d 0 = Returns true ∧ 0 ≤ d.
Proof.
  apply (self_and_descendants_isa (mappers with_two_children) 0);
    [apply wf_inherits_check; evaluate|apply children_inherit_check; evaluate|].
  vm_compute. lia.
Defined.

(** X26 at the [Employee] mapper. *)
Lemma acceptable_identities_spec_employee :
  ∃ ids, _acceptable_polymorphic_identities (mappers with_two_children) 0 = Returns ids
         ∧ NoDup ids
         ∧ Some "employee" ∈ ids.
Proof.
  destruct (acceptable_identities_spec (mappers with_two_children) 0
              (mapper_at with_two_children 0)) as (ids & Hrun & Hnd & Hown & _);
    [apply wf_hierarchy_check; evaluate|evaluate|].
  exists ids. exact (conj Hrun (conj Hnd Hown)).
Defined.

(** X5 at a row of [employee]. *)
Lemma result_has_identity_key_spec_employee :
  let row : gmap column pyvalue :=
    <[employee_id := PyInt 7]> (<[employee_discriminator := PyStr "employee"]> ∅) in
  match _result_has_identity_key (mapper_at with_employee 0) (dom row) None with
  | Returns true =>
      ∃ vals, identity_key_from_row (mapper_at with_employee 0) row None None
              = Returns (Employee, vals, None)
              ∧ Some (length vals) = length <$> primary_key (mapper_at with_employee 0)
  | Returns false =>
      ∃ e, identity_key_from_row (mapper_at with_employee 0) row None None = Raises e
           ∧ exn_class e = NoSuchColumnError
  | Raises e => identity_key_from_row (mapper_at with_employee 0) row None None = Raises e
  | Diverges => False
  end.
Proof.
  intros row.
  apply (result_has_identity_key_spec (mapper_at with_employee 0) row None None Employee).
  evaluate.
Defined.

(** ** Refused constructions *)

(** X6 at [Badge] below [Employee]. *)
Lemma inherits_requires_subclass_badge :
  ∃ s', construct badge_inheriting_args with_employee
        = (Raises (new_exn ArgumentError "Class '%s' does not inherit from '%s'"
                     [FmtStr "Badge"; FmtStr "Employee"]), s')
        ∧ managers s' = managers with_employee.
Proof.
  destruct (inherits_requires_subclass badge_inheriting_args with_employee 0
              (mapper_at with_employee 0)) as (s' & Hrun & _ & Hmg & _); [evaluate..|].
  exists s'. exact (conj Hrun Hmg).
Defined.

(** X7 at a secondary mapper below the primary mapper of [Employee]. *)
Lemma inherits_requires_same_kind_manager :
  ∃ s', construct secondary_below_primary_args with_employee
        = (Raises (new_exn ArgumentError
                     "Inheritance of %s mapper for class '%s' is only allowed from a %s mapper"
                     [FmtStr "non-primary"; FmtStr "Manager"; FmtStr "non-primary"]), s')
        ∧ managers s' = managers with_employee.
Proof.
  destruct (inherits_requires_same_kind secondary_below_primary_args with_employee 0
              (mapper_at with_employee 0)) as (s' & Hrun & _ & Hmg & _); [evaluate..|].
  exists s'. exact (conj Hrun Hmg).
Defined.


(** X9 at a second primary mapper for [Employee]. *)
Lemma second_primary_mapper_refused_employee :
  (∀ d s', construct employee_args with_employee ≠ (Returns d, s'))
  ∧ managers (construct employee_args with_employee).2 = managers with_employee.
Proof.
  destruct (second_primary_mapper_refused employee_args with_employee
              (Build_ClassManager (Some 0) (Some 0)))
    as (Hnever & Hmg & _); [evaluate..|].
  exact (conj Hnever Hmg).
Defined.

(** X10 at a secondary mapper for the unmapped [Badge]. *)
Lemma secondary_mapper_requires_primary_badge :
  (∀ d s', construct secondary_badge_args with_employee ≠ (Returns d, s'))
  ∧ managers (construct secondary_badge_args with_employee).2 = managers with_employee.
Proof.
  destruct (secondary_mapper_requires_primary secondary_badge_args with_employee)
    as (Hnever & Hmg & _); [evaluate..|].
  exact (conj Hnever Hmg).
Defined.

(** ** Constructions that return *)

(** X11 at the [Employee] mapper. *)
Lemma base_mapper_constructed_employee :
  ∃ md t, mappers with_employee !! 0 = Some md
          ∧ a_local_table employee_args = Some t
          ∧ persist_selectable md = Some t
          ∧ local_table md = Some t
          ∧ base_mapper md = Some 0
          ∧ inherits md = None
          ∧ _inheriting_mappers md = []
          ∧ single md = false
          ∧ (a_non_primary employee_args = false
             → _identity_class md = Some (a_class_ employee_args)).
Proof.
  apply (base_mapper_constructed employee_args empty_store with_employee 0); evaluate.
Defined.

(** X12 at the [Employee] mapper. *)
Lemma primary_mapper_registered_employee :
  managers empty_store !! Employee ≫= mgr_mapper = None
  ∧ managers with_employee !! Employee ≫= mgr_mapper = Some 0
  ∧ primary_mapper 0 with_employee = (Returns 0, with_employee).
Proof.
  destruct (primary_mapper_registered employee_args empty_store with_employee 0)
    as (_ & Hfree & Hbound & Hprimary & _); [evaluate..|].
  exact (conj Hfree (conj Hbound Hprimary)).
Defined.

(** X13 at the [Manager] mapper below [Employee]. *)
Lemma construction_keeps_hierarchy_manager :
  wf_inherits (mappers (construct manager_single_args with_employee).2)
  ∧ children_inherit (mappers (construct manager_single_args with_employee).2)
  ∧ wf_hierarchy (mappers (construct manager_single_args with_employee).2).
Proof.
  destruct (construction_keeps_hierarchy manager_single_args with_employee)
    as (Hwf & Hch & Hh & _);
    [apply wf_inherits_check; evaluate|apply children_inherit_check; evaluate| |].
  - intros p Hp. vm_compute in Hp. injection Hp as <-. vm_compute. lia.
  - exact (conj Hwf (conj Hch Hh)).
Defined.

(** ** The configuration pass *)

Lemma never_skips_employee : never_skips with_employee.
Proof.
  unfold never_skips.
  assert (before_mapper_configured <$> mappers with_employee = [[]]) as -> by evaluate.
  repeat constructor.
Qed.

(** X14 at the pass over the [Employee] mapper. *)
Lemma configure_guard_released_employee : _already_compiling employee_configured = false.
Proof.
  apply (configure_guard_released [0] true with_employee employee_configured (Returns tt));
    evaluate.
Defined.

(** X15 at a store in which a pass is under way. *)
Lemma configure_reentrant_noop_employee :
  ∃ r, _configure_registries [0] true pass_under_way = (r, pass_under_way)
       ∧ (Forall (λ reg, reg < length (registries pass_under_way)) [0] → r = Returns tt).
Proof.
  apply (configure_reentrant_noop [0] true pass_under_way). evaluate.
Defined.

(** X16 at [Badge] with the hook that asks to skip it. *)
Lemma skipping_hook_defers_badge :
  ∃ s', configure_mapper 1 with_deferred_badge = (Returns true, s')
        ∧ mappers s' = mappers with_deferred_badge
        ∧ properties s' = properties with_deferred_badge
        ∧ registries s' = registries with_deferred_badge
        ∧ log s' = log with_deferred_badge
                   ++ (EvBeforeMapperConfigured 1 <$> seq 0 (S (length [HookReturns false]))).
Proof.
  apply (skipping_hook_defers 1 with_deferred_badge (mapper_at with_deferred_badge 1)
           [HookReturns false] []); [evaluate|evaluate|].
  repeat constructor.
Defined.

(** X17 at the pass over the [Employee] mapper. *)
Lemma pass_configures_ready_mappers_employee :
  ∃ mp, mappers employee_configured !! 0 = Some mp
        ∧ (_ready_for_configure mp = true → configured mp = true).
Proof.
  apply (pass_configures_ready_mappers [0] true with_employee employee_configured
           never_skips_employee) with (reg := 0) (ms := [0]); [evaluate..| |evaluate|];
    apply list_elem_of_singleton; reflexivity.
Defined.

(** ** Inheritance *)

(** X18 at the [Manager] mapper without a table. *)
Lemma single_table_inheritance_manager :
  ∃ md, mappers with_manager_single !! 1 = Some md
        ∧ single md = true
        ∧ local_table md = local_table (mapper_at with_employee 0)
        ∧ persist_selectable md = persist_selectable (mapper_at with_employee 0)
        ∧ persist_selectable md ≠ None.
Proof.
  apply (single_table_inheritance manager_single_args with_employee with_manager_single
           1 0 (mapper_at with_employee 0)); evaluate.
Defined.

(** X19 at the concrete [Manager] mapper. *)
Lemma own_table_inheritance_manager :
  ∃ md, mappers (construct manager_concrete_args with_employee).2 !! 1 = Some md
        ∧ persist_selectable md = Some manager
        ∧ local_table md = Some manager
        ∧ single md = false
        ∧ inherit_condition md = a_inherit_condition manager_concrete_args
        ∧ (a_concrete manager_concrete_args = true
           → a_non_primary manager_concrete_args = false
           → _identity_class md = Some (a_class_ manager_concrete_args)).
Proof.
  apply (own_table_inheritance manager_concrete_args with_employee
           (construct manager_concrete_args with_employee).2 1 0
           (mapper_at with_employee 0) manager); [evaluate..|].
  left. evaluate.
Defined.

(** X20 at the [Manager] mapper with the inherit condition given. *)
Lemma explicit_inherit_condition_manager :
  ∃ md pps, mappers (construct manager_explicit_args with_employee).2 !! 1 = Some md
            ∧ persist_selectable (mapper_at with_employee 0) = Some pps
            ∧ persist_selectable md = Some (sql_join pps manager manager_fk)
            ∧ inherit_condition md = Some manager_fk
            ∧ _inherits_equated_pairs md
              = Some (criterion_as_pairs manager_fk
                        (a_inherit_foreign_keys manager_explicit_args))
            ∧ local_table md = Some manager
            ∧ single md = false.
Proof.
  apply (explicit_inherit_condition manager_explicit_args with_employee
           (construct manager_explicit_args with_employee).2 1 0
           (mapper_at with_employee 0) manager manager_fk); evaluate.
Defined.

(** X22 at the [Manager] mapper without a table. *)
Lemma discriminator_inherited_manager :
  ∃ md, mappers with_manager_single !! 1 = Some md
        ∧ polymorphic_on md
          = if bool_decide (persist_selectable md
                            = persist_selectable (mapper_at with_employee 0))
            then Some employee_discriminator
            else persist_selectable md
                 ≫= (λ ps, corresponding_column ps employee_discriminator).
Proof.
  apply (discriminator_inherited manager_single_args with_employee with_manager_single
           1 0 (mapper_at with_employee 0) employee_discriminator); evaluate.
Defined.

(** X23 at the [Manager] mapper without a table. *)
Lemma settings_inherited_manager :
  ∃ md mp, mappers with_manager_single !! 1 = Some md
           ∧ mappers with_manager_single !! 0 = Some mp
           ∧ inherits md = Some 0
           ∧ _inheriting_mappers mp = [1]
           ∧ common_parent (mappers with_manager_single) 1 0 = Returns true.
Proof.
  destruct (settings_inherited manager_single_args with_employee with_manager_single
              1 0 (mapper_at with_employee 0))
    as (md & mp & Hmd & Hmp & Hinh & Hch & _ & _ & Hcommon & _); [evaluate..|].
  exists md, mp. exact (conj Hmd (conj Hmp (conj Hinh (conj Hch Hcommon)))).
Defined.

(** X24 at the [Manager] mapper that loads ["inline"]. *)
Lemma polymorphic_load_checked_manager :
  a_concrete manager_inline_args = false
  ∧ ∃ mp, mappers (construct manager_inline_args with_employee).2 !! 0 = Some mp
          ∧ with_polymorphic mp = Some (WPTuple [WPClass Manager], None).
Proof.
  pose proof (polymorphic_load_checked manager_inline_args with_employee
                (construct manager_inline_args with_employee).2 1 0
                (mapper_at with_employee 0)) as Hload.
  assert (a_polymorphic_load manager_inline_args = Some "inline") as Einline by evaluate.
  assert (with_polymorphic (mapper_at with_employee 0) = None) as Enone by evaluate.
  rewrite Einline, Enone in Hload.
  destruct Hload as [Hconc [Hsel|[_ Hinline]]]; [evaluate..| |].
  - discriminate Hsel.
  - exact (conj Hconc Hinline).
Defined.

(** X25 at the [Manager] mapper without a table. *)
Lemma version_id_col_inherited_manager :
  ∃ md, mappers with_manager_single !! 1 = Some md
        ∧ version_id_col md = version_id_col (mapper_at with_employee 0).
Proof.
  destruct (version_id_col_inherited manager_single_args with_employee
              with_manager_single 1 0 (mapper_at with_employee 0))
    as (md & Hmd & Hv & _); [evaluate..|].
  assert (a_version_id_col manager_single_args = None) as Enone by evaluate.
  rewrite Enone in Hv.
  exists md. exact (conj Hmd Hv).
Defined.

(** ** Properties by name *)

(** X21 at the property ["id"] of the [Employee] mapper. *)
Lemma get_property_spec_employee :
  ∃ p, Mapper_get_property 0 "id" false with_employee = (Returns p, with_employee)
       ∧ ("id", p) ∈ _props (mapper_at with_employee 0).
Proof.
  pose proof (get_property_spec 0 "id" false with_employee (mapper_at with_employee 0))
    as Hget.
  assert (has_property (mapper_at with_employee 0) "id" = true) as Ehas by evaluate.
  rewrite Ehas in Hget. apply Hget; [evaluate|].
  intros Hcheck. discriminate Hcheck.
Defined.
